(** * Room state engine of the nachat Matrix client

    A shallow embedding of [src/matrix/Member.hpp] and [src/matrix/Room.cpp]:
    the per-room membership snapshot with its display-name index
    ([RoomState]), the timeline buffer, the receipt index and the
    single-flight sender of [Room], followed by the properties of the
    specification that concern them.

    Conventions of the embedding.
    - A [QString] is a [string]; [isEmpty] and [isNull] both test for the
      empty string (Qt compares a null and an empty string equal).
    - [std::unordered_map] is a [gmap]; a [std::vector] or [std::deque] is a
      [list].
    - [std::unordered_map::at] raises [std::out_of_range] and a failed
      [assert] aborts: a method of [RoomState] therefore runs in a monad that
      threads the object and the emitted effects and may stop abnormally,
      keeping the mutations made so far (C++ mutates in place).
    - A [Room *] that may be null is an [option]; the signals of [Room] and
      the writes to the member database are the effects. *)

From stdpp Require Import gmap strings list fin_maps pretty.
From Stdlib Require Import ZArith Lia QArith Qminmax.
From Stdlib Require OrderedTypeEx.

Set Warnings "-register-all".

Local Open Scope string_scope.
Local Open Scope Z_scope.
Local Open Scope list_scope.

(** ** Qt value types *)

Abbreviation QString := string (only parsing).
Abbreviation UserID := string (only parsing).
Abbreviation EventID := string (only parsing).

Definition isEmpty (s : QString) : bool := bool_decide (s = "").

(** [QJsonValue]; a number is kept as the integer it holds, an object as its
    list of entries in iteration order. *)
Inductive QJsonValue :=
| JUndefined
| JNull
| JBool (b : bool)
| JDouble (d : Z)
| JString (s : QString)
| JArray (a : list QJsonValue)
| JObject (o : list (QString * QJsonValue)).

Abbreviation QJsonObject := (list (QString * QJsonValue)) (only parsing).

Module Json.

(** [QJsonObject::operator[] const]: the value of the key, or undefined. *)
Fixpoint value (o : QJsonObject) (key : QString) : QJsonValue :=
  match o with
  | [] => JUndefined
  | (k, v) :: o' => if bool_decide (k = key) then v else value o' key
  end.

Definition toString (v : QJsonValue) : QString :=
  match v with JString s => s | _ => "" end.

Definition toObject (v : QJsonValue) : QJsonObject :=
  match v with JObject o => o | _ => [] end.

Definition toArray (v : QJsonValue) : list QJsonValue :=
  match v with JArray a => a | _ => [] end.

Definition toDouble (v : QJsonValue) (default : Z) : Z :=
  match v with JDouble d => d | _ => default end.

Definition empty (o : QJsonObject) : bool :=
  match o with [] => true | _ => false end.

(** [o[key] = v]: the entry of the key is replaced, or added. *)
Fixpoint set (o : QJsonObject) (key : QString) (v : QJsonValue) : QJsonObject :=
  match o with
  | [] => [(key, v)]
  | (k, v') :: o' =>
      if bool_decide (k = key) then (k, v) :: o' else (k, v') :: set o' key v
  end.

End Json.

(** ** proto.hpp: the part of an event that Room.cpp reads *)

Module proto.

Record Event := mkEvent {
  type : QString;
  event_id : EventID;
  sender : UserID;
  state_key : QString;
  content : QJsonObject;
  unsigned_prev_content : option QJsonObject;
}.

Record UnreadNotifications := {
  highlight_count : Z;
  notification_count : Z;
}.

Record Timeline := {
  limited : bool;
  prev_batch : QString;
  events : list Event;
}.

(** An ephemeral event has a type and a content. *)
Record Ephemeral := {
  ephemeral_events : list Event;
}.

Record JoinedRoom := {
  unread_notifications : UnreadNotifications;
  timeline : Timeline;
  ephemeral : Ephemeral;
}.

End proto.

(** ** The collaborators that are not part of the sources

    Unicode normalisation, URL parsing and printing, the iteration order of a
    [std::unordered_set], the conversion of an integer to a [double], and the
    session's transaction-id generator are taken as parameters. *)
Class Externals := {
  (** [QString::normalized(QString::NormalizationForm_C)] *)
  normalized : QString -> QString;
  (** [QUrl(const QString &)] and [QUrl::toString(QUrl::FullyEncoded)];
      a [QUrl] is held as a string, the empty one being the empty URL *)
  QUrl_parse : QString -> QString;
  QUrl_toString : QString -> QString;
  (** the elements of the [std::unordered_set] built by inserting the given
      sequence, in the set's iteration order *)
  unordered_set_order : list QString -> list QString;
  (** the integer value of the [double] nearest to an integer *)
  to_double : Z -> Z;
  (** [Session::get_transaction_id] on the session's counter *)
  transaction_id : nat -> QString;
  (** [QUrl::toPercentEncoding] *)
  toPercentEncoding : QString -> QString;
  (** [parse_event] of parse.hpp and [proto::to_json] of proto.hpp *)
  parse_event : QJsonValue -> proto.Event;
  event_to_json : proto.Event -> QJsonValue;
}.

Abbreviation QUrl := string (only parsing).

(** [QObject::tr] on the source texts of Room.cpp, and [QString::arg] with a
    string and with a number: the translation catalogue and the substitution
    of the place markers belong to Qt. *)
Class Translations := {
  QObject_tr : QString -> QString;
  arg : QString -> QString -> QString;
  arg_size : QString -> nat -> QString;
}.

(** ** Member.hpp *)

Inductive Membership := INVITE | JOIN | LEAVE | BAN.

Global Instance Membership_eq_dec : EqDecision Membership.
Proof. solve_decision. Defined.

(** Modelled from the spec: [parse_membership] is declared in Member.hpp and
    defined outside the sources; it parses the strings "invite", "join",
    "leave" and "ban" and rejects every other value. *)
Definition parse_membership (m : QString) : option Membership :=
  if bool_decide (m = "invite") then Some INVITE
  else if bool_decide (m = "join") then Some JOIN
  else if bool_decide (m = "leave") then Some LEAVE
  else if bool_decide (m = "ban") then Some BAN
  else None.

Definition membership_displayable (m : Membership) : bool :=
  bool_decide (m = JOIN) || bool_decide (m = INVITE).

Module Member.

Record t := mk {
  id : UserID;
  display_name : QString;   (* Optional *)
  avatar_url : QUrl;        (* Optional *)
  membership : Membership;
}.

Global Instance eq_dec : EqDecision t.
Proof. solve_decision. Defined.

(** [explicit Member(UserID id)]: no display name, no avatar, [LEAVE]. *)
Definition of_id (i : UserID) : t := mk i "" "" LEAVE.

Definition pretty_name (m : t) : QString :=
  if isEmpty (display_name m) then id m else display_name m.

Section WithExternals.
Context `{!Externals}.

(** Modelled from the spec: [Member::update_membership] is declared in
    Member.hpp and defined outside the sources; it overwrites the display
    name, the avatar and the membership from the content, a field absent
    from the content clearing the corresponding optional.  A membership
    string that does not parse leaves the membership as it was. *)
Definition update_membership (m : t) (content : QJsonObject) : t :=
  mk (id m)
     (Json.toString (Json.value content "displayname"))
     (QUrl_parse (Json.toString (Json.value content "avatar_url")))
     (match parse_membership (Json.toString (Json.value content "membership")) with
      | Some r => r
      | None => membership m
      end).

(** Modelled from the spec: [Member(QString id, const QJsonObject &)]
    initialises the display name, the avatar and the membership from the
    object. *)
Definition of_json (i : UserID) (o : QJsonObject) : t :=
  update_membership (of_id i) o.

Definition membership_string (m : Membership) : QString :=
  match m with
  | INVITE => "invite" | JOIN => "join" | LEAVE => "leave" | BAN => "ban"
  end.

(** Modelled from the spec: [Member::to_json] is declared in Member.hpp
    and defined outside the sources; it serialises the member to the
    object that [Member(id, object)] reads back. *)
Definition to_json (m : t) : QJsonObject :=
  [("displayname", JString (display_name m));
   ("avatar_url", JString (QUrl_toString (avatar_url m)));
   ("membership", JString (membership_string (membership m)))].
End WithExternals.

End Member.

(** ** Effects of the room state engine *)

(** The signals of [Room] that Room.cpp emits. *)
Module Signal.

Inductive t :=
| aliases_changed
| canonical_alias_changed
| name_changed
| topic_changed (old : QString)
| avatar_changed
| member_disambiguation_changed (m : Member.t) (old : QString)
| member_name_changed (m : Member.t) (old : QString)
| membership_changed (m : Member.t) (membership : Membership)
| left (membership : Membership)
| highlight_count_changed (old : Z)
| notification_count_changed (old : Z)
| discontinuity
| prev_batch (token : QString)
| message (evt : proto.Event)
| receipts_changed
| typing_changed
| state_changed
| error (msg : QString).

End Signal.

(** What a method does to the world outside the object: a signal, a write to
    the LMDB member database within the caller's transaction, a call to the
    session, a start of the retry timer.  [pop_front] records that the head
    of the queue of pending events was removed, so that the trace of a run
    can be read per outbound event, and [update_receipt_call] that
    [Room::update_receipt] was called, so that the order of the receipt
    updates and of the notifications about them can be read. *)
Inductive Effect :=
| Emit (s : Signal.t)
| dbi_put (key : UserID) (data : QJsonObject)
| dbi_del (key : UserID)
| session_get_transaction_id (txn : QString)
| session_put (path : QString) (content : QJsonObject)
| timer_start (msec : Z)
| pop_front
| update_receipt_call (user : UserID) (event : EventID) (ts : Z).

(** [std::out_of_range], a failed [assert], and undefined behaviour ([front]
    of an empty deque, [*] of an empty optional). *)
Inductive Exn := out_of_range | assertion_failure | undefined_behaviour.

Inductive Res (A : Type) :=
| Ok (a : A)
| Raise (e : Exn).
Arguments Ok {A} a.
Arguments Raise {A} e.

(** The part of a [Room] that [RoomState] reads through its [Room *]. *)
Record RoomPtr := { room_id : QString }.

(** ** Methods as state transformers

    A non-const method of an object of type [S]: the object before, the
    result or the abnormal stop, the object after, and the effects in the
    order they happened. *)
Definition St (S A : Type) : Type := S -> Res A * S * list Effect.

Section St.
Context {S : Type}.

Definition ret {A} (a : A) : St S A := fun s => (Ok a, s, []).

Definition bind {A B} (m : St S A) (f : A -> St S B) : St S B :=
  fun s =>
    match m s with
    | (Ok a, s1, out1) =>
        match f a s1 with
        | (r, s2, out2) => (r, s2, out1 ++ out2)
        end
    | (Raise e, s1, out1) => (Raise e, s1, out1)
    end.

Definition get : St S S := fun s => (Ok s, s, []).
Definition modify (f : S -> S) : St S unit := fun s => (Ok tt, f s, []).
Definition raise {A} (e : Exn) : St S A := fun s => (Raise e, s, []).
Definition tell (e : Effect) : St S unit := fun s => (Ok tt, s, [e]).

(** A const method that may raise. *)
Definition lift {A} (f : S -> Res A) : St S A := fun s => (f s, s, []).

Definition when (b : bool) (m : St S unit) : St S unit := if b then m else ret tt.

(** [room->signal(...)] behind an [if(room)]. *)
Definition emit (room : option RoomPtr) (sig : Signal.t) : St S unit :=
  when (bool_decide (is_Some room)) (tell (Emit sig)).

Definition assert (b : bool) : St S unit :=
  if b then ret tt else raise assertion_failure.

(** A range-based [for] whose body is a method. *)
Fixpoint for_each {A} (l : list A) (body : A -> St S unit) : St S unit :=
  match l with
  | [] => ret tt
  | x :: l' => bind (body x) (fun _ => for_each l' body)
  end.
End St.

Global Instance St_ret {S} : MRet (St S) := @ret S.
Global Instance St_bind {S} : MBind (St S) := fun A B f m => bind m f.

(** A method of a member object [T] of [S], called on that member. *)
Definition on_field {S T A} (proj : S -> T) (upd : T -> S -> S) (m : St T A) : St S A :=
  fun s =>
    match m (proj s) with
    | (r, t', out) => (r, upd t' s, out)
    end.

(** ** RoomState *)

Module RoomState.

Record t := mk {
  name_ : QString;
  canonical_alias_ : QString;
  topic_ : QString;
  avatar_ : QUrl;
  aliases_ : list QString;
  members_by_id_ : gmap UserID Member.t;
  members_by_displayname_ : gmap QString (list UserID);
  departed_ : UserID;
}.

(** The default-constructed state. *)
Definition empty : t := mk "" "" "" "" [] ∅ ∅ "".

Definition set_name (v : QString) (s : t) : t :=
  mk v (canonical_alias_ s) (topic_ s) (avatar_ s) (aliases_ s)
     (members_by_id_ s) (members_by_displayname_ s) (departed_ s).
Definition set_canonical_alias (v : QString) (s : t) : t :=
  mk (name_ s) v (topic_ s) (avatar_ s) (aliases_ s)
     (members_by_id_ s) (members_by_displayname_ s) (departed_ s).
Definition set_topic (v : QString) (s : t) : t :=
  mk (name_ s) (canonical_alias_ s) v (avatar_ s) (aliases_ s)
     (members_by_id_ s) (members_by_displayname_ s) (departed_ s).
Definition set_avatar (v : QUrl) (s : t) : t :=
  mk (name_ s) (canonical_alias_ s) (topic_ s) v (aliases_ s)
     (members_by_id_ s) (members_by_displayname_ s) (departed_ s).
Definition set_aliases (v : list QString) (s : t) : t :=
  mk (name_ s) (canonical_alias_ s) (topic_ s) (avatar_ s) v
     (members_by_id_ s) (members_by_displayname_ s) (departed_ s).
Definition set_members_by_id (v : gmap UserID Member.t) (s : t) : t :=
  mk (name_ s) (canonical_alias_ s) (topic_ s) (avatar_ s) (aliases_ s)
     v (members_by_displayname_ s) (departed_ s).
Definition set_members_by_displayname (v : gmap QString (list UserID)) (s : t) : t :=
  mk (name_ s) (canonical_alias_ s) (topic_ s) (avatar_ s) (aliases_ s)
     (members_by_id_ s) v (departed_ s).
Definition set_departed (v : UserID) (s : t) : t :=
  mk (name_ s) (canonical_alias_ s) (topic_ s) (avatar_ s) (aliases_ s)
     (members_by_id_ s) (members_by_displayname_ s) v.

Abbreviation M := (St t).

Definition set_by_id (f : gmap UserID Member.t -> gmap UserID Member.t) : M unit :=
  modify (fun s => set_members_by_id (f (members_by_id_ s)) s).
Definition set_by_displayname
    (f : gmap QString (list UserID) -> gmap QString (list UserID)) : M unit :=
  modify (fun s => set_members_by_displayname (f (members_by_displayname_ s)) s).

(** [vec[i]] where the index is known to be in range. *)
Definition nth_id (vec : list UserID) (i : nat) : UserID := default "" (vec !! i).

Section Methods.
Context `{!Externals}.

Definition member_from_id (s : t) (id : QString) : option Member.t :=
  members_by_id_ s !! id.

(** [members_by_id_.at(id)] *)
Definition members_by_id_at (id : UserID) (s : t) : Res Member.t :=
  match members_by_id_ s !! id with
  | Some m => Ok m
  | None => Raise out_of_range
  end.

(** [members_by_displayname_.at(key)] *)
Definition members_by_displayname_at (key : QString) (s : t) : Res (list UserID) :=
  match members_by_displayname_ s !! key with
  | Some vec => Ok vec
  | None => Raise out_of_range
  end.

Definition members_named (s : t) (displayname : QString) : Res (list UserID) :=
  members_by_displayname_at (normalized displayname) s.

Definition member_disambiguation (s : t) (member : Member.t) : Res QString :=
  if isEmpty (Member.display_name member) then
    if bool_decide (is_Some (members_by_displayname_ s !! Member.id member))
    then Ok (Member.id member)
    else Ok ""
  else
    match members_named s (Member.display_name member) with
    | Raise e => Raise e
    | Ok vec =>
        if bool_decide (1 < length vec)%nat
           || bool_decide (is_Some (member_from_id s (Member.display_name member)))
        then Ok (Member.id member)
        else Ok ""
    end.

Definition member_name (s : t) (member : Member.t) : Res QString :=
  let result := Member.pretty_name member in
  match member_disambiguation s member with
  | Raise e => Raise e
  | Ok disambig =>
      if isEmpty disambig then Ok result
      else Ok (result +:+ " (" +:+ disambig +:+ ")")
  end.

(** The member whose disambiguation may change as a side effect, chosen
    the same way by [forget_displayname] and [record_displayname]:
    nobody when both collisions exist, the member whose id is the name
    when there is one, else the other holder of the name [other_id]. *)
Definition other_member_of (existing_displayname : bool)
    (existing_mxid : option Member.t) (other_id : UserID) : M (option Member.t) :=
  if negb existing_displayname || negb (bool_decide (is_Some existing_mxid)) then
    o ← (if existing_displayname
         then m ← lift (members_by_id_at other_id); mret (Some m)
         else mret None);
    mret (match existing_mxid with Some m => Some m | None => o end)
  else mret None.

Definition forget_displayname (id : UserID) (old_name_in : QString)
    (room : option RoomPtr) : M unit :=
  if isEmpty old_name_in then mret tt else
  let old_name := normalized old_name_in in
  vec ← lift (members_by_displayname_at old_name);
  s ← get;
  let existing_displayname := bool_decide (length vec = 2%nat) in
  let existing_mxid := member_from_id s old_name in
  other_member ←
    (if bool_decide (is_Some room)
     then other_member_of existing_displayname existing_mxid
            (if bool_decide (nth_id vec 0 = id) then nth_id vec 1 else nth_id vec 0)
     else mret None);
  other_disambiguation ←
    (match other_member with
     | Some m => lift (fun s => member_disambiguation s m)
     | None => mret ""
     end);
  let before := length vec in
  let vec' := filter (fun x => x ≠ id) vec in
  set_by_displayname (<[old_name := vec']>);;
  assert (bool_decide (before - length vec' = 1)%nat);;
  when (bool_decide (vec' = [])) (set_by_displayname (delete old_name));;
  match other_member with
  | Some m => tell (Emit (Signal.member_disambiguation_changed m other_disambiguation))
  | None => mret tt
  end.

Definition record_displayname (id : UserID) (name : QString)
    (room : option RoomPtr) : M unit :=
  if isEmpty name then mret tt else
  let normalized_ := normalized name in
  s ← get;
  let vec := default [] (members_by_displayname_ s !! normalized_) in
  set_by_displayname (<[normalized_ := vec]>);;
  assert (forallb (fun x => bool_decide (x ≠ id)) vec);;
  let vec' := vec ++ [id] in
  set_by_displayname (<[normalized_ := vec']>);;
  if bool_decide (is_Some room) then
    s ← get;
    let existing_displayname := bool_decide (length vec' = 2%nat) in
    let existing_mxid := member_from_id s normalized_ in
    other_member ← other_member_of existing_displayname existing_mxid (nth_id vec' 0);
    match other_member with
    | Some m => tell (Emit (Signal.member_disambiguation_changed m ""))
    | None => mret tt
    end
  else mret tt.

(** [member_db] tells whether the database and transaction pointers are
    given. *)
Definition update_membership (user_id : QString) (content : QJsonObject)
    (room : option RoomPtr) (member_db : bool) : M bool :=
  match (if Json.empty content then Some LEAVE
         else parse_membership (Json.toString (Json.value content "membership"))) with
  | None => mret false
  | Some membership =>
      match membership with
      | INVITE | JOIN =>
          s ← get;
          let member := default (Member.of_id user_id) (members_by_id_ s !! user_id) in
          set_by_id (<[user_id := member]>);;
          let old_membership := Member.membership member in
          let old_displayname := Member.display_name member in
          old_member_name ← lift (fun s => member_name s member);
          let member := Member.update_membership member content in
          set_by_id (<[user_id := member]>);;
          (if bool_decide (Member.display_name member ≠ old_displayname) then
             forget_displayname (Member.id member) old_displayname room;;
             record_displayname (Member.id member) (Member.display_name member) room;;
             when (bool_decide (is_Some room) && membership_displayable old_membership)
                  (tell (Emit (Signal.member_name_changed member old_member_name)))
           else mret tt);;
          when (bool_decide (is_Some room)
                && bool_decide (Member.membership member ≠ old_membership))
               (tell (Emit (Signal.membership_changed member membership)));;
          when member_db (tell (dbi_put user_id (Member.to_json member)));;
          mret true
      | LEAVE | BAN =>
          when (match room with
                | Some r => bool_decide (user_id = room_id r)
                | None => false
                end)
               (tell (Emit (Signal.left membership)));;
          s ← get;
          match members_by_id_ s !! user_id with
          | Some member =>
              let old_displayname := Member.display_name member in
              let member := Member.update_membership member content in
              set_by_id (<[user_id := member]>);;
              (if bool_decide (Member.display_name member ≠ old_displayname) then
                 forget_displayname (Member.id member) old_displayname room;;
                 record_displayname (Member.id member) (Member.display_name member) room
               else mret tt);;
              emit room (Signal.membership_changed member membership);;
              s ← get;
              assert (isEmpty (departed_ s));;
              modify (set_departed (Member.id member))
          | None => mret tt
          end;;
          when member_db (tell (dbi_del user_id));;
          mret true
      end
  end.

Definition dispatch (state : proto.Event) (room : option RoomPtr)
    (member_db : bool) : M bool :=
  let type := proto.type state in
  let content := proto.content state in
  if bool_decide (type = "m.room.message") then mret false
  else if bool_decide (type = "m.room.aliases") then
    s ← get;
    let data := Json.toArray (Json.value content "aliases") in
    let all_aliases := unordered_set_order (aliases_ s ++ map Json.toString data) in
    modify (set_aliases all_aliases);;
    emit room Signal.aliases_changed;;
    mret true
  else if bool_decide (type = "m.room.canonical_alias") then
    s ← get;
    let old := canonical_alias_ s in
    let new := Json.toString (Json.value content "alias") in
    modify (set_canonical_alias new);;
    when (bool_decide (new ≠ old)) (emit room Signal.canonical_alias_changed);;
    mret true
  else if bool_decide (type = "m.room.name") then
    s ← get;
    let old := name_ s in
    let new := Json.toString (Json.value content "name") in
    modify (set_name new);;
    when (bool_decide (new ≠ old)) (emit room Signal.name_changed);;
    mret true
  else if bool_decide (type = "m.room.topic") then
    s ← get;
    let old := topic_ s in
    let new := Json.toString (Json.value content "topic") in
    modify (set_topic new);;
    when (bool_decide (new ≠ old)) (emit room (Signal.topic_changed old));;
    mret true
  else if bool_decide (type = "m.room.avatar") then
    s ← get;
    let old := avatar_ s in
    let new := QUrl_parse (Json.toString (Json.value content "url")) in
    modify (set_avatar new);;
    when (bool_decide (new ≠ old)) (emit room Signal.avatar_changed);;
    mret true
  else if bool_decide (type = "m.room.create") then mret false
  else if bool_decide (type = "m.room.member") then
    update_membership (proto.state_key state) content room member_db
  else mret false.

(** Modelled from the spec: [RoomState::apply] is declared in Room.hpp,
    which is not part of the sources; it is the forward dispatch without
    callbacks or persistence. *)
Definition apply (state : proto.Event) : M bool := dispatch state None false.

Definition prune_departed (room : option RoomPtr) : M unit :=
  s ← get;
  if negb (isEmpty (departed_ s)) then
    m ← lift (members_by_id_at (departed_ s));
    forget_displayname (departed_ s) (Member.display_name m) room;;
    set_by_id (delete (departed_ s));;
    modify (set_departed "")
  else mret tt.

(** [RoomState(info, txn, member_db)]: the metadata is read from [info]
    and the members from the database, given as the pairs its cursor
    yields. *)
Definition load_member (entry : UserID * QJsonObject) : M unit :=
  let id_str := entry.1 in
  s ← get;
  let member := default (Member.of_json id_str entry.2) (members_by_id_ s !! id_str) in
  set_by_id (<[id_str := member]>);;
  record_displayname (Member.id member) (Member.display_name member) None.

Definition of_info (info : QJsonObject) : t :=
  mk (Json.toString (Json.value info "name"))
     (Json.toString (Json.value info "canonical_alias"))
     (Json.toString (Json.value info "topic"))
     (QUrl_parse (Json.toString (Json.value info "avatar")))
     (map Json.toString (Json.toArray (Json.value info "aliases")))
     ∅ ∅ "".

Definition of_json (info : QJsonObject) (member_db : list (UserID * QJsonObject))
    : Res unit * t * list Effect :=
  for_each member_db load_member (of_info info).

Definition to_json (s : t) : QJsonObject :=
  let o := [] in
  let o := if negb (isEmpty (name_ s)) then Json.set o "name" (JString (name_ s)) else o in
  let o := if negb (isEmpty (canonical_alias_ s))
           then Json.set o "canonical_alias" (JString (canonical_alias_ s)) else o in
  let o := if negb (isEmpty (topic_ s)) then Json.set o "topic" (JString (topic_ s)) else o in
  let o := if negb (isEmpty (avatar_ s))
           then Json.set o "avatar" (JString (QUrl_toString (avatar_ s))) else o in
  Json.set o "aliases" (JArray (map JString (aliases_ s))).

(** [RoomState::members]: the stored members in the iteration order of
    [members_by_id_], which the standard leaves unspecified; the order of
    the [gmap] stands for it. *)
Definition members (s : t) : list Member.t := (map_to_list (members_by_id_ s)).*2.

(** The comparison of [pretty_name], [a->id() < b->id()]. *)
Definition id_lt (a b : Member.t) : bool := String.ltb (Member.id a) (Member.id b).

(** The member with the smallest id among [a] and [ms], and the others. *)
Fixpoint extract_min (a : Member.t) (ms : list Member.t) : Member.t * list Member.t :=
  match ms with
  | [] => (a, [])
  | b :: ms' =>
      if id_lt b a
      then let '(m, rest) := extract_min b ms' in (m, a :: rest)
      else let '(m, rest) := extract_min a ms' in (m, b :: rest)
  end.

(** [std::partial_sort(ms.begin(), ms.begin() + 2, ms.end(), by id)]: the
    two members with the smallest ids come first, in order.  The standard
    leaves the order of the others unspecified; [pretty_name] reads only
    their number. *)
Definition partial_sort_2 (ms : list Member.t) : list Member.t :=
  match ms with
  | [] => []
  | a :: ms' =>
      let '(m0, rest) := extract_min a ms' in
      match rest with
      | [] => [m0]
      | b :: rest' => let '(m1, rest'') := extract_min b rest' in m0 :: m1 :: rest''
      end
  end.

(** [RoomState::pretty_name] from [auto ms = members()] on. *)
Definition pretty_name_of_members `{!Translations} (s : t) (own_id : QString)
    (ms : list Member.t) : Res QString :=
  let ms := filter (fun m => Member.id m ≠ own_id) ms in
  let ms := if bool_decide (1 < length ms)%nat then partial_sort_2 ms else ms in
  match ms with
  | [] => Ok (QObject_tr "Empty room")
  | [m0] => Ok (Member.pretty_name m0)
  | [m0; m1] =>
      match member_name s m0, member_name s m1 with
      | Ok n0, Ok n1 => Ok (arg (arg (QObject_tr "%1 and %2") n0) n1)
      | Raise e, _ => Raise e
      | _, Raise e => Raise e
      end
  | m0 :: _ =>
      match member_name s m0 with
      | Ok n0 => Ok (arg_size (arg (QObject_tr "%1 and %2 others") n0) (length ms - 1))
      | Raise e => Raise e
      end
  end.

Definition pretty_name `{!Translations} (s : t) (own_id : QString) : Res QString :=
  if negb (isEmpty (name_ s)) then Ok (name_ s)
  else if negb (isEmpty (canonical_alias_ s)) then Ok (canonical_alias_ s)
  else
    match aliases_ s with
    | a :: _ => Ok a
    | [] => pretty_name_of_members s own_id (members s)
    end.

(** [unsigned_.prev_content], read with [operator[]] when present. *)
Definition prev_string (state : proto.Event) (key : QString) : QString :=
  match proto.unsigned_prev_content state with
  | Some prev => Json.toString (Json.value prev key)
  | None => ""
  end.

Definition revert (state : proto.Event) : M unit :=
  let type := proto.type state in
  if bool_decide (type = "m.room.message") then mret tt
  else if bool_decide (type = "m.room.canonical_alias") then
    modify (set_canonical_alias (prev_string state "alias"))
  else if bool_decide (type = "m.room.name") then
    modify (set_name (prev_string state "name"))
  else if bool_decide (type = "m.room.topic") then
    modify (set_topic (prev_string state "topic"))
  else if bool_decide (type = "m.room.avatar") then
    modify (set_avatar (match proto.unsigned_prev_content state with
                        | Some prev => QUrl_parse (Json.toString (Json.value prev "url"))
                        | None => ""
                        end))
  else if bool_decide (type = "m.room.member") then
    update_membership (proto.state_key state)
      (default [] (proto.unsigned_prev_content state)) None false;;
    prune_departed None
  else mret tt.

Definition ensure_member (e : proto.Event) : M unit :=
  if bool_decide (proto.type e ≠ "m.room.member") then mret tt else
  match parse_membership (Json.toString (Json.value (proto.content e) "membership")) with
  | None => mret tt
  | Some r =>
      match r with
      | LEAVE | BAN =>
          s ← get;
          match members_by_id_ s !! proto.state_key e with
          | Some _ => mret tt
          | None =>
              let member := Member.of_id (proto.state_key e) in
              set_by_id (<[proto.state_key e := member]>);;
              let member :=
                match proto.unsigned_prev_content e with
                | Some prev => Member.update_membership member prev
                | None => member
                end in
              let member := Member.update_membership member (proto.content e) in
              set_by_id (<[proto.state_key e := member]>);;
              record_displayname (Member.id member) (Member.display_name member) None
          end
      | _ => mret tt
      end
  end.

End Methods.

End RoomState.

(** ** Room *)

Record TimelineBatch := {
  batch_prev_batch : QString;
  batch_events : list proto.Event;
}.

Record Receipt := {
  receipt_event : EventID;
  receipt_ts : Z;
}.

Global Instance Receipt_eq_dec : EqDecision Receipt.
Proof. solve_decision. Defined.

(** The part of the [Session] that Room.cpp uses: the id of the own user, the
    bound on the number of buffered events, and the counter behind
    [get_transaction_id]. *)
Module Session.

Record t := mk {
  user_id : UserID;
  buffer_size : nat;
  next_transaction_id : nat;
}.

End Session.

(** An entry of [pending_events_]. *)
Record PendingEvent := {
  pending_type : QString;
  pending_content : QJsonObject;
}.

(** The request behind the [QNetworkReply *] held by [transmitting_]. *)
Record Request := {
  request_path : QString;
  request_content : QJsonObject;
}.

(** What [decode] returns for a finished reply. *)
Record Response := {
  response_code : Z;
  response_error : option QString;
}.

(** [MINIMUM_BACKOFF], five seconds, in the ticks of
    [std::chrono::steady_clock::duration] (nanoseconds). *)
Definition MINIMUM_BACKOFF : Z := 5 * 1000000000.

(** [30s] in the same ticks. *)
Definition MAXIMUM_BACKOFF : Z := 30 * 1000000000.

Module Room.

Record t := mk {
  id_ : QString;
  session_ : Session.t;
  initial_state_ : RoomState.t;
  state_ : RoomState.t;
  buffer_ : list TimelineBatch;
  highlight_count_ : Z;
  notification_count_ : Z;
  receipts_by_user_ : gmap UserID Receipt;
  receipts_by_event_ : gmap EventID (list UserID);
  typing_ : list UserID;
  pending_events_ : list PendingEvent;
  transmitting_ : option Request;
  last_transmit_transaction_ : QString;
  retry_backoff_ : Z;
  transmit_retry_timer_ : option Z;
}.

Definition set_id (v : QString) (r : t) : t :=
  mk v (session_ r) (initial_state_ r) (state_ r) (buffer_ r) (highlight_count_ r) (notification_count_ r) (receipts_by_user_ r) (receipts_by_event_ r) (typing_ r) (pending_events_ r) (transmitting_ r) (last_transmit_transaction_ r) (retry_backoff_ r) (transmit_retry_timer_ r).
Definition set_session (v : Session.t) (r : t) : t :=
  mk (id_ r) v (initial_state_ r) (state_ r) (buffer_ r) (highlight_count_ r) (notification_count_ r) (receipts_by_user_ r) (receipts_by_event_ r) (typing_ r) (pending_events_ r) (transmitting_ r) (last_transmit_transaction_ r) (retry_backoff_ r) (transmit_retry_timer_ r).
Definition set_initial_state (v : RoomState.t) (r : t) : t :=
  mk (id_ r) (session_ r) v (state_ r) (buffer_ r) (highlight_count_ r) (notification_count_ r) (receipts_by_user_ r) (receipts_by_event_ r) (typing_ r) (pending_events_ r) (transmitting_ r) (last_transmit_transaction_ r) (retry_backoff_ r) (transmit_retry_timer_ r).
Definition set_state (v : RoomState.t) (r : t) : t :=
  mk (id_ r) (session_ r) (initial_state_ r) v (buffer_ r) (highlight_count_ r) (notification_count_ r) (receipts_by_user_ r) (receipts_by_event_ r) (typing_ r) (pending_events_ r) (transmitting_ r) (last_transmit_transaction_ r) (retry_backoff_ r) (transmit_retry_timer_ r).
Definition set_buffer (v : list TimelineBatch) (r : t) : t :=
  mk (id_ r) (session_ r) (initial_state_ r) (state_ r) v (highlight_count_ r) (notification_count_ r) (receipts_by_user_ r) (receipts_by_event_ r) (typing_ r) (pending_events_ r) (transmitting_ r) (last_transmit_transaction_ r) (retry_backoff_ r) (transmit_retry_timer_ r).
Definition set_highlight_count (v : Z) (r : t) : t :=
  mk (id_ r) (session_ r) (initial_state_ r) (state_ r) (buffer_ r) v (notification_count_ r) (receipts_by_user_ r) (receipts_by_event_ r) (typing_ r) (pending_events_ r) (transmitting_ r) (last_transmit_transaction_ r) (retry_backoff_ r) (transmit_retry_timer_ r).
Definition set_notification_count (v : Z) (r : t) : t :=
  mk (id_ r) (session_ r) (initial_state_ r) (state_ r) (buffer_ r) (highlight_count_ r) v (receipts_by_user_ r) (receipts_by_event_ r) (typing_ r) (pending_events_ r) (transmitting_ r) (last_transmit_transaction_ r) (retry_backoff_ r) (transmit_retry_timer_ r).
Definition set_receipts_by_user (v : gmap UserID Receipt) (r : t) : t :=
  mk (id_ r) (session_ r) (initial_state_ r) (state_ r) (buffer_ r) (highlight_count_ r) (notification_count_ r) v (receipts_by_event_ r) (typing_ r) (pending_events_ r) (transmitting_ r) (last_transmit_transaction_ r) (retry_backoff_ r) (transmit_retry_timer_ r).
Definition set_receipts_by_event (v : gmap EventID (list UserID)) (r : t) : t :=
  mk (id_ r) (session_ r) (initial_state_ r) (state_ r) (buffer_ r) (highlight_count_ r) (notification_count_ r) (receipts_by_user_ r) v (typing_ r) (pending_events_ r) (transmitting_ r) (last_transmit_transaction_ r) (retry_backoff_ r) (transmit_retry_timer_ r).
Definition set_typing (v : list UserID) (r : t) : t :=
  mk (id_ r) (session_ r) (initial_state_ r) (state_ r) (buffer_ r) (highlight_count_ r) (notification_count_ r) (receipts_by_user_ r) (receipts_by_event_ r) v (pending_events_ r) (transmitting_ r) (last_transmit_transaction_ r) (retry_backoff_ r) (transmit_retry_timer_ r).
Definition set_pending_events (v : list PendingEvent) (r : t) : t :=
  mk (id_ r) (session_ r) (initial_state_ r) (state_ r) (buffer_ r) (highlight_count_ r) (notification_count_ r) (receipts_by_user_ r) (receipts_by_event_ r) (typing_ r) v (transmitting_ r) (last_transmit_transaction_ r) (retry_backoff_ r) (transmit_retry_timer_ r).
Definition set_transmitting (v : option Request) (r : t) : t :=
  mk (id_ r) (session_ r) (initial_state_ r) (state_ r) (buffer_ r) (highlight_count_ r) (notification_count_ r) (receipts_by_user_ r) (receipts_by_event_ r) (typing_ r) (pending_events_ r) v (last_transmit_transaction_ r) (retry_backoff_ r) (transmit_retry_timer_ r).
Definition set_last_transmit_transaction (v : QString) (r : t) : t :=
  mk (id_ r) (session_ r) (initial_state_ r) (state_ r) (buffer_ r) (highlight_count_ r) (notification_count_ r) (receipts_by_user_ r) (receipts_by_event_ r) (typing_ r) (pending_events_ r) (transmitting_ r) v (retry_backoff_ r) (transmit_retry_timer_ r).
Definition set_retry_backoff (v : Z) (r : t) : t :=
  mk (id_ r) (session_ r) (initial_state_ r) (state_ r) (buffer_ r) (highlight_count_ r) (notification_count_ r) (receipts_by_user_ r) (receipts_by_event_ r) (typing_ r) (pending_events_ r) (transmitting_ r) (last_transmit_transaction_ r) v (transmit_retry_timer_ r).
Definition set_transmit_retry_timer (v : option Z) (r : t) : t :=
  mk (id_ r) (session_ r) (initial_state_ r) (state_ r) (buffer_ r) (highlight_count_ r) (notification_count_ r) (receipts_by_user_ r) (receipts_by_event_ r) (typing_ r) (pending_events_ r) (transmitting_ r) (last_transmit_transaction_ r) (retry_backoff_ r) v.

Abbreviation M := (St t).

Definition on_state {A} (m : RoomState.M A) : M A := on_field state_ set_state m.
Definition on_initial_state {A} (m : RoomState.M A) : M A :=
  on_field initial_state_ set_initial_state m.

(** The handle through which [state_] calls back into this room. *)
Definition this (r : t) : option RoomPtr := Some {| room_id := id_ r |}.

Definition buffer_size_of (buffer : list TimelineBatch) : nat :=
  foldl (fun r x => (r + length (batch_events x))%nat) 0%nat buffer.

(** [Room::buffer_size] *)
Definition buffer_size (r : t) : nat := buffer_size_of (buffer_ r).

Definition receipt_from (r : t) (id : UserID) : option Receipt :=
  receipts_by_user_ r !! id.

Definition receipts_for (r : t) (id : EventID) : list UserID :=
  default [] (receipts_by_event_ r !! id).

(** The pointers to receipts kept in [receipts_by_event_] point into
    [receipts_by_user_]; such a pointer is held as the user whose entry it
    points to. *)
Definition update_receipt (user : UserID) (event : EventID) (ts : Z) (r : t) : t :=
  let new_value := {| receipt_event := event; receipt_ts := ts |} in
  let r :=
    match receipts_by_user_ r !! user with
    | None => set_receipts_by_user (<[user := new_value]> (receipts_by_user_ r)) r
    | Some old =>
        let r :=
          match receipts_by_event_ r !! receipt_event old with
          | Some vec =>
              set_receipts_by_event
                (<[receipt_event old := filter (fun p => p ≠ user) vec]> (receipts_by_event_ r)) r
          | None => r
          end in
        set_receipts_by_user (<[user := new_value]> (receipts_by_user_ r)) r
    end in
  set_receipts_by_event
    (<[event := default [] (receipts_by_event_ r !! event) ++ [user]]> (receipts_by_event_ r)) r.

(** The scan of one batch, newest event first: [Some b] when the scan
    returns [b] in this batch, [None] when it goes on to the batch before. *)
Fixpoint has_unread_events (own : UserID) (r : Receipt) (newest_first : list proto.Event)
    : option bool :=
  match newest_first with
  | [] => None
  | event :: older =>
      if bool_decide (receipt_event r = proto.event_id event) then Some false
      else if bool_decide (proto.type event = "m.room.message")
              && bool_decide (proto.sender event ≠ own) then Some true
      else has_unread_events own r older
  end.

Fixpoint has_unread_batches (own : UserID) (r : Receipt) (newest_first : list TimelineBatch)
    : bool :=
  match newest_first with
  | [] => true
  | batch :: older =>
      match has_unread_events own r (rev (batch_events batch)) with
      | Some b => b
      | None => has_unread_batches own r older
      end
  end.

Definition has_unread (r : t) : bool :=
  match last (buffer_ r) with
  | None => true
  | Some back =>
      if bool_decide (batch_events back = []) then true
      else
        match receipt_from r (Session.user_id (session_ r)) with
        | None => true
        | Some rc => has_unread_batches (Session.user_id (session_ r)) rc (rev (buffer_ r))
        end
  end.

Section Methods.
Context `{!Externals}.

(** *** The sender *)

(** The path of the PUT up to the transaction id. *)
Definition send_base (r : t) (event : PendingEvent) : QString :=
  "client/r0/rooms/" +:+ toPercentEncoding (id_ r) +:+ "/send/"
    +:+ toPercentEncoding (pending_type event).

Definition send_path (r : t) (event : PendingEvent) : QString :=
  send_base r event +:+ "/" +:+ last_transmit_transaction_ r.

Definition transmit_event : M unit :=
  r ← get;
  if bool_decide (is_Some (transmitting_ r)) then mret tt else
  match pending_events_ r with
  | [] => raise undefined_behaviour
  | event :: _ =>
      (if isEmpty (last_transmit_transaction_ r) then
         let n := Session.next_transaction_id (session_ r) in
         modify (set_session (Session.mk (Session.user_id (session_ r))
                                         (Session.buffer_size (session_ r)) (S n)));;
         tell (session_get_transaction_id (transaction_id n));;
         modify (set_last_transmit_transaction (transaction_id n))
       else mret tt);;
      r ← get;
      let request := {| request_path := send_path r event;
                        request_content := pending_content event |} in
      tell (session_put (request_path request) (request_content request));;
      modify (set_transmitting (Some request))
  end.

Definition send (type : QString) (content : QJsonObject) : M unit :=
  modify (fun r => set_pending_events
            (pending_events_ r ++ [{| pending_type := type; pending_content := content |}]) r);;
  transmit_event.

(** [pending_events_.pop_front()] *)
Definition pending_pop_front : M unit :=
  r ← get;
  match pending_events_ r with
  | [] => raise undefined_behaviour
  | _ :: rest => modify (set_pending_events rest);; tell pop_front
  end.

(** [transmit_finished], the slot of the reply's [finished] signal, on
    the decoded reply.  [1.25 * retry_backoff_] is a [double] count of
    nanoseconds that [duration_cast] truncates; for the values that occur
    (at most 30s) the product is exact, so it is [5 * b / 4] on integers.
    The timer takes whole milliseconds. *)
Definition transmit_finished (reply : Response) : M unit :=
  modify (set_transmitting None);;
  retrying ←
    (if bool_decide (400 <= response_code reply) && bool_decide (response_code reply < 500)
        && bool_decide (response_code reply ≠ 429) then
       match response_error reply with
       | Some msg => tell (Emit (Signal.error msg))
       | None => raise undefined_behaviour
       end;;
       pending_pop_front;;
       mret false
     else if negb (bool_decide (is_Some (response_error reply))) then
       pending_pop_front;;
       mret false
     else mret true);
  when (negb retrying)
       (modify (set_last_transmit_transaction "");;
        modify (set_retry_backoff MINIMUM_BACKOFF));;
  r ← get;
  when (negb (bool_decide (pending_events_ r = [])))
       (if retrying : bool then
          tell (timer_start (retry_backoff_ r / 1000000));;
          modify (set_transmit_retry_timer (Some (retry_backoff_ r / 1000000)));;
          modify (set_retry_backoff (Z.min MAXIMUM_BACKOFF (5 * retry_backoff_ r / 4)))
        else transmit_event).

(** The slot of the single-shot retry timer. *)
Definition retry_timeout : M unit :=
  modify (set_transmit_retry_timer None);;
  transmit_event.

(** *** Ingestion of a sync delta *)

(** [buffer_.back()] modified in place. *)
Definition on_back (f : TimelineBatch -> TimelineBatch) (buffer : list TimelineBatch)
    : list TimelineBatch :=
  alter f (pred (length buffer)) buffer.

Definition update_receipt_m (user : UserID) (event : EventID) (ts : Z) : M unit :=
  tell (update_receipt_call user event ts);;
  modify (update_receipt user event ts).

Definition dispatch_timeline_event (evt : proto.Event) : M bool :=
  r ← get;
  touched ← on_state (RoomState.dispatch evt (this r) true);
  modify (fun r => set_buffer
            (on_back (fun batch => {| batch_prev_batch := batch_prev_batch batch;
                                      batch_events := batch_events batch ++ [evt] |})
                     (buffer_ r)) r);;
  tell (Emit (Signal.message evt));;
  on_state (RoomState.prune_departed (this r));;
  mret touched.

Fixpoint dispatch_timeline_events (events : list proto.Event) (state_touched : bool)
    : M bool :=
  match events with
  | [] => mret state_touched
  | evt :: events' =>
      touched ← dispatch_timeline_event evt;
      dispatch_timeline_events events' (state_touched || touched)
  end.

Definition evict_front (front : TimelineBatch) : M unit :=
  for_each (batch_events front)
    (fun evt =>
       on_initial_state (RoomState.apply evt);;
       on_initial_state (RoomState.prune_departed None));;
  modify (fun r => set_buffer (tail (buffer_ r)) r).

(** The eviction loop; every turn removes a batch, so the number of
    batches bounds the number of turns. *)
Fixpoint evict (turns : nat) : M unit :=
  match turns with
  | O => mret tt
  | S turns' =>
      r ← get;
      match buffer_ r with
      | [] => mret tt
      | front :: _ =>
          if bool_decide (Session.buffer_size (session_ r)
                          ≤ buffer_size r - length (batch_events front))%nat
          then evict_front front;; evict turns'
          else mret tt
      end
  end.

Definition dispatch_ephemeral_event (evt : proto.Event) : M unit :=
  if bool_decide (proto.type evt = "m.receipt") then
    for_each (proto.content evt)
      (fun read_evt =>
         let obj := Json.toObject (Json.value (Json.toObject read_evt.2) "m.read") in
         for_each obj
           (fun user =>
              update_receipt_m user.1 read_evt.1
                (Json.toDouble (Json.value (Json.toObject user.2) "ts") 0)));;
    tell (Emit Signal.receipts_changed)
  else if bool_decide (proto.type evt = "m.typing") then
    let ids := Json.toArray (Json.value (proto.content evt) "user_ids") in
    modify (set_typing (map Json.toString ids));;
    tell (Emit Signal.typing_changed)
  else mret tt.

(** The loop over [joined.ephemeral.events]. *)
Definition dispatch_ephemeral (events : list proto.Event) : M unit :=
  for_each events dispatch_ephemeral_event.

Definition dispatch (joined : proto.JoinedRoom) : M bool :=
  let unread := proto.unread_notifications joined in
  let timeline := proto.timeline joined in
  r ← get;
  when (bool_decide (proto.highlight_count unread ≠ highlight_count_ r))
       (modify (set_highlight_count (proto.highlight_count unread));;
        tell (Emit (Signal.highlight_count_changed (highlight_count_ r))));;
  when (bool_decide (proto.notification_count unread ≠ notification_count_ r))
       (modify (set_notification_count (proto.notification_count unread));;
        tell (Emit (Signal.notification_count_changed (notification_count_ r))));;
  when (proto.limited timeline)
       (modify (set_buffer []);;
        tell (Emit Signal.discontinuity));;
  tell (Emit (Signal.prev_batch (proto.prev_batch timeline)));;
  r ← get;
  state_touched ←
    (if bool_decide (proto.events timeline = []) && negb (bool_decide (buffer_ r = [])) then
       modify (set_buffer
                 (on_back (fun batch => {| batch_prev_batch := proto.prev_batch timeline;
                                           batch_events := batch_events batch |})
                          (buffer_ r)));;
       mret false
     else
       modify (set_buffer (buffer_ r ++ [{| batch_prev_batch := proto.prev_batch timeline;
                                            batch_events := [] |}]));;
       touched ← dispatch_timeline_events (proto.events timeline) false;
       r ← get;
       evict (length (buffer_ r));;
       mret touched);
  dispatch_ephemeral (proto.ephemeral_events (proto.ephemeral joined));;
  when state_touched (tell (Emit Signal.state_changed));;
  mret state_touched.

(** *** Persistence *)

Definition to_json (r : t) : QJsonObject :=
  let o :=
    match last (buffer_ r) with
    | Some back =>
        Json.set (Json.set [] "prev_batch" (JString (batch_prev_batch back)))
                 "events" (JArray (map event_to_json (batch_events back)))
    | None => []
    end in
  let receipts :=
    foldl (fun receipts receipt =>
             Json.set receipts receipt.1
               (JObject [("event_id", JString (receipt_event receipt.2));
                         ("ts", JDouble (to_double (receipt_ts receipt.2)))]))
          [] (map_to_list (receipts_by_user_ r)) in
  [("initial_state", JObject (RoomState.to_json (initial_state_ r)));
   ("buffer", JObject o);
   ("highlight_count", JDouble (to_double (highlight_count_ r)));
   ("notification_count", JDouble (to_double (notification_count_ r)));
   ("receipts", JObject receipts)].

(** The members of a freshly constructed room. *)
Definition fresh (id : QString) (session : Session.t) : t :=
  mk id session RoomState.empty RoomState.empty [] 0 0 ∅ ∅ [] [] None ""
     MINIMUM_BACKOFF None.

(** [initial_state_ = RoomState(...)]: the assignment happens when the
    constructor returns. *)
Definition assign_initial_state (c : Res unit * RoomState.t * list Effect) : M unit :=
  fun r =>
    match c with
    | (Ok _, st, out) => (Ok tt, set_initial_state st r, out)
    | (Raise e, _, out) => (Raise e, r, out)
    end.

(** The body of the loop over the persisted events. *)
Definition load_event (e : QJsonValue) : M unit :=
  let evt := parse_event e in
  modify (fun r => set_buffer
            (on_back (fun batch =>
                        {| batch_prev_batch := batch_prev_batch batch;
                           batch_events := batch_events batch ++ [evt] |})
                     (buffer_ r)) r);;
  on_state (RoomState.apply evt);;
  on_state (RoomState.prune_departed None).

(** The body of the loop over the persisted receipts. *)
Definition load_receipt (it : QString * QJsonValue) : M unit :=
  update_receipt_m it.1
    (Json.toString (Json.value (Json.toObject it.2) "event_id"))
    (Json.toDouble (Json.value (Json.toObject it.2) "ts") 0).

Definition load (initial : QJsonObject) (member_db : list (UserID * QJsonObject))
    : M unit :=
  if Json.empty initial then mret tt else
  assign_initial_state
    (RoomState.of_json (Json.toObject (Json.value initial "initial_state")) member_db);;
  modify (fun r => set_state (initial_state_ r) r);;
  let b := Json.toObject (Json.value initial "buffer") in
  when (negb (Json.empty b))
       (modify (fun r => set_buffer
                  (buffer_ r ++ [{| batch_prev_batch := Json.toString (Json.value b "prev_batch");
                                    batch_events := [] |}]) r);;
        for_each (Json.toArray (Json.value b "events")) load_event);;
  modify (set_highlight_count (Json.toDouble (Json.value initial "highlight_count") 0));;
  modify (set_notification_count (Json.toDouble (Json.value initial "notification_count") 0));;
  for_each (Json.toObject (Json.value initial "receipts")) load_receipt.

(** [Room(universe, session, id, initial, env, txn, member_db)] *)
Definition of_json (id : QString) (session : Session.t) (initial : QJsonObject)
    (member_db : list (UserID * QJsonObject)) : Res unit * t * list Effect :=
  load initial member_db (fresh id session).

(** *** The other methods *)

Definition pretty_name `{!Translations} (r : t) : Res QString :=
  RoomState.pretty_name (state_ r) (Session.user_id (session_ r)).

(** [Room::load_state]: the state events of a sync delta go to both
    snapshots, to the current one with the callbacks of the room and the
    member database. *)
Definition load_state (events : list proto.Event) : M unit :=
  for_each events
    (fun state =>
       on_initial_state (RoomState.apply state);;
       on_initial_state (RoomState.prune_departed None);;
       r ← get;
       on_state (RoomState.dispatch state (this r) true);;
       on_state (RoomState.prune_departed None)).

End Methods.

End Room.

(** ** A concrete choice of the collaborators

    It agrees with Qt on ASCII strings without percent-encoded characters and
    on integers below 2^53, and is used to run the model on examples. *)

Fixpoint dedup_strings (l : list QString) : list QString :=
  match l with
  | [] => []
  | x :: l' => if bool_decide (x ∈ l') then dedup_strings l' else x :: dedup_strings l'
  end.

Definition ascii_event_to_json (e : proto.Event) : QJsonValue :=
  JObject ([("type", JString (proto.type e));
            ("event_id", JString (proto.event_id e));
            ("sender", JString (proto.sender e));
            ("state_key", JString (proto.state_key e));
            ("content", JObject (proto.content e))]
           ++ match proto.unsigned_prev_content e with
              | Some pc => [("unsigned", JObject [("prev_content", JObject pc)])]
              | None => []
              end).

Definition ascii_parse_event (v : QJsonValue) : proto.Event :=
  let o := Json.toObject v in
  proto.mkEvent
    (Json.toString (Json.value o "type"))
    (Json.toString (Json.value o "event_id"))
    (Json.toString (Json.value o "sender"))
    (Json.toString (Json.value o "state_key"))
    (Json.toObject (Json.value o "content"))
    (match Json.value (Json.toObject (Json.value o "unsigned")) "prev_content" with
     | JObject pc => Some pc
     | _ => None
     end).

Fixpoint ascii_transaction_id (n : nat) : QString :=
  match n with
  | O => "t"
  | S n' => "t" +:+ ascii_transaction_id n'
  end.

Definition ascii_externals : Externals := {|
  normalized := fun s => s;
  QUrl_parse := fun s => s;
  QUrl_toString := fun s => s;
  unordered_set_order := dedup_strings;
  to_double := fun z => z;
  transaction_id := ascii_transaction_id;
  toPercentEncoding := fun s => s;
  parse_event := ascii_parse_event;
  event_to_json := ascii_event_to_json;
|}.

(** ** The notions the properties are stated with *)

(** *** The ingestion loop of the state events

    [Room::dispatch], [Room::load_state] and the constructor of [Room] all
    follow a dispatch of a state event by [prune_departed]. *)
Definition ingest_event `{!Externals} (room : option RoomPtr) (member_db : bool)
    (evt : proto.Event) : RoomState.M unit :=
  RoomState.dispatch evt room member_db;;
  RoomState.prune_departed room.

Definition ingest `{!Externals} (room : option RoomPtr) (member_db : bool)
    (events : list proto.Event) : RoomState.M unit :=
  for_each events (ingest_event room member_db).

(** *** The display-name index *)

(** [u] is filed under the name [n]. *)
Definition filed_under (s : RoomState.t) (n : QString) (u : UserID) : Prop :=
  ∃ vec, RoomState.members_by_displayname_ s !! n = Some vec ∧ u ∈ vec.

(** [u] is a member that has a display name, which normalises to [n]; a
    display name is optional, the empty string standing for none. *)
Definition named `{!Externals} (s : RoomState.t) (n : QString) (u : UserID) : Prop :=
  ∃ m, RoomState.members_by_id_ s !! u = Some m
       ∧ Member.display_name m ≠ ""
       ∧ normalized (Member.display_name m) = n.

Definition displayable (s : RoomState.t) (u : UserID) : Prop :=
  ∃ m, RoomState.members_by_id_ s !! u = Some m
       ∧ membership_displayable (Member.membership m) = true.

(** No bucket is empty and none lists an id twice. *)
Definition buckets_tidy (s : RoomState.t) : Prop :=
  ∀ n vec, RoomState.members_by_displayname_ s !! n = Some vec → vec ≠ [] ∧ NoDup vec.

(** Invariant 1 of the specification. *)
Definition name_index_consistent `{!Externals} (s : RoomState.t) : Prop :=
  (∀ n u, filed_under s n u ↔ named s n u ∧ displayable s u) ∧ buckets_tidy s.

(** The index files every member that has a display name, whatever its
    membership: what the methods of [RoomState] rely on. *)
Definition name_index_complete `{!Externals} (s : RoomState.t) : Prop :=
  (∀ n u, filed_under s n u ↔ named s n u) ∧ buckets_tidy s.

(** *** The snapshot and the result of [RoomState::dispatch] *)

(** The events for which [RoomState::dispatch] returns [true]. *)
Definition touches_state (evt : proto.Event) : bool :=
  let type := proto.type evt in
  if bool_decide (type = "m.room.message") then false
  else if bool_decide (type = "m.room.aliases") then true
  else if bool_decide (type = "m.room.canonical_alias") then true
  else if bool_decide (type = "m.room.name") then true
  else if bool_decide (type = "m.room.topic") then true
  else if bool_decide (type = "m.room.avatar") then true
  else if bool_decide (type = "m.room.create") then false
  else if bool_decide (type = "m.room.member") then
    Json.empty (proto.content evt)
    || bool_decide (is_Some (parse_membership
                               (Json.toString (Json.value (proto.content evt) "membership"))))
  else false.

(** *** The member notified by [forget_displayname]

    The candidate by name is the other holder of the name when the bucket
    holds exactly two ids before [id] is removed; the candidate by id is the
    member whose id is the normalised name.  A member is notified when there
    is exactly one candidate. *)
Definition other_holder (vec : list UserID) (id : UserID) : UserID :=
  if bool_decide (RoomState.nth_id vec 0 = id)
  then RoomState.nth_id vec 1 else RoomState.nth_id vec 0.

Definition forget_candidate (s : RoomState.t) (old_name : QString) (vec : list UserID)
    (id : UserID) : option Member.t :=
  match bool_decide (length vec = 2%nat), RoomState.members_by_id_ s !! old_name with
  | true, None => RoomState.members_by_id_ s !! other_holder vec id
  | false, Some m => Some m
  | _, _ => None
  end.

(** The index after [id] is removed from the bucket [vec] of [old_name]. *)
Definition forget_index (s : RoomState.t) (old_name : QString) (vec : list UserID)
    (id : UserID) : gmap QString (list UserID) :=
  let vec' := filter (fun x => x ≠ id) vec in
  if bool_decide (vec' = [])
  then delete old_name (RoomState.members_by_displayname_ s)
  else <[old_name := vec']> (RoomState.members_by_displayname_ s).

(** *** Unread events, as the specification words it *)


(** All buffered events, newest first. *)
Definition newest_first (buffer : list TimelineBatch) : list proto.Event :=
  rev (concat (map batch_events buffer)).



(** *** Runs of the sender *)

(** What happens to the sender: the client sends an event, the reply of the
    request in flight finishes, the retry timer fires. *)
Inductive SenderInput :=
| Send (type : QString) (content : QJsonObject)
| Finished (reply : Response)
| Timeout.

(** A reply can finish only while a request is in flight, and the timer can
    fire only while it runs. *)
Definition sender_enabled (i : SenderInput) (r : Room.t) : bool :=
  match i with
  | Send _ _ => true
  | Finished _ => bool_decide (is_Some (Room.transmitting_ r))
  | Timeout => bool_decide (is_Some (Room.transmit_retry_timer_ r))
  end.

Definition sender_step `{!Externals} (i : SenderInput) : Room.M unit :=
  match i with
  | Send type content => Room.send type content
  | Finished reply => Room.transmit_finished reply
  | Timeout => Room.retry_timeout
  end.

(** The run on a sequence of inputs: an input that is not enabled does not
    happen, and the run ends when a step stops abnormally. *)
Fixpoint sender_run `{!Externals} (inputs : list SenderInput) (r : Room.t)
    : Room.t * list Effect :=
  match inputs with
  | [] => (r, [])
  | i :: inputs' =>
      if sender_enabled i r then
        match sender_step i r with
        | (Ok _, r', out) =>
            let '(r'', out') := sender_run inputs' r' in (r'', out ++ out')
        | (Raise _, r', out) => (r', out)
        end
      else sender_run inputs' r
  end.



(** *** The back-off schedule *)

(** The delays, in milliseconds, with which the retry timer is started. *)
Definition timer_delays (trace : list Effect) : list Z :=
  omap (fun e => match e with timer_start msec => Some msec | _ => None end) trace.

(** [k] transient failures in a row, the timer firing after each but the
    last. *)
Fixpoint transient_failures (k : nat) (reply : Response) : list SenderInput :=
  match k with
  | O => []
  | 1%nat => [Finished reply]
  | S k' => Finished reply :: Timeout :: transient_failures k' reply
  end.

Definition transient (reply : Response) : Prop :=
  ¬ (400 <= response_code reply < 500 ∧ response_code reply ≠ 429)
  ∧ is_Some (response_error reply).

(** The delay of the [k]-th retry in whole milliseconds: 5s times 1.25 to the
    [k - 1], rounded down, and at most 30s. *)
Definition retry_delay_msec (k : nat) : Z :=
  Z.min (5000 * 5 ^ (Z.of_nat k - 1) / 4 ^ (Z.of_nat k - 1)) 30000.

(** *** Notifications about receipts *)





(** [retry_backoff_] after [k] transient failures in a row. *)
Definition next_backoff (b : Z) : Z := Z.min MAXIMUM_BACKOFF (5 * b / 4).

Fixpoint backoff_after (k : nat) : Z :=
  match k with
  | O => MINIMUM_BACKOFF
  | S k' => next_backoff (backoff_after k')
  end.

(** The disambiguation of a member as [forget_displayname] captures it, the
    empty string standing in when the lookup fails. *)
Definition disambiguation_of `{!Externals} (s : RoomState.t) (m : Member.t) : QString :=
  match RoomState.member_disambiguation s m with
  | Ok d => d
  | Raise _ => ""
  end.

(** *** The trace of the ephemeral events *)



(** ** Rooms and events of the examples *)

Definition member_event (user : UserID) (content : QJsonObject) : proto.Event :=
  proto.mkEvent "m.room.member" "$member" user user content None.

Definition join_event (user : UserID) (name : QString) : proto.Event :=
  member_event user [("membership", JString "join"); ("displayname", JString name)].

Definition leave_event (user : UserID) : proto.Event :=
  member_event user [("membership", JString "leave")].

Definition name_event (name : QString) : proto.Event :=
  proto.mkEvent "m.room.name" "$name" "@a:x" "" [("name", JString name)] None.

Definition message_event (id : EventID) (sender : UserID) : proto.Event :=
  proto.mkEvent "m.room.message" id sender "" [("body", JString "hi")] None.

Definition receipt_event_of (content : QJsonObject) : proto.Event :=
  proto.mkEvent "m.receipt" "" "" "" content None.

Definition read_by (event : EventID) (user : UserID) (ts : Z) : QString * QJsonValue :=
  (event, JObject [("m.read", JObject [(user, JObject [("ts", JDouble ts)])])]).

Definition lobby : RoomPtr := {| room_id := "!lobby:x" |}.

Definition own_session : Session.t := Session.mk "@me:x" 100 0.

(** The state after the given events went through the ingestion loop with
    the callbacks of the room attached. *)
Definition state_after (events : list proto.Event) : RoomState.t :=
  (ingest (H := ascii_externals) (Some lobby) true events RoomState.empty).1.2.

Definition emits_left (trace : list Effect) : bool :=
  existsb (fun e => match e with Emit (Signal.left _) => true | _ => false end) trace.

Definition too_many_requests : Response :=
  {| response_code := 429; response_error := Some "Too Many Requests" |}.

Definition success : Response :=
  {| response_code := 200; response_error := None |}.

(** A sync delta that carries the given timeline events and nothing else. *)
Definition delta (events : list proto.Event) : proto.JoinedRoom :=
  {| proto.unread_notifications := {| proto.highlight_count := 0; proto.notification_count := 0 |};
     proto.timeline := {| proto.limited := false; proto.prev_batch := "p"; proto.events := events |};
     proto.ephemeral := {| proto.ephemeral_events := [] |} |}.

(** The room after the given deltas, from a fresh room. *)
Definition room_after (deltas : list proto.JoinedRoom) : Room.t :=
  (for_each deltas (fun joined => Room.dispatch (H := ascii_externals) joined;; mret tt)
     (Room.fresh "!lobby:x" own_session)).1.2.

(** ** Notions used in the proofs *)

(** The method never emits [left]. *)
Definition never_left {S A} (m : St S A) : Prop :=
  ∀ s, emits_left (m s).2 = false.

(** Every normal return of [m] satisfies [P]. *)
Definition returns {S A} (m : St S A) (P : A → Prop) : Prop :=
  ∀ s a s' out, m s = (Ok a, s', out) → P a.

(** The index after [id] is filed under the name. *)
Definition record_index (s : RoomState.t) (name : QString) (id : UserID)
    : gmap QString (list UserID) :=
  <[name := default [] (RoomState.members_by_displayname_ s !! name) ++ [id]]>
    (RoomState.members_by_displayname_ s).

(** Every member is stored under its own id. *)
Definition ids_match (s : RoomState.t) : Prop :=
  ∀ u m, RoomState.members_by_id_ s !! u = Some m → Member.id m = u.

(** The index is complete for every member but [user], whom it files under
    [name] (nowhere when the name is empty): the state between the update
    of a member's record and the update of the index. *)
Definition index_tracks `{!Externals} (s : RoomState.t) (user : UserID) (name : QString)
    : Prop :=
  buckets_tidy s
  ∧ (∀ n, filed_under s n user ↔ name ≠ "" ∧ n = normalized name)
  ∧ (∀ n u, u ≠ user → (filed_under s n u ↔ named s n u)).

(** What the methods of [RoomState] keep between two events, and what holds
    between a dispatch and its [prune_departed]. *)
Definition sound `{!Externals} (s : RoomState.t) : Prop :=
  ids_match s ∧ name_index_complete s ∧ RoomState.departed_ s = "".

Definition sound_departing `{!Externals} (s : RoomState.t) : Prop :=
  ids_match s ∧ name_index_complete s
  ∧ (RoomState.departed_ s = ""
     ∨ is_Some (RoomState.members_by_id_ s !! RoomState.departed_ s)).

(** What [update_membership] does to the members: nothing; or it overwrites
    the record of [user], with a displayable membership, or marking [user]
    as departed. *)
Definition members_after (s : RoomState.t) (user : UserID) (s' : RoomState.t) : Prop :=
  (RoomState.members_by_id_ s' = RoomState.members_by_id_ s
   ∧ RoomState.departed_ s' = RoomState.departed_ s)
  ∨ ∃ m', RoomState.members_by_id_ s' = <[user := m']> (RoomState.members_by_id_ s)
          ∧ ((membership_displayable (Member.membership m') = true
              ∧ RoomState.departed_ s' = RoomState.departed_ s)
             ∨ RoomState.departed_ s' = user).

(** A member event names its subject. *)
Definition names_subject (evt : proto.Event) : Prop :=
  proto.type evt = "m.room.member" → proto.state_key evt ≠ "".

(** Every stored member has a displayable membership. *)
Definition all_displayable (s : RoomState.t) : Prop :=
  ∀ u m, RoomState.members_by_id_ s !! u = Some m →
         membership_displayable (Member.membership m) = true.

(** The room metadata of two states agree. *)
Definition same_metadata (s s' : RoomState.t) : Prop :=
  RoomState.name_ s' = RoomState.name_ s
  ∧ RoomState.canonical_alias_ s' = RoomState.canonical_alias_ s
  ∧ RoomState.topic_ s' = RoomState.topic_ s
  ∧ RoomState.avatar_ s' = RoomState.avatar_ s
  ∧ RoomState.aliases_ s' = RoomState.aliases_ s.





(** A completion that is not a retry: a permanent failure (a 4xx status
    other than 429, with its error message) or a success. *)
Definition completed (reply : Response) : Prop :=
  ((400 <= response_code reply < 500)%Z ∧ response_code reply ≠ 429%Z
   ∧ ∃ msg, response_error reply = Some msg)
  ∨ (¬ ((400 <= response_code reply < 500)%Z ∧ response_code reply ≠ 429%Z)
     ∧ response_error reply = None).

(** The delay of the [k]-th retry in seconds as the specification gives it,
    [min(5 * 1.25^(k-1), 30)], and a delay of whole milliseconds in
    seconds. *)
Definition specified_retry_delay (k : nat) : Q :=
  Qmin (5 * (5 # 4) ^ (Z.of_nat k - 1)) 30.

Definition seconds_of_msec (msec : Z) : Q := inject_Z msec / 1000.

(** ** Notions of the further properties *)

(** The method has no effect outside the object. *)
Definition silent {S A} (m : St S A) : Prop := ∀ s, (m s).2 = [].

(** The method leaves the object as it is, however it ends. *)
Definition stateless {S A} (m : St S A) : Prop := ∀ s, (m s).1.2 = s.

(** Whenever [m1] returns, [m2] returns the same value and leaves the same
    object: the two differ at most in their effects and in the abnormal
    stops of [m1]. *)
Definition refines {S A} (m1 m2 : St S A) : Prop :=
  ∀ s a s' out, m1 s = (Ok a, s', out) → ∃ out', m2 s = (Ok a, s', out').

(** The method leaves a part of the object as it is, however it ends. *)
Definition keeps {S T A} (proj : S → T) (m : St S A) : Prop :=
  ∀ s, proj (m s).1.2 = proj s.

(** The membership that [update_membership] reads from the content of a
    member event; empty content arises when moving backwards from an
    initial event and stands for a leave. *)
Definition membership_of (content : QJsonObject) : option Membership :=
  if Json.empty content then Some LEAVE
  else parse_membership (Json.toString (Json.value content "membership")).


(** The previous content of a metadata event records the value that the
    state holds before the event. *)
Definition records_state `{!Externals} (s : RoomState.t) (evt : proto.Event) : Prop :=
  (proto.type evt = "m.room.canonical_alias" →
   RoomState.prev_string evt "alias" = RoomState.canonical_alias_ s)
  ∧ (proto.type evt = "m.room.name" → RoomState.prev_string evt "name" = RoomState.name_ s)
  ∧ (proto.type evt = "m.room.topic" → RoomState.prev_string evt "topic" = RoomState.topic_ s)
  ∧ (proto.type evt = "m.room.avatar" →
     match proto.unsigned_prev_content evt with
     | Some prev => QUrl_parse (Json.toString (Json.value prev "url"))
     | None => ""
     end = RoomState.avatar_ s).

(** The types of the events that [RoomState::revert] undoes by a value. *)
Definition metadata_type (type : QString) : Prop :=
  type = "m.room.canonical_alias" ∨ type = "m.room.name"
  ∨ type = "m.room.topic" ∨ type = "m.room.avatar".

(** The membership is one that takes part in the room: a join or an
    invitation. *)
Definition joining (content : QJsonObject) : Prop :=
  membership_of content = Some JOIN ∨ membership_of content = Some INVITE.

(** The member that [ensure_member] stores for a departed user it does not
    know: the record from the previous content, when the event has one,
    updated from the content. *)
Definition departed_member `{!Externals} (e : proto.Event) : Member.t :=
  Member.update_membership
    (match proto.unsigned_prev_content e with
     | Some prev => Member.update_membership (Member.of_id (proto.state_key e)) prev
     | None => Member.of_id (proto.state_key e)
     end)
    (proto.content e).

(** No member of the list has an id below that of [m], which is in the
    list. *)
Definition least_id (m : Member.t) (ms : list Member.t) : Prop :=
  m ∈ ms ∧ ∀ x, x ∈ ms → RoomState.id_lt x m = false.

(** The two receipt maps agree: the users listed under an event are those
    whose receipt is for that event, each of them once. *)
Definition receipts_consistent (r : Room.t) : Prop :=
  (∀ u e, u ∈ Room.receipts_for r e
          ↔ ∃ rc, Room.receipt_from r u = Some rc ∧ receipt_event rc = e)
  ∧ (∀ e vec, Room.receipts_by_event_ r !! e = Some vec → NoDup vec).

(** The method keeps a property of the object, however it ends. *)
Definition preserves {S A} (P : S → Prop) (m : St S A) : Prop :=
  ∀ s, P s → P (m s).1.2.

(** The batch with the events appended. *)
Definition push_events (events : list proto.Event) (batch : TimelineBatch) : TimelineBatch :=
  {| batch_prev_batch := batch_prev_batch batch;
     batch_events := batch_events batch ++ events |}.

(** All buffered events, oldest first. *)
Definition buffered (buffer : list TimelineBatch) : list proto.Event :=
  concat (map batch_events buffer).

(** Only the first batch of the buffer can be empty. *)
Definition later_batches_nonempty (buffer : list TimelineBatch) : Prop :=
  Forall (fun batch => batch_events batch ≠ []) (tail buffer).

(** The batches after the first hold fewer events than the session lets a
    room buffer: the condition on which the eviction loop stops. *)
Definition window_bound (r : Room.t) : Prop :=
  match Room.buffer_ r with
  | [] => True
  | front :: _ =>
      (Room.buffer_size r - length (batch_events front)
       < Session.buffer_size (Room.session_ r))%nat
  end.

(** The current state is the initial state followed by the buffered
    events. *)
Definition coherent `{!Externals} (r : Room.t) : Prop :=
  ingest None false (buffered (Room.buffer_ r)) (Room.initial_state_ r)
  = (Ok tt, Room.state_ r, []).

(** The part of [Room::dispatch] that files the timeline of the delta in
    the buffer, from the room as the head of the method leaves it. *)
Definition file_timeline `{!Externals} (timeline : proto.Timeline) (r : Room.t)
    : Room.M bool :=
  if bool_decide (proto.events timeline = []) && negb (bool_decide (Room.buffer_ r = [])) then
    modify (Room.set_buffer
              (Room.on_back (fun batch => {| batch_prev_batch := proto.prev_batch timeline;
                                             batch_events := batch_events batch |})
                            (Room.buffer_ r)));;
    mret false
  else
    modify (Room.set_buffer
              (Room.buffer_ r ++ [{| batch_prev_batch := proto.prev_batch timeline;
                                     batch_events := [] |}]));;
    touched ← Room.dispatch_timeline_events (proto.events timeline) false;
    r ← get;
    Room.evict (length (Room.buffer_ r));;
    mret touched.

(** The batch that a delta adds to the buffer. *)
Definition batch_of (timeline : proto.Timeline) : TimelineBatch :=
  {| batch_prev_batch := proto.prev_batch timeline;
     batch_events := proto.events timeline |}.

(** The buffer when the head of [Room::dispatch] is through: a limited
    timeline clears it. *)
Definition buffer_kept (timeline : proto.Timeline) (r : Room.t) : list TimelineBatch :=
  if proto.limited timeline then [] else Room.buffer_ r.

(** Two rooms with the same window: the buffer, both states, the session
    and the id. *)
Definition same_window (r r' : Room.t) : Prop :=
  Room.buffer_ r' = Room.buffer_ r
  ∧ Room.state_ r' = Room.state_ r
  ∧ Room.initial_state_ r' = Room.initial_state_ r
  ∧ Room.session_ r' = Room.session_ r
  ∧ Room.id_ r' = Room.id_ r.

(** The exception on which [sender_run] stops, if it does. *)
Fixpoint sender_outcome `{!Externals} (inputs : list SenderInput) (r : Room.t) : option Exn :=
  match inputs with
  | [] => None
  | i :: inputs' =>
      if sender_enabled i r then
        match sender_step i r with
        | (Ok _, r', _) => sender_outcome inputs' r'
        | (Raise e, _, _) => Some e
        end
      else sender_outcome inputs' r
  end.

(** The back-off is between its floor and its cap. *)
Definition backoff_in_range (r : Room.t) : Prop :=
  (MINIMUM_BACKOFF ≤ Room.retry_backoff_ r ≤ MAXIMUM_BACKOFF)%Z.



(** Both states of a room are sound. *)
Definition sound_room `{!Externals} (r : Room.t) : Prop :=
  sound (Room.state_ r) ∧ sound (Room.initial_state_ r).

Definition is_typing_event (e : proto.Event) : bool :=
  bool_decide (proto.type e = "m.typing").

(** The users that an [m.typing] event lists. *)
Definition typing_users (e : proto.Event) : list UserID :=
  map Json.toString (Json.toArray (Json.value (proto.content e) "user_ids")).

(** ** A concrete choice of the translations, and members for the examples *)

(** The character that opens a place marker. *)
Definition percent : Ascii.ascii := Ascii.ascii_of_nat 37.

(** [QString::arg] on a text whose place markers are "%1" to "%9": every
    occurrence of the marker with the lowest number is replaced. *)
Definition marker_digit (a : Ascii.ascii) : option nat :=
  let n := Ascii.nat_of_ascii a in
  if (49 <=? n)%nat && (n <=? 57)%nat then Some (n - 48)%nat else None.

Fixpoint lowest_marker (s : string) : option nat :=
  match s with
  | EmptyString => None
  | String c s' =>
      let rest := lowest_marker s' in
      if Ascii.eqb c percent then
        match s' with
        | String d _ =>
            match marker_digit d with
            | Some n => Some (match rest with Some m => Nat.min n m | None => n end)
            | None => rest
            end
        | EmptyString => rest
        end
      else rest
  end.

Fixpoint replace_marker (n : nat) (a : string) (s : string) : string :=
  match s with
  | EmptyString => EmptyString
  | String c s' =>
      match s' with
      | String d s'' =>
          if Ascii.eqb c percent && bool_decide (marker_digit d = Some n)
          then a +:+ replace_marker n a s''
          else String c (replace_marker n a s')
      | EmptyString => String c EmptyString
      end
  end.

Definition ascii_arg (s a : string) : string :=
  match lowest_marker s with
  | Some n => replace_marker n a s
  | None => s
  end.

(** The source texts untranslated. *)
Definition ascii_translations : Translations := {|
  QObject_tr := fun s => s;
  arg := ascii_arg;
  arg_size := fun s n => ascii_arg s (pretty n);
|}.

(** Three members, two of them with the same display name. *)
Definition three_members : list proto.Event :=
  [join_event "@c:x" "Sam"; join_event "@a:x" "Sam"; join_event "@b:x" "Kim"].

(** ** Lemmas about the methods *)

Lemma isEmpty_false (s : QString) : s ≠ "" → isEmpty s = false.
Proof. intros H. unfold isEmpty. by rewrite bool_decide_eq_false_2. Qed.

Lemma isEmpty_true_iff (s : QString) : isEmpty s = true ↔ s = "".
Proof. unfold isEmpty. apply bool_decide_eq_true. Qed.

Ltac st_unfold :=
  unfold mbind, mret, St_bind, St_ret, bind, ret, get, modify, raise, tell, lift,
    when, emit, assert, on_field in *.

(** ** Unread events *)

Section HasUnread.
Variables (own : UserID) (rc : Receipt).






End HasUnread.


(** ** The checked lookup of [member_disambiguation] *)

Section Disambiguation.
Context `{!Externals}.

Lemma member_disambiguation_named (s : RoomState.t) (m : Member.t) :
  Member.display_name m ≠ "" →
  RoomState.member_disambiguation s m =
    match RoomState.members_by_displayname_ s !! normalized (Member.display_name m) with
    | Some vec =>
        Ok (if bool_decide (1 < length vec)%nat
               || bool_decide (is_Some (RoomState.members_by_id_ s !! Member.display_name m))
            then Member.id m else "")
    | None => Raise out_of_range
    end.
Proof.
  intros Hne. unfold RoomState.member_disambiguation, RoomState.members_named,
    RoomState.members_by_displayname_at, RoomState.member_from_id.
  rewrite isEmpty_false by done.
  destruct (RoomState.members_by_displayname_ s !! _); [|done].
  by destruct (_ || _).
Qed.

(** C10. For a member with a display name, [member_disambiguation] looks
    the normalised name up with [at]: it returns a string exactly when the
    bucket of that name exists and raises [std::out_of_range] when it does
    not; under the name-index invariant the bucket of a displayable member
    stored in [members_by_id_] exists, so the lookup cannot fail for it. *)
Theorem member_disambiguation_checked_lookup (s : RoomState.t) (m : Member.t) :
  Member.display_name m ≠ "" →
  (is_Some (RoomState.members_by_displayname_ s !! normalized (Member.display_name m))
   ↔ ∃ d, RoomState.member_disambiguation s m = Ok d)
  ∧ (RoomState.members_by_displayname_ s !! normalized (Member.display_name m) = None
     ↔ RoomState.member_disambiguation s m = Raise out_of_range)
  ∧ (name_index_consistent s →
     RoomState.members_by_id_ s !! Member.id m = Some m →
     membership_displayable (Member.membership m) = true →
     ∃ d, RoomState.member_disambiguation s m = Ok d).
Proof.
  intros Hne. rewrite member_disambiguation_named by done.
  destruct (RoomState.members_by_displayname_ s !! _) as [vec|] eqn:Hvec.
  - split; [|split].
    + split; [eauto|]. by eexists.
    + split; done.
    + eauto.
  - split; [|split].
    + split; [by intros [? ?]|by intros [? ?]].
    + done.
    + intros [Hidx _] Hm Hd.
      destruct (proj2 (Hidx (normalized (Member.display_name m)) (Member.id m)))
        as (vec & Hvec' & _); [|congruence].
      split; [by exists m|by exists m].
Qed.
End Disambiguation.

Section DisambiguationExamples.
#[local] Existing Instance ascii_externals.

(** After Alice joined as "Sam" her bucket exists, and her disambiguation is
    the empty string. *)
Lemma member_disambiguation_checked_lookup_witness :
  let s := state_after [join_event "@a:x" "Sam"] in
  let alice := Member.mk "@a:x" "Sam" "" JOIN in
  RoomState.members_by_displayname_ s !! "Sam" = Some ["@a:x"]
  ∧ RoomState.member_disambiguation s alice = Ok "".
Proof.
  intros s alice. split; [by vm_compute|].
  destruct (member_disambiguation_checked_lookup s alice) as (Hsome & _ & _); [discriminate|].
  destruct (proj1 Hsome) as [d Hd]; [vm_compute; by eexists|].
  rewrite Hd. f_equal. vm_compute in Hd. by injection Hd as <-.
Defined.

(** A member that left and was pruned is not in the index any more: asking
    for its disambiguation raises. *)
Example member_disambiguation_of_pruned_member :
  let s := state_after [join_event "@a:x" "Sam"; leave_event "@a:x"] in
  RoomState.members_by_id_ s !! "@a:x" = None
  ∧ RoomState.member_disambiguation s (Member.mk "@a:x" "Sam" "" LEAVE) = Raise out_of_range.
Proof. split; by vm_compute. Qed.
End DisambiguationExamples.

(** ** What a method returns *)

Lemma returns_ret {S A} (a : A) (P : A → Prop) : P a → returns (S := S) (mret a) P.
Proof. intros HP s a' s' out H. st_unfold. by simplify_eq. Qed.

Lemma returns_bind {S A B} (m : St S A) (f : A → St S B) (P : B → Prop) :
  (∀ a, returns (f a) P) → returns (m ≫= f) P.
Proof.
  intros Hf s b s' out H. st_unfold.
  destruct (m s) as [[[a|e] s1] out1]; [|done].
  destruct (f a s1) as [[r s2] out2] eqn:Hfa. simplify_eq.
  by eapply Hf.
Qed.

Section Dispatch.
Context `{!Externals}.

Lemma update_membership_returns_true user_id content room member_db membership :
  (if Json.empty content then Some LEAVE
   else parse_membership (Json.toString (Json.value content "membership")))
    = Some membership →
  returns (RoomState.update_membership user_id content room member_db) (fun b => b = true).
Proof.
  intros Hm. unfold RoomState.update_membership. rewrite Hm.
  destruct membership; repeat (apply returns_bind; intros ?); by apply returns_ret.
Qed.

Lemma update_membership_unrecognized user_id content room member_db s :
  (if Json.empty content then Some LEAVE
   else parse_membership (Json.toString (Json.value content "membership")))
    = None →
  RoomState.update_membership user_id content room member_db s = (Ok false, s, []).
Proof. intros Hm. unfold RoomState.update_membership. by rewrite Hm. Qed.

Lemma dispatch_untouched (evt : proto.Event) room member_db s :
  touches_state evt = false →
  RoomState.dispatch evt room member_db s = (Ok false, s, []).
Proof.
  unfold touches_state, RoomState.dispatch.
  repeat (case_bool_decide; [done|]).
  case_bool_decide; [|done].
  intros Hp. apply update_membership_unrecognized.
  apply orb_false_iff in Hp as [He Hp]. rewrite He.
  apply bool_decide_eq_false in Hp.
  destruct (parse_membership _); [|done]. by destruct Hp.
Qed.

(** C2, as the code has it.  [RoomState::dispatch] returns [true] for
    every event of a type that it applies to the snapshot (aliases,
    canonical alias, name, topic, avatar, and a member event whose
    membership is recognised), whether or not the event changes a value,
    and [false] for every other event; when it returns [false] the
    snapshot is unchanged.  It can stop abnormally on a member event
    only. *)
Theorem dispatch_result (evt : proto.Event) (room : option RoomPtr) (member_db : bool)
    (s : RoomState.t) :
  match RoomState.dispatch evt room member_db s with
  | (Ok b, s', _) => b = touches_state evt ∧ (b = true ∨ s' = s)
  | (Raise _, _, _) => proto.type evt = "m.room.member"
  end.
Proof.
  destruct (touches_state evt) eqn:Ht.
  - revert Ht. unfold touches_state, RoomState.dispatch.
    case_bool_decide; [done|].
    repeat (case_bool_decide;
            [intros _; st_unfold; destruct room; simpl; repeat case_bool_decide; simpl; by auto|]).
    case_bool_decide; [done|]. case_bool_decide; [|done]. intros Ht.
    destruct (RoomState.update_membership _ _ _ _ s) as [[[b|e] s'] out] eqn:Hd; [|done].
    enough (b = true) by (subst; auto).
    apply orb_true_iff in Ht.
    destruct (if Json.empty (proto.content evt) then Some LEAVE
              else parse_membership (Json.toString (Json.value (proto.content evt) "membership")))
      as [membership|] eqn:Hm.
    + by eapply update_membership_returns_true.
    + destruct (Json.empty _); [done|]. rewrite Hm in Ht.
      destruct Ht as [?|Ht]; [done|]. apply bool_decide_eq_true in Ht. by destruct Ht.
  - rewrite dispatch_untouched by done. auto.
Qed.
End Dispatch.

Section DispatchExamples.
#[local] Existing Instance ascii_externals.

(** C2, as the claim has it, fails: a name event that repeats the name the
    room already has leaves the snapshot as it is, and [dispatch] returns
    [true]. *)
Lemma dispatch_true_without_change :
  let s := state_after [name_event "Lobby"] in
  RoomState.name_ s = "Lobby"
  ∧ RoomState.dispatch (name_event "Lobby") (Some lobby) true s = (Ok true, s, []).
Proof. split; by vm_compute. Qed.
End DispatchExamples.

(** ** The departure of the own user *)

Lemma emits_left_app (t1 t2 : list Effect) :
  emits_left (t1 ++ t2) = emits_left t1 || emits_left t2.
Proof. apply existsb_app. Qed.

Lemma never_left_ret {S A} (a : A) : never_left (S := S) (mret a).
Proof. by intros s. Qed.

Lemma never_left_bind {S A B} (m : St S A) (f : A → St S B) :
  never_left m → (∀ a, never_left (f a)) → never_left (m ≫= f).
Proof.
  intros Hm Hf s. unfold mbind, St_bind, bind. specialize (Hm s).
  destruct (m s) as [[[a|e] s1] out1]; [|done].
  specialize (Hf a s1). destruct (f a s1) as [[r s2] out2]. simpl in *.
  by rewrite emits_left_app, Hm, Hf.
Qed.

Lemma never_left_tell {S} (e : Effect) :
  emits_left [e] = false → never_left (S := S) (tell e).
Proof. by intros He s. Qed.

Lemma when_tell_bind {S B} (c : bool) (e : Effect) (k : St S B) (s : S) :
  (when c (tell e) ;; k) s
  = (let '(r, s', out) := k s in (r, s', (if c then [e] else []) ++ out)).
Proof.
  unfold mbind, St_bind, bind, when, tell. destruct c; simpl; by destruct (k s) as [[? ?] ?].
Qed.

Ltac never_left :=
  repeat first
    [ apply never_left_ret
    | apply never_left_bind; [|intros ?]
    | apply never_left_tell; reflexivity
    | progress unfold when, emit, assert, RoomState.set_by_id, RoomState.set_by_displayname
    | match goal with
      | |- never_left (if ?b then _ else _) => destruct b
      | |- never_left (match ?x with _ => _ end) => destruct x
      | |- never_left get => intros ?; reflexivity
      | |- never_left (modify _) => intros ?; reflexivity
      | |- never_left (raise _) => intros ?; reflexivity
      | |- never_left (lift _) => intros ?; reflexivity
      | |- never_left (ret _) => intros ?; reflexivity
      end ].

Section Left.
Context `{!Externals}.

Lemma other_member_of_never_left b mxid other :
  never_left (RoomState.other_member_of b mxid other).
Proof. unfold RoomState.other_member_of. never_left. Qed.

Lemma forget_displayname_never_left id old room :
  never_left (RoomState.forget_displayname id old room).
Proof.
  unfold RoomState.forget_displayname.
  pose proof other_member_of_never_left. never_left; done.
Qed.

Lemma record_displayname_never_left id name room :
  never_left (RoomState.record_displayname id name room).
Proof.
  unfold RoomState.record_displayname.
  pose proof other_member_of_never_left. never_left; done.
Qed.

(** [update_membership] emits [left] exactly for a leave or ban whose
    subject is the id of the room behind the callbacks. *)
Lemma update_membership_emits_left (user_id : QString) (content : list (QString * QJsonValue))
    (room : option RoomPtr) (member_db : bool) (s : RoomState.t) :
  emits_left (RoomState.update_membership user_id content room member_db s).2
  = match (if Json.empty content then Some LEAVE
           else parse_membership (Json.toString (Json.value content "membership"))), room with
    | Some (LEAVE | BAN), Some r => bool_decide (user_id = room_id r)
    | _, _ => false
    end.
Proof.
  unfold RoomState.update_membership.
  pose proof forget_displayname_never_left. pose proof record_displayname_never_left.
  destruct (if Json.empty content then _ else _) as [membership|]; [|done].
  destruct membership.
  1,2: (match goal with |- emits_left (?m _).2 = _ =>
          enough (never_left m) as Hq by (rewrite Hq; by destruct room)
        end; never_left; done).
  all: rewrite when_tell_bind;
    match goal with |- context [(?m ≫= ?f) ?st] =>
      assert (never_left (m ≫= f)) as Hq by (never_left; done);
      specialize (Hq st); destruct ((m ≫= f) st) as [[res s2] out2]
    end; simpl in *; rewrite emits_left_app, Hq, orb_false_r;
    destruct room as [r|]; [by case_bool_decide|done].
Qed.
End Left.

Section LeftExamples.
#[local] Existing Instance ascii_externals.

(** C3 fails on the code: [update_membership] compares the subject of the
    event with the id of the room, not with the id of the own user.  In the
    room "!lobby:x" of the user "@me:x", the leave of "@me:x" emits no
    [left], and a leave whose state key is the id of the room emits it. *)
Theorem left_compares_with_room_id :
  let r := room_after [delta [join_event "@me:x" "Me"]] in
  Session.user_id (Room.session_ r) = "@me:x"
  ∧ Room.id_ r = "!lobby:x"
  ∧ (∃ r' out, Room.dispatch (delta [leave_event "@me:x"]) r = (Ok true, r', out)
               ∧ emits_left out = false)
  ∧ (∃ r' out, Room.dispatch (delta [leave_event "!lobby:x"]) r = (Ok true, r', out)
               ∧ emits_left out = true).
Proof.
  split; [by vm_compute|]. split; [by vm_compute|].
  split; do 2 eexists; (split; [by vm_compute|]); by vm_compute.
Qed.
End LeftExamples.

(** ** Sequencing *)

Lemma bind_Ok {S A B} (m : St S A) (f : A → St S B) (s s1 : S) (a : A) (out1 : list Effect) :
  m s = (Ok a, s1, out1) →
  (m ≫= f) s = (let '(r, s2, out2) := f a s1 in (r, s2, out1 ++ out2)).
Proof. intros Hm. unfold mbind, St_bind, bind. rewrite Hm. by destruct (f a s1) as [[? ?] ?]. Qed.

Lemma bind_quiet {S A B} (m : St S A) (f : A → St S B) (s s1 : S) (a : A) :
  m s = (Ok a, s1, []) → (m ≫= f) s = f a s1.
Proof. intros Hm. rewrite (bind_Ok _ _ _ _ _ _ Hm). by destruct (f a s1) as [[? ?] ?]. Qed.

Lemma bind_ext {S A B} (m : St S A) (f g : A → St S B) (s : S) :
  (∀ a s', f a s' = g a s') → (m ≫= f) s = (m ≫= g) s.
Proof.
  intros Hfg. unfold mbind, St_bind, bind.
  destruct (m s) as [[[a|e] s1] out1]; [|done]. by rewrite Hfg.
Qed.

Lemma bind_ret_tt {S} (m : St S unit) (s : S) : (m ;; mret tt) s = m s.
Proof.
  unfold mbind, mret, St_bind, St_ret, bind, ret.
  destruct (m s) as [[[[]|e] s1] out1]; [|done]. by rewrite app_nil_r.
Qed.

(** ** The display-name index without callbacks *)

Section Index.
Context `{!Externals}.

Lemma filter_ne_length (vec : list UserID) (id : UserID) :
  NoDup vec → id ∈ vec →
  (length vec - length (filter (fun x => x ≠ id) vec) = 1)%nat.
Proof.
  induction vec as [|x vec IH]; intros Hnd Hin; [by apply elem_of_nil in Hin|].
  apply NoDup_cons in Hnd as [Hx Hnd].
  rewrite filter_cons. destruct (decide (x ≠ id)) as [Hne|Heq].
  - apply elem_of_cons in Hin as [->|Hin]; [done|].
    specialize (IH Hnd Hin). simpl.
    pose proof (length_filter (fun x => x ≠ id) vec). lia.
  - apply dec_stable in Heq. subst x.
    assert (filter (fun x => x ≠ id) vec = vec) as ->.
    { clear IH Hin Hnd. induction vec as [|y vec IH]; [done|].
      rewrite filter_cons. apply not_elem_of_cons in Hx as [Hy Hx].
      rewrite decide_True by done. by rewrite IH. }
    simpl. lia.
Qed.

Lemma filed_under_set_index (s : RoomState.t) idx n u :
  filed_under (RoomState.set_members_by_displayname idx s) n u
  ↔ ∃ vec, idx !! n = Some vec ∧ u ∈ vec.
Proof. done. Qed.

(** Forgetting a name that is filed. *)
Lemma forget_displayname_quiet (s : RoomState.t) (id : UserID) (old : QString)
    (vec : list UserID) :
  old ≠ "" →
  RoomState.members_by_displayname_ s !! normalized old = Some vec →
  NoDup vec → id ∈ vec →
  RoomState.forget_displayname id old None s
  = (Ok tt, RoomState.set_members_by_displayname (forget_index s (normalized old) vec id) s, []).
Proof.
  intros Hold Hvec Hnd Hin.
  pose proof (filter_ne_length vec id Hnd Hin) as Hcount.
  unfold RoomState.forget_displayname. rewrite isEmpty_false by done.
  unfold RoomState.set_by_displayname, RoomState.members_by_displayname_at.
  st_unfold. rewrite Hvec. simpl.
  rewrite bool_decide_eq_true_2 by done. simpl.
  unfold forget_index.
  destruct (bool_decide (filter _ vec = [])); simpl; [|done].
  by rewrite delete_insert_eq.
Qed.

Lemma forget_index_filed (s : RoomState.t) (old_name : QString) (vec : list UserID)
    (id : UserID) (n : QString) (u : UserID) :
  RoomState.members_by_displayname_ s !! old_name = Some vec →
  filed_under (RoomState.set_members_by_displayname (forget_index s old_name vec id) s) n u
  ↔ filed_under s n u ∧ ¬ (n = old_name ∧ u = id).
Proof.
  intros Hvec. rewrite filed_under_set_index. unfold forget_index, filed_under.
  case_bool_decide as Hempty.
  - split.
    + intros (v & Hv & Hu). apply lookup_delete_Some in Hv as [Hne Hv].
      split; [eauto|]. intros [-> _]. done.
    + intros [(v & Hv & Hu) Hnot].
      destruct (decide (n = old_name)) as [->|Hne].
      * rewrite Hvec in Hv. injection Hv as <-.
        destruct (decide (u = id)) as [->|Hu']; [by destruct Hnot|].
        assert (u ∈ filter (fun x => x ≠ id) vec) as Hf by (by apply list_elem_of_filter).
        rewrite Hempty in Hf. by apply elem_of_nil in Hf.
      * exists v. by rewrite lookup_delete_ne.
  - split.
    + intros (v & Hv & Hu). apply lookup_insert_Some in Hv as [[-> <-]|[Hne Hv]].
      * apply list_elem_of_filter in Hu as [Hu Hin]. split; [eauto|]. by intros [_ ->].
      * split; [eauto|]. intros [-> _]. done.
    + intros [(v & Hv & Hu) Hnot].
      destruct (decide (n = old_name)) as [->|Hne].
      * rewrite Hvec in Hv. injection Hv as <-.
        eexists. rewrite lookup_insert_eq. split; [done|].
        apply list_elem_of_filter. split; [|done]. intros ->. by apply Hnot.
      * exists v. by rewrite lookup_insert_ne.
Qed.

Lemma forget_index_tidy (s : RoomState.t) (old_name : QString) (vec : list UserID)
    (id : UserID) :
  RoomState.members_by_displayname_ s !! old_name = Some vec →
  buckets_tidy s →
  buckets_tidy (RoomState.set_members_by_displayname (forget_index s old_name vec id) s).
Proof.
  intros Hvec Htidy n v. simpl. unfold forget_index. case_bool_decide as Hempty.
  - intros [Hne Hv]%lookup_delete_Some. by apply Htidy in Hv.
  - intros [[-> <-]|[Hne Hv]]%lookup_insert_Some; [|by apply Htidy in Hv].
    split; [done|]. apply NoDup_filter. by apply Htidy in Hvec as [_ ?].
Qed.

Lemma record_displayname_quiet (s : RoomState.t) (id : UserID) (name : QString) :
  name ≠ "" →
  ¬ filed_under s (normalized name) id →
  RoomState.record_displayname id name None s
  = (Ok tt, RoomState.set_members_by_displayname (record_index s (normalized name) id) s, []).
Proof.
  intros Hname Hnot.
  unfold RoomState.record_displayname. rewrite isEmpty_false by done.
  unfold RoomState.set_by_displayname. st_unfold. simpl.
  assert (forallb (fun x => bool_decide (x ≠ id))
            (default [] (RoomState.members_by_displayname_ s !! normalized name)) = true) as ->.
  { apply forallb_forall. intros x Hx%list_elem_of_In. apply bool_decide_eq_true. intros ->.
    apply Hnot. destruct (RoomState.members_by_displayname_ s !! normalized name) as [v|] eqn:Hv.
    - by exists v.
    - by apply elem_of_nil in Hx. }
  simpl. unfold record_index. by rewrite insert_insert_eq.
Qed.

Lemma record_index_filed (s : RoomState.t) (name : QString) (id : UserID)
    (n : QString) (u : UserID) :
  filed_under (RoomState.set_members_by_displayname (record_index s name id) s) n u
  ↔ filed_under s n u ∨ (n = name ∧ u = id).
Proof.
  rewrite filed_under_set_index. unfold record_index, filed_under. split.
  - intros (v & Hv & Hu). apply lookup_insert_Some in Hv as [[-> <-]|[Hne Hv]]; [|eauto].
    apply elem_of_app in Hu as [Hu|Hu%list_elem_of_singleton]; [|auto].
    left. destruct (RoomState.members_by_displayname_ s !! n) as [v|]; [eauto|].
    by apply elem_of_nil in Hu.
  - intros [(v & Hv & Hu)|[-> ->]].
    + destruct (decide (n = name)) as [->|Hne].
      * eexists. rewrite lookup_insert_eq. split; [done|]. rewrite Hv. simpl.
        apply elem_of_app. by left.
      * exists v. by rewrite lookup_insert_ne.
    + eexists. rewrite lookup_insert_eq. split; [done|]. apply elem_of_app. right.
      by apply list_elem_of_singleton.
Qed.

Lemma record_index_tidy (s : RoomState.t) (name : QString) (id : UserID) :
  ¬ filed_under s name id →
  buckets_tidy s →
  buckets_tidy (RoomState.set_members_by_displayname (record_index s name id) s).
Proof.
  intros Hnot Htidy n v. simpl. unfold record_index.
  intros [[-> <-]|[Hne Hv]]%lookup_insert_Some; [|by apply Htidy in Hv].
  split; [by destruct (default _ _)|].
  apply NoDup_app. split_and!.
  - destruct (RoomState.members_by_displayname_ s !! n) as [v|] eqn:Hv; simpl.
    + by apply Htidy in Hv as [_ ?].
    + apply NoDup_nil_2.
  - intros x Hx ->%list_elem_of_singleton. apply Hnot.
    destruct (RoomState.members_by_displayname_ s !! n) as [v|] eqn:Hv; simpl in *.
    + by exists v.
    + by apply elem_of_nil in Hx.
  - apply NoDup_singleton.
Qed.
End Index.

Section Sound.
Context `{!Externals}.

Lemma named_same_members s s' n u :
  RoomState.members_by_id_ s' = RoomState.members_by_id_ s → named s' n u ↔ named s n u.
Proof. intros Hm. unfold named. by rewrite Hm. Qed.

Lemma rename_quiet (s : RoomState.t) (user : UserID) (old new : QString) :
  index_tracks s user old →
  ∃ idx, (RoomState.forget_displayname user old None;;
          RoomState.record_displayname user new None) s
         = (Ok tt, RoomState.set_members_by_displayname idx s, [])
         ∧ index_tracks (RoomState.set_members_by_displayname idx s) user new.
Proof.
  intros (Htidy & Huser & Hothers).
  (* forget *)
  assert (∃ idx1, RoomState.forget_displayname user old None s
                  = (Ok tt, RoomState.set_members_by_displayname idx1 s, [])
                  ∧ buckets_tidy (RoomState.set_members_by_displayname idx1 s)
                  ∧ (∀ n u, filed_under (RoomState.set_members_by_displayname idx1 s) n u
                            ↔ filed_under s n u ∧ u ≠ user)) as (idx1 & Hf & Htidy1 & Hfiled1).
  { destruct (decide (old = "")) as [->|Hold].
    - exists (RoomState.members_by_displayname_ s). split; [by destruct s|].
      split; [by destruct s|]. intros n u.
      replace (RoomState.set_members_by_displayname (RoomState.members_by_displayname_ s) s)
        with s by (by destruct s).
      split; [|by intros [? _]]. intros Hu. split; [done|]. intros ->.
      apply Huser in Hu as [? _]. done.
    - destruct (proj2 (Huser (normalized old)) (conj Hold eq_refl)) as (vec & Hvec & Hin).
      destruct (Htidy _ _ Hvec) as [_ Hnd].
      eexists. split; [by apply forget_displayname_quiet|].
      split; [by apply forget_index_tidy|].
      intros n u. rewrite forget_index_filed by done.
      split; intros [Hu Hnot]; (split; [done|]).
      + intros ->. apply Hnot. split; [|done]. by apply Huser in Hu as [_ ?].
      + intros [-> ->]. done. }
  rewrite (bind_quiet _ _ _ _ _ Hf).
  pose (s1 := RoomState.set_members_by_displayname idx1 s).
  fold s1 in Hf, Htidy1, Hfiled1 |- *.
  destruct (decide (new = "")) as [->|Hnew].
  - exists idx1. fold s1. split; [done|]. split; [done|]. split.
    + intros n. rewrite Hfiled1. split; [by intros [_ ?]|by intros [? _]].
    + intros n u Hu. rewrite Hfiled1. rewrite (Hothers n u Hu). 
      rewrite (named_same_members s s1) by done. tauto.
  - assert (¬ filed_under s1 (normalized new) user) as Hnot.
    { rewrite Hfiled1. by intros [_ ?]. }
    exists (record_index s1 (normalized new) user).
    rewrite (record_displayname_quiet s1 user new Hnew Hnot).
    split; [done|].
    change (RoomState.set_members_by_displayname (record_index s1 (normalized new) user) s)
      with (RoomState.set_members_by_displayname (record_index s1 (normalized new) user) s1).
    split; [by apply record_index_tidy|]. split.
    + intros n. rewrite record_index_filed, Hfiled1. split.
      * intros [[_ ?]|[-> _]]; done.
      * intros [_ ->]. by right.
    + intros n u Hu. rewrite record_index_filed, Hfiled1, (Hothers n u Hu).
      rewrite (named_same_members s (RoomState.set_members_by_displayname _ s1)) by done.
      split; [intros [[? _]|[_ ?]]; done|]. intros ?. by left.
Qed.
Lemma member_name_defined (s : RoomState.t) (m : Member.t) :
  (Member.display_name m ≠ "" →
   is_Some (RoomState.members_by_displayname_ s !! normalized (Member.display_name m))) →
  ∃ d, RoomState.member_name s m = Ok d.
Proof.
  intros Hb. unfold RoomState.member_name, RoomState.member_disambiguation,
    RoomState.members_named, RoomState.members_by_displayname_at.
  destruct (isEmpty (Member.display_name m)) eqn:He.
  - repeat case_match; eauto.
  - apply bool_decide_eq_false in He. destruct (Hb He) as [vec ->].
    repeat case_match; eauto.
Qed.

(** The index of a complete state tracks a member under its name, also
    after that member's record was overwritten. *)
Lemma complete_tracks (s : RoomState.t) (user : UserID) (m' : Member.t) :
  name_index_complete s →
  index_tracks
    (RoomState.set_members_by_id (<[user := m']> (RoomState.members_by_id_ s)) s) user
    (Member.display_name (default (Member.of_id user) (RoomState.members_by_id_ s !! user))).
Proof.
  intros [Hc Htidy]. split; [done|]. split.
  - intros n. change (filed_under ?s' n user) with (filed_under s n user).
    rewrite Hc. unfold named.
    destruct (RoomState.members_by_id_ s !! user) as [m|]; simpl.
    + split; [by intros (? & [= <-] & ? & ?)|]. intros [? ->]. by exists m.
    + split; [by intros (? & ? & _)|by intros [? _]].
  - intros n u Hu. change (filed_under ?s' n u) with (filed_under s n u).
    rewrite Hc. unfold named. simpl. by rewrite lookup_insert_ne.
Qed.

Lemma tracks_complete (s : RoomState.t) (user : UserID) (m : Member.t) :
  RoomState.members_by_id_ s !! user = Some m →
  index_tracks s user (Member.display_name m) →
  name_index_complete s.
Proof.
  intros Hm (Htidy & Huser & Hothers). split; [|done].
  intros n u. destruct (decide (u = user)) as [->|Hu]; [|by apply Hothers].
  rewrite Huser. unfold named. rewrite Hm. split.
  - intros [? ->]. by exists m.
  - by intros (? & [= <-] & ? & ?).
Qed.

Lemma update_membership_quiet (s : RoomState.t) (user : UserID) (content : QJsonObject)
    (member_db : bool) :
  sound s →
  ∃ b s' out,
    RoomState.update_membership user content None member_db s = (Ok b, s', out)
    ∧ sound_departing s' ∧ same_metadata s s' ∧ members_after s user s'.
Proof.
  intros (Hids & Hc & Hdep).
  unfold RoomState.update_membership.
  destruct (if Json.empty content then _ else _) as [membership|] eqn:Hmem.
  2:{ exists false, s, []. split; [done|]. split; [|split; [done|by left]].
      split; [done|]. split; [done|]. by left. }
  set (member := default (Member.of_id user) (RoomState.members_by_id_ s !! user)).
  set (member' := Member.update_membership member content).
  assert (Member.id member' = user) as Hid'.
  { subst member' member. simpl. destruct (RoomState.members_by_id_ s !! user) eqn:Hm; simpl.
    - by apply Hids.
    - done. }
  pose (s2 := RoomState.set_members_by_id (<[user := member']> (RoomState.members_by_id_ s)) s).
  pose proof (complete_tracks s user member' Hc) as Htracks. fold member s2 in Htracks.
  (* the rename, when it happens *)
  assert (∃ idx,
    (if bool_decide (Member.display_name member' ≠ Member.display_name member)
     then RoomState.forget_displayname (Member.id member') (Member.display_name member) None;;
          RoomState.record_displayname (Member.id member') (Member.display_name member') None
     else mret tt) s2 = (Ok tt, RoomState.set_members_by_displayname idx s2, [])
    ∧ name_index_complete (RoomState.set_members_by_displayname idx s2))
    as (idx & Hrename & Hc3).
  { case_bool_decide as Hname.
    - rewrite Hid'. destruct (rename_quiet s2 user _ (Member.display_name member') Htracks)
        as (idx & Hr & Ht).
      exists idx. split; [done|]. eapply tracks_complete; [|done].
      simpl. by rewrite lookup_insert_eq.
    - exists (RoomState.members_by_displayname_ s2).
      replace (RoomState.set_members_by_displayname (RoomState.members_by_displayname_ s2) s2)
        with s2 by done.
      split; [done|]. eapply tracks_complete; [|by rewrite Hname].
      simpl. by rewrite lookup_insert_eq. }
  assert (ids_match (RoomState.set_members_by_displayname idx s2)) as Hids3.
  { intros u m. simpl. intros [[<- <-]|[Hne Hm]]%lookup_insert_Some; [done|by apply Hids]. }
  assert (Hblock : ∀ (b : bool) (sig : Signal.t),
    (if bool_decide (Member.display_name member' ≠ Member.display_name member)
     then RoomState.forget_displayname (Member.id member') (Member.display_name member) None;;
          RoomState.record_displayname (Member.id member') (Member.display_name member') None;;
          when (bool_decide (is_Some (@None RoomPtr)) && b) (tell (Emit sig))
     else mret tt) s2 = (Ok tt, RoomState.set_members_by_displayname idx s2, [])).
  { intros b sig. rewrite <- Hrename. case_bool_decide; [|done].
    apply bind_ext. intros [] s'. simpl. apply bind_ret_tt. }
  assert (∃ d, RoomState.member_name
                 (RoomState.set_members_by_id (<[user := member]> (RoomState.members_by_id_ s)) s)
                 member = Ok d) as [d Hd].
  { apply member_name_defined. intros Hne. simpl.
    destruct Hc as [Hc _].
    destruct (proj2 (Hc (normalized (Member.display_name member)) user)) as (vec & -> & _); [|done].
    subst member. destruct (RoomState.members_by_id_ s !! user) as [m|] eqn:Hm; [|done].
    by exists m. }
  assert (sound_departing (RoomState.set_members_by_displayname idx s2)) as Hsound3.
  { split; [done|]. split; [done|]. by left. }
  assert (membership_displayable membership = true →
          members_after s user (RoomState.set_members_by_displayname idx s2)) as Hjoin.
  { intros Hdisp. right. exists member'. split; [done|]. left. split; [|done].
    subst member'. unfold Member.update_membership. simpl.
    destruct (Json.empty content); [by simplify_eq|]. by rewrite Hmem. }
  clear Hmem.
  destruct membership.
  1,2: (destruct member_db; do 3 eexists;
        (split; [|split; [exact Hsound3|split; [done|by apply Hjoin]]]);
        erewrite bind_quiet by reflexivity;
        erewrite bind_quiet by reflexivity;
        erewrite bind_quiet by (unfold lift; fold member; rewrite Hd; reflexivity);
        erewrite bind_quiet by reflexivity;
        match goal with |- (_ ≫= _) ?st = _ =>
          replace st with s2
            by (subst s2; unfold RoomState.set_members_by_id; simpl; by rewrite insert_insert_eq)
        end;
        erewrite bind_quiet by apply Hblock;
        erewrite bind_quiet by reflexivity;
        reflexivity).
  all: destruct member_db; subst member' member s2;
    (destruct (RoomState.members_by_id_ s !! user) as [m|] eqn:Hm; simpl in *);
    do 3 eexists;
    (split;
     [erewrite bind_quiet by reflexivity;
      erewrite bind_quiet by reflexivity;
      rewrite Hm;
      first
        [erewrite bind_Ok;
         [|erewrite bind_quiet by reflexivity;
           erewrite bind_quiet by exact Hrename;
           erewrite bind_quiet by reflexivity;
           erewrite bind_quiet by reflexivity;
           erewrite bind_quiet by (simpl; rewrite Hdep; reflexivity);
           reflexivity]
        |erewrite bind_quiet by reflexivity];
      (erewrite bind_Ok by reflexivity); simpl; reflexivity
     |split; [|split; [done|]]]).
  all: first
    [ by left
    | right; eexists; (split; [reflexivity|]); right; simpl; exact Hid'
    | split; [done|split; [done|by left]]
    | split; [exact Hids3|]; split; [exact Hc3|]; right; simpl;
      rewrite Hid', lookup_insert_eq; by eexists ].
Qed.
Lemma dispatch_quiet (evt : proto.Event) (member_db : bool) (s : RoomState.t) :
  sound s →
  ∃ b s' out,
    RoomState.dispatch evt None member_db s = (Ok b, s', out) ∧ sound_departing s'
    ∧ members_after s (proto.state_key evt) s'
    ∧ (proto.type evt ≠ "m.room.member" →
       RoomState.members_by_id_ s' = RoomState.members_by_id_ s
       ∧ RoomState.departed_ s' = RoomState.departed_ s).
Proof.
  intros Hs.
  assert (sound_departing s) as Hsd.
  { destruct Hs as (? & ? & ?). split; [done|]. split; [done|]. by left. }
  unfold RoomState.dispatch.
  repeat (case_bool_decide;
          [st_unfold; simpl; repeat case_bool_decide; do 3 eexists;
           (split; [reflexivity|split; [exact Hsd|split; [by left|done]]])|]).
  case_bool_decide.
  - destruct (update_membership_quiet s (proto.state_key evt) (proto.content evt) member_db Hs)
      as (b & s' & out & Hu & Hs' & _ & Hafter).
    exists b, s', out. split; [done|]. split; [done|]. split; [done|]. done.
  - do 3 eexists. split; [reflexivity|split; [exact Hsd|split; [by left|done]]].
Qed.

Lemma prune_departed_quiet (s : RoomState.t) :
  sound_departing s →
  ∃ s', RoomState.prune_departed None s = (Ok tt, s', []) ∧ sound s' ∧ same_metadata s s'
        ∧ RoomState.members_by_id_ s'
          = if isEmpty (RoomState.departed_ s) then RoomState.members_by_id_ s
            else delete (RoomState.departed_ s) (RoomState.members_by_id_ s).
Proof.
  intros (Hids & Hc & Hdep). unfold RoomState.prune_departed.
  erewrite bind_quiet by reflexivity.
  destruct (isEmpty (RoomState.departed_ s)) eqn:He; simpl.
  { apply isEmpty_true_iff in He. exists s. done. }
  apply bool_decide_eq_false in He. destruct Hdep as [?|[m Hm]]; [done|].
  erewrite bind_quiet by (unfold lift, RoomState.members_by_id_at; rewrite Hm; reflexivity).
  pose proof (complete_tracks s (RoomState.departed_ s) m Hc) as Htracks.
  rewrite Hm, insert_id in Htracks by done. simpl in Htracks.
  replace (RoomState.set_members_by_id (RoomState.members_by_id_ s) s) with s in Htracks
    by (by destruct s).
  destruct (rename_quiet s _ _ "" Htracks) as (idx & Hf & Htidy & Huser & Hothers).
  change (RoomState.record_displayname (RoomState.departed_ s) "" None) with (@mret (St RoomState.t) _ _ tt) in Hf.
  rewrite bind_ret_tt in Hf.
  erewrite bind_quiet by exact Hf.
  eexists. split; [reflexivity|]. split; [|done].
  split; [|split; [|done]].
  - intros u m'. simpl. intros [Hne Hm']%lookup_delete_Some. by apply Hids.
  - split; [|done]. intros n u. change (filed_under ?s' n u) with
      (filed_under (RoomState.set_members_by_displayname idx s) n u).
    destruct (decide (u = RoomState.departed_ s)) as [->|Hu].
    + rewrite Huser. unfold named. simpl. rewrite lookup_delete_eq.
      split; [by intros [? _]|by intros (? & ? & _)].
    + rewrite (Hothers n u Hu). unfold named. simpl. by rewrite lookup_delete_ne.
Qed.

(** Without the callbacks of a room the ingestion of a state event never
    stops abnormally and keeps the index complete. *)
Lemma ingest_event_quiet (member_db : bool) (evt : proto.Event) (s : RoomState.t) :
  sound s →
  ∃ s' out, ingest_event None member_db evt s = (Ok tt, s', out) ∧ sound s'.
Proof.
  intros Hs. unfold ingest_event.
  destruct (dispatch_quiet evt member_db s Hs) as (b & s1 & out & Hd & Hs1 & _).
  destruct (prune_departed_quiet s1 Hs1) as (s2 & Hp & Hs2 & _).
  rewrite (bind_Ok _ _ _ _ _ _ Hd), Hp. rewrite app_nil_r. eauto.
Qed.

Lemma ingest_event_quiet_displayable (member_db : bool) (evt : proto.Event) (s : RoomState.t) :
  sound s → all_displayable s → names_subject evt →
  ∃ s' out, ingest_event None member_db evt s = (Ok tt, s', out)
            ∧ sound s' ∧ all_displayable s'.
Proof.
  intros Hs Hall Hsubject. unfold ingest_event.
  destruct (dispatch_quiet evt member_db s Hs) as (b & s1 & out & Hd & Hs1 & Hafter & Hother).
  destruct (prune_departed_quiet s1 Hs1) as (s2 & Hp & Hs2 & _ & Hmembers).
  rewrite (bind_Ok _ _ _ _ _ _ Hd), Hp. rewrite app_nil_r.
  exists s2, out. split; [done|]. split; [done|].
  destruct Hs as (_ & _ & Hdep).
  assert (RoomState.members_by_id_ s1 = RoomState.members_by_id_ s
          ∧ RoomState.departed_ s1 = RoomState.departed_ s
          → all_displayable s2) as Hsame.
  { intros [Hm1 Hd1]. rewrite Hd1, Hdep in Hmembers. simpl in Hmembers.
    intros u m. rewrite Hmembers, Hm1. apply Hall. }
  destruct (decide (proto.type evt = "m.room.member")) as [Hty|Hty]; [|by auto].
  destruct Hafter as [?|(m' & Hm1 & [[Hdisp Hd1]|Hd1])]; [by auto| |].
  - rewrite Hd1, Hdep in Hmembers. simpl in Hmembers.
    intros u m. rewrite Hmembers, Hm1.
    intros [[<- <-]|[_ Hm]]%lookup_insert_Some; [done|by eapply Hall].
  - rewrite Hd1, (isEmpty_false _ (Hsubject Hty)) in Hmembers.
    intros u m. rewrite Hmembers, Hm1, delete_insert_eq.
    intros [_ Hm]%lookup_delete_Some. by eapply Hall.
Qed.

(** A complete index whose members are all displayable is the consistent
    index of the specification. *)
Lemma complete_displayable_consistent (s : RoomState.t) :
  name_index_complete s → all_displayable s → name_index_consistent s.
Proof.
  intros [Hc Htidy] Hall. split; [|done]. intros n u. rewrite Hc. split; [|by intros [? _]].
  intros Hn. split; [done|]. destruct Hn as (m & Hm & _). exists m. split; [done|].
  by eapply Hall.
Qed.

(** Without the callbacks of a room, from the empty state, the ingestion
    loop never stops abnormally and the name index is consistent after
    every event. *)
Lemma ingest_quiet_consistent (member_db : bool) (events : list proto.Event) :
  Forall names_subject events →
  ∃ s' out, ingest None member_db events RoomState.empty = (Ok tt, s', out)
            ∧ name_index_consistent s'.
Proof.
  intros Hsubjects.
  enough (∀ s, sound s → all_displayable s →
               ∃ s' out, ingest None member_db events s = (Ok tt, s', out)
                         ∧ sound s' ∧ all_displayable s') as Hgen.
  { destruct (Hgen RoomState.empty) as (s' & out & Hi & (_ & Hc & _) & Hall).
    - split; [|split; [|done]].
      + intros u m. simpl. by rewrite lookup_empty.
      + split; [|intros n v; simpl; by rewrite lookup_empty].
        intros n u. unfold filed_under, named. simpl. setoid_rewrite lookup_empty.
        split; [by intros (? & ? & _)|by intros (? & ? & _)].
    - intros u m. simpl. by rewrite lookup_empty.
    - exists s', out. split; [done|]. by apply complete_displayable_consistent. }
  induction Hsubjects as [|evt events Hevt _ IH]; intros s Hs Hall; [by exists s, []|].
  destruct (ingest_event_quiet_displayable member_db evt s Hs Hall Hevt)
    as (s1 & out1 & He & Hs1 & Hall1).
  destruct (IH s1 Hs1 Hall1) as (s2 & out2 & Hi & Hs2 & Hall2).
  unfold ingest in *. simpl. unfold bind. rewrite He, Hi. eauto.
Qed.

Lemma ingest_quiet (member_db : bool) (events : list proto.Event) (s : RoomState.t) :
  sound s →
  ∃ s' out, ingest None member_db events s = (Ok tt, s', out) ∧ sound s'.
Proof.
  revert s. induction events as [|evt events IH]; intros s Hs; [by exists s, []|].
  destruct (ingest_event_quiet member_db evt s Hs) as (s1 & out1 & He & Hs1).
  destruct (IH s1 Hs1) as (s2 & out2 & Hi & Hs2).
  unfold ingest in *. simpl. unfold bind. rewrite He, Hi. eauto.
Qed.
End Sound.

(** ** The index with the callbacks of a room *)

Section NameIndexExamples.
#[local] Existing Instance ascii_externals.

(** C1 fails on the code.  With the callbacks of a room attached, a member
    whose display name is its own id takes a new display name: the second
    dispatch raises [std::out_of_range], because [forget_displayname] asks
    for the disambiguation of the member itself, whose record already
    carries the new name, which has no bucket yet.  The state it leaves
    keeps the member under the new name and the index under the old one. *)
Theorem ingest_raises_on_rename_from_own_id :
  ∃ s out,
    ingest (Some lobby) true [join_event "@a:x" "@a:x"; join_event "@a:x" "Bob"] RoomState.empty
    = (Raise out_of_range, s, out)
    ∧ RoomState.members_by_id_ s !! "@a:x" = Some (Member.mk "@a:x" "Bob" "" JOIN)
    ∧ RoomState.members_by_displayname_ s !! "Bob" = None
    ∧ RoomState.members_by_displayname_ s !! "@a:x" = Some ["@a:x"]
    ∧ ¬ name_index_consistent s.
Proof.
  do 2 eexists. split; [by vm_compute|].
  split; [by vm_compute|]. split; [by vm_compute|]. split; [by vm_compute|].
  intros [Hidx _].
  destruct (proj2 (Hidx "Bob" "@a:x")) as (vec & Hvec & _).
  - split; eexists; (split; [by vm_compute|]); done.
  - by vm_compute in Hvec.
Qed.

(** Without the callbacks the same events go through and leave a
    consistent index. *)
Example ingest_rename_from_own_id_quiet :
  ∃ s, ingest None true [join_event "@a:x" "@a:x"; join_event "@a:x" "Bob"] RoomState.empty
       = (Ok tt, s, [dbi_put "@a:x" (Member.to_json (Member.mk "@a:x" "@a:x" "" JOIN));
                     dbi_put "@a:x" (Member.to_json (Member.mk "@a:x" "Bob" "" JOIN))])
       ∧ RoomState.members_by_displayname_ s !! "Bob" = Some ["@a:x"]
       ∧ RoomState.members_by_displayname_ s !! "@a:x" = None.
Proof. eexists. split; [by vm_compute|]. split; by vm_compute. Qed.
End NameIndexExamples.

(** ** The notification of [forget_displayname] *)

Section Forget.
Context `{!Externals}.

(** The state after the bucket was rewritten and, when empty, erased. *)
Lemma forget_index_eq (s : RoomState.t) (old_name : QString) (vec : list UserID) (id : UserID) :
  (if bool_decide (filter (fun x => x ≠ id) vec = [])
   then delete old_name (<[old_name := filter (fun x => x ≠ id) vec]>
                           (RoomState.members_by_displayname_ s))
   else <[old_name := filter (fun x => x ≠ id) vec]> (RoomState.members_by_displayname_ s))
  = forget_index s old_name vec id.
Proof. unfold forget_index. case_bool_decide; [by rewrite delete_insert_eq|done]. Qed.

Lemma other_member_of_candidate (s : RoomState.t) (old_name : QString)
    (vec : list UserID) (id : UserID) :
  (length vec = 2%nat → RoomState.members_by_id_ s !! old_name = None →
   is_Some (RoomState.members_by_id_ s !! other_holder vec id)) →
  RoomState.other_member_of (bool_decide (length vec = 2%nat))
    (RoomState.member_from_id s old_name) (other_holder vec id) s
  = (Ok (forget_candidate s old_name vec id), s, []).
Proof.
  intros Hother. unfold RoomState.other_member_of, forget_candidate,
    RoomState.member_from_id, RoomState.members_by_id_at. st_unfold.
  case_bool_decide as Hlen; destruct (RoomState.members_by_id_ s !! old_name) as [m|] eqn:Hm;
    simpl; try done.
  destruct (Hother Hlen eq_refl) as [m' Hm']. by rewrite Hm'.
Qed.

(** C5, as the code has it.  [forget_displayname] removes [id] from the
    bucket of the normalised old name and erases the bucket when it gets
    empty.  With the callbacks of a room it notifies one member when
    there is exactly one candidate, the candidate by name being the other
    holder when the bucket holds exactly two ids before the removal (one
    after it), the candidate by id the member whose id is the normalised
    name; the notification carries the disambiguation that member had
    before the removal. *)
Theorem forget_displayname_notifies (s : RoomState.t) (id : UserID) (old : QString)
    (room : option RoomPtr) (vec : list UserID) :
  old ≠ "" →
  RoomState.members_by_displayname_ s !! normalized old = Some vec →
  (length vec - length (filter (fun x => x ≠ id) vec) = 1)%nat →
  (length vec = 2%nat → RoomState.members_by_id_ s !! normalized old = None →
   is_Some (RoomState.members_by_id_ s !! other_holder vec id)) →
  (∀ m, forget_candidate s (normalized old) vec id = Some m →
        ∃ d, RoomState.member_disambiguation s m = Ok d) →
  RoomState.forget_displayname id old room s
  = (Ok tt,
     RoomState.set_members_by_displayname (forget_index s (normalized old) vec id) s,
     match room, forget_candidate s (normalized old) vec id with
     | Some _, Some other =>
         [Emit (Signal.member_disambiguation_changed other (disambiguation_of s other))]
     | _, _ => []
     end).
Proof.
  intros Hold Hvec Hcount Hother Hdis.
  unfold RoomState.forget_displayname. rewrite isEmpty_false by done.
  pose proof (other_member_of_candidate s (normalized old) vec id Hother) as Hcand.
  unfold other_holder in Hcand.
  unfold RoomState.set_by_displayname, RoomState.members_by_displayname_at.
  st_unfold. rewrite Hvec. simpl.
  rewrite <- (forget_index_eq s (normalized old) vec id).
  destruct room as [room|]; simpl.
  - rewrite Hcand. simpl.
    fold (other_holder vec id) in *.
    destruct (forget_candidate s (normalized old) vec id) as [other|] eqn:Hc; simpl.
    + destruct (Hdis other eq_refl) as [d Hd]. unfold disambiguation_of. rewrite Hd. simpl.
      rewrite bool_decide_eq_true_2 by done. simpl.
      destruct (bool_decide (filter _ vec = [])); reflexivity.
    + rewrite bool_decide_eq_true_2 by done. simpl. destruct (bool_decide (filter _ vec = [])); reflexivity.
  - rewrite bool_decide_eq_true_2 by done. simpl. destruct (bool_decide (filter _ vec = [])); reflexivity.
Qed.
End Forget.

Section ForgetExamples.
#[local] Existing Instance ascii_externals.

(** C5, as the claim has it, fails: when three members hold the name and
    one forgets it, the bucket has size exactly 2 after the removal and
    nobody is notified; when two members hold it, the bucket has size 1
    after the removal and the other holder is notified. *)
Lemma forget_displayname_size_after_removal :
  let three := state_after [join_event "@a:x" "Sam"; join_event "@b:x" "Sam";
                            join_event "@c:x" "Sam"] in
  let two := state_after [join_event "@a:x" "Sam"; join_event "@b:x" "Sam"] in
  (∃ s', RoomState.forget_displayname "@a:x" "Sam" (Some lobby) three = (Ok tt, s', [])
         ∧ RoomState.members_by_displayname_ s' !! "Sam" = Some ["@b:x"; "@c:x"])
  ∧ (∃ s', RoomState.forget_displayname "@a:x" "Sam" (Some lobby) two
           = (Ok tt, s',
              [Emit (Signal.member_disambiguation_changed
                       (Member.mk "@b:x" "Sam" "" JOIN) "@b:x")])
           ∧ RoomState.members_by_displayname_ s' !! "Sam" = Some ["@b:x"]).
Proof.
  split.
  - eexists. split; [by vm_compute|]. by vm_compute.
  - eexists. split; [by vm_compute|]. by vm_compute.
Qed.

(** Two members hold the name "Sam" and the first forgets it: the second is
    notified with the disambiguation it had. *)
Lemma forget_displayname_notifies_witness :
  let two := state_after [join_event "@a:x" "Sam"; join_event "@b:x" "Sam"] in
  RoomState.forget_displayname "@a:x" "Sam" (Some lobby) two
  = (Ok tt,
     RoomState.set_members_by_displayname (forget_index two "Sam" ["@a:x"; "@b:x"] "@a:x") two,
     [Emit (Signal.member_disambiguation_changed (Member.mk "@b:x" "Sam" "" JOIN) "@b:x")]).
Proof.
  intros two.
  rewrite (forget_displayname_notifies two "@a:x" "Sam" (Some lobby) ["@a:x"; "@b:x"]).
  - by vm_compute.
  - done.
  - by vm_compute.
  - by vm_compute.
  - intros _ _. vm_compute. by eexists.
  - intros m Hm. vm_compute in Hm. injection Hm as <-. vm_compute. by eexists.
Defined.
End ForgetExamples.

(** ** JSON objects *)




(** ** Receipts *)

Lemma update_receipt_by_user (user : UserID) (event : EventID) (ts : Z) (r : Room.t) :
  Room.receipts_by_user_ (Room.update_receipt user event ts r)
  = <[user := {| receipt_event := event; receipt_ts := ts |}]> (Room.receipts_by_user_ r).
Proof.
  unfold Room.update_receipt.
  destruct (Room.receipts_by_user_ r !! user) as [old|]; [|done].
  by destruct (Room.receipts_by_event_ r !! receipt_event old).
Qed.



Section Persistence.
Context `{!Externals}.

(** *** The constructor of [RoomState] *)

Lemma load_member_quiet (s : RoomState.t) (id : UserID) (json : list (QString * QJsonValue)) :
  sound s →
  RoomState.members_by_id_ s !! id = None →
  ∃ s', RoomState.load_member (id, json) s = (Ok tt, s', [])
        ∧ sound s' ∧ same_metadata s s'
        ∧ ∀ u, RoomState.members_by_id_ s' !! u = None
               ↔ u ≠ id ∧ RoomState.members_by_id_ s !! u = None.
Proof.
  intros (Hids & Hc & Hdep) Hnone. unfold RoomState.load_member. simpl.
  erewrite bind_quiet by reflexivity. rewrite Hnone. simpl.
  erewrite bind_quiet by reflexivity.
  set (member := Member.of_json id json).
  pose proof (complete_tracks s id member Hc) as Htracks.
  rewrite Hnone in Htracks. simpl in Htracks.
  destruct (rename_quiet _ _ _ (Member.display_name member) Htracks) as (idx & Hr & Ht).
  change (RoomState.forget_displayname id "" None) with (@mret (St RoomState.t) _ _ tt) in Hr.
  erewrite bind_quiet in Hr by reflexivity.
  change (Member.id member) with id.
  eexists. split; [exact Hr|]. split; [|split; [done|]].
  - split; [|split; [|done]].
    + intros u m. simpl. intros [[<- <-]|[Hne Hm]]%lookup_insert_Some; [done|by apply Hids].
    + eapply tracks_complete; [|exact Ht]. simpl. by rewrite lookup_insert_eq.
  - intros u. simpl. rewrite lookup_insert_None. split; intros [? ?]; split; congruence.
Qed.

Lemma for_each_load_member_quiet
    (member_db : list (UserID * list (QString * QJsonValue))) (s : RoomState.t) :
  NoDup member_db.*1 →
  sound s →
  (∀ p, p ∈ member_db → RoomState.members_by_id_ s !! p.1 = None) →
  ∃ s', for_each member_db RoomState.load_member s = (Ok tt, s', [])
        ∧ sound s' ∧ same_metadata s s'.
Proof.
  revert s. induction member_db as [|[id json] db IH]; intros s Hnd Hs Hfresh; cbn [for_each].
  { by exists s. }
  rewrite fmap_cons in Hnd. apply NoDup_cons in Hnd as [Hid Hnd]. cbn [fst] in Hid.
  destruct (load_member_quiet s id json Hs) as (s1 & Hl & Hs1 & Hmeta1 & Hdom).
  { apply (Hfresh (id, json)). by left. }
  destruct (IH s1 Hnd Hs1) as (s2 & Hf & Hs2 & Hmeta2).
  { intros p Hp. apply Hdom. split.
    - intros Heq. apply Hid. rewrite <- Heq. by apply list_elem_of_fmap_2.
    - apply Hfresh. by right. }
  exists s2. unfold bind. rewrite Hl, Hf. split; [done|]. split; [done|].
    destruct Hmeta1 as (? & ? & ? & ? & ?), Hmeta2 as (? & ? & ? & ? & ?).
    repeat split; congruence.
Qed.

Lemma RoomState_of_json_quiet (info : list (QString * QJsonValue))
    (member_db : list (UserID * list (QString * QJsonValue))) :
  NoDup member_db.*1 →
  ∃ s', RoomState.of_json info member_db = (Ok tt, s', [])
        ∧ sound s' ∧ same_metadata (RoomState.of_info info) s'.
Proof.
  intros Hnd. unfold RoomState.of_json.
  apply for_each_load_member_quiet; [done| |intros; apply lookup_empty].
  split; [|split; [|done]].
  - intros u m. simpl. by rewrite lookup_empty.
  - split; [|intros n v; simpl; by rewrite lookup_empty].
    intros n u. unfold filed_under, named. simpl. setoid_rewrite lookup_empty.
    split; [by intros (? & ? & _)|by intros (? & ? & _)].
Qed.

(** *** The metadata survive [to_json] *)


(** *** The loop over the persisted events *)


(** *** The loop over the persisted receipts *)






End Persistence.

Section PersistenceExamples.
#[local] Existing Instance ascii_externals.



End PersistenceExamples.

(** ** The transaction ids of the sender *)



Section Sender.
Context `{!Externals}.
Hypothesis transaction_id_nonempty : ∀ n, transaction_id n ≠ "".

Local Arguments Room.send_path : simpl never.







End Sender.

Section SenderExamples.
#[local] Existing Instance ascii_externals.


End SenderExamples.

(** ** The back-off schedule *)

Lemma pow_5_4 (j : nat) : (9 ≤ j)%nat → (6 * 4 ^ Z.of_nat j ≤ 5 ^ Z.of_nat j)%Z.
Proof.
  induction 1 as [|j Hj IH].
  - by vm_compute.
  - rewrite Nat2Z.inj_succ, !Z.pow_succ_r by lia. lia.
Qed.

Lemma backoff_after_capped (j : nat) : (9 ≤ j)%nat → backoff_after j = MAXIMUM_BACKOFF.
Proof.
  induction 1 as [|j Hj IH]; [by vm_compute|].
  simpl. rewrite IH. by vm_compute.
Qed.

Lemma backoff_after_msec (j : nat) :
  (backoff_after j / 1000000)%Z = retry_delay_msec (S j).
Proof.
  destruct (decide (j < 9)%nat) as [Hlt|Hge].
  - do 9 (destruct j as [|j]; [by vm_compute|]). lia.
  - rewrite backoff_after_capped by lia. unfold retry_delay_msec.
    replace (Z.of_nat (S j) - 1)%Z with (Z.of_nat j) by lia.
    rewrite Z.min_r; [by vm_compute|].
    apply Z.div_le_lower_bound; [lia|].
    pose proof (pow_5_4 j ltac:(lia)). lia.
Qed.

Section Backoff.
Context `{!Externals}.

Lemma transient_retrying (reply : Response) :
  transient reply →
  bool_decide (400 ≤ response_code reply)%Z && bool_decide (response_code reply < 500)%Z
    && bool_decide (response_code reply ≠ 429%Z) = false
  ∧ bool_decide (is_Some (response_error reply)) = true.
Proof.
  intros [Hc He]. split; [|by apply bool_decide_eq_true].
  apply not_true_is_false. intros Ht.
  apply andb_true_iff in Ht as [Ht H3]. apply andb_true_iff in Ht as [H1 H2].
  apply bool_decide_eq_true in H1, H2, H3. apply Hc. lia.
Qed.

(** A transient failure starts the timer with the back-off in whole
    milliseconds and then lengthens the back-off. *)
Lemma transmit_finished_transient (reply : Response) (r : Room.t) :
  transient reply →
  Room.pending_events_ r ≠ [] →
  Room.transmit_finished reply r
  = (Ok tt,
     Room.set_retry_backoff (next_backoff (Room.retry_backoff_ r))
       (Room.set_transmit_retry_timer (Some (Room.retry_backoff_ r / 1000000)%Z)
          (Room.set_transmitting None r)),
     [timer_start (Room.retry_backoff_ r / 1000000)%Z]).
Proof.
  intros [Hc He]%transient_retrying Hp.
  unfold Room.transmit_finished. st_unfold. simpl. rewrite Hc, He. simpl.
  rewrite bool_decide_eq_false_2 by done. done.
Qed.

Lemma retry_timeout_retransmits (r : Room.t) :
  Room.transmitting_ r = None →
  Room.pending_events_ r ≠ [] →
  match Room.retry_timeout r with
  | (res, r', out) =>
      res = Ok tt
      ∧ timer_delays out = []
      ∧ Room.retry_backoff_ r' = Room.retry_backoff_ r
      ∧ Room.pending_events_ r' = Room.pending_events_ r
      ∧ is_Some (Room.transmitting_ r')
  end.
Proof.
  intros Ht Hp. unfold Room.retry_timeout, Room.transmit_event. st_unfold. simpl.
  rewrite Ht. simpl.
  destruct (Room.pending_events_ r) as [|event rest] eqn:Hpe; [done|]. simpl.
  destruct (isEmpty _); simpl; rewrite ?Hpe; split_and!; try done; by eexists.
Qed.

Lemma transient_failures_delays (reply : Response) (k j : nat) (r : Room.t) :
  transient reply →
  is_Some (Room.transmitting_ r) →
  Room.pending_events_ r ≠ [] →
  Room.retry_backoff_ r = backoff_after j →
  timer_delays (sender_run (transient_failures k reply) r).2
  = map (fun i => (backoff_after i / 1000000)%Z) (seq j k).
Proof.
  intros Hreply. revert j r. induction k as [|k IH]; intros j r Ht Hp Hb; [done|].
  assert (Hstep : transient_failures (S k) reply
                  = Finished reply :: match k with
                                      | O => []
                                      | S _ => Timeout :: transient_failures k reply
                                      end) by (by destruct k).
  rewrite Hstep. clear Hstep.
  destruct k as [|k].
  { simpl. rewrite bool_decide_eq_true_2 by done.
    rewrite transmit_finished_transient by done. simpl. by rewrite Hb. }
  remember (transient_failures (S k) reply) as rest eqn:Hrest.
  simpl. rewrite bool_decide_eq_true_2 by done.
  rewrite transmit_finished_transient by done.
  set (r1 := Room.set_retry_backoff _ _).
  pose proof (retry_timeout_retransmits r1 eq_refl Hp) as Hto.
  destruct (Room.retry_timeout r1) as [[res r2] out2].
  destruct Hto as (-> & Hd & Hb2 & Hp2 & Ht2).
  specialize (IH (S j) r2 Ht2).
  destruct (sender_run rest r2) as [r3 out3] eqn:Hrun.
  simpl. unfold timer_delays in *. rewrite omap_app, Hd. simpl.
  rewrite Hb. f_equal. apply IH.
  - by rewrite Hp2.
  - rewrite Hb2. subst r1. simpl. by rewrite Hb.
Qed.

Lemma transmit_event_acquires (r : Room.t) :
  Room.transmitting_ r = None →
  Room.pending_events_ r ≠ [] →
  Room.last_transmit_transaction_ r = "" →
  match Room.transmit_event r with
  | (res, r', out) =>
      res = Ok tt
      ∧ Room.retry_backoff_ r' = Room.retry_backoff_ r
      ∧ session_get_transaction_id (Room.last_transmit_transaction_ r') ∈ out
  end.
Proof.
  intros Ht Hp Hl. unfold Room.transmit_event. st_unfold. simpl.
  rewrite Ht. simpl.
  destruct (Room.pending_events_ r) as [|event rest]; [done|]. simpl.
  rewrite Hl. simpl. split_and!; [done..|]. rewrite elem_of_cons. by left.
Qed.

(** A completion that is not a retry removes the head of the queue,
    resets the back-off and drops the transaction id: afterwards the id is
    empty, or is one acquired afresh for the next event. *)
Lemma transmit_finished_resets (reply : Response) (r : Room.t) :
  completed reply →
  Room.pending_events_ r ≠ [] →
  ∃ r' out,
    Room.transmit_finished reply r = (Ok tt, r', out)
    ∧ pop_front ∈ out
    ∧ Room.retry_backoff_ r' = MINIMUM_BACKOFF
    ∧ (Room.last_transmit_transaction_ r' = ""
       ∨ session_get_transaction_id (Room.last_transmit_transaction_ r') ∈ out).
Proof.
  intros Hn Hp.
  assert (Hnext : ∀ rest out0,
    pop_front ∈ out0 →
    ∃ r' out,
      (if negb (bool_decide (rest = []))
       then Room.transmit_event else mret tt)
        (Room.set_retry_backoff MINIMUM_BACKOFF
           (Room.set_last_transmit_transaction ""
              (Room.set_pending_events rest (Room.set_transmitting None r))))
      = (Ok tt, r', out)
      ∧ pop_front ∈ out0 ++ out
      ∧ Room.retry_backoff_ r' = MINIMUM_BACKOFF
      ∧ (Room.last_transmit_transaction_ r' = ""
         ∨ session_get_transaction_id (Room.last_transmit_transaction_ r') ∈ out0 ++ out)).
  { intros rest out0 Hpop. set (r1 := Room.set_retry_backoff _ _).
    case_bool_decide as Hrest; simpl.
    - exists r1, []. rewrite app_nil_r. subst r1. simpl. auto.
    - pose proof (transmit_event_acquires r1 eq_refl Hrest eq_refl) as Hte.
      destruct (Room.transmit_event r1) as [[res r'] out].
      destruct Hte as (-> & Hb & Hin). exists r', out.
      split; [done|]. split; [apply elem_of_app; by left|]. split; [by rewrite Hb|].
      right. apply elem_of_app. by right. }
  unfold Room.transmit_finished, Room.pending_pop_front. st_unfold. simpl.
  destruct (Room.pending_events_ r) as [|event rest] eqn:Hpe; [done|].
  destruct Hn as [(Hc & Hne & msg & Hmsg)|(Hc & Herr)].
  - rewrite !bool_decide_eq_true_2 by lia. simpl. rewrite Hmsg. simpl. rewrite Hpe. simpl.
    destruct (Hnext rest [Emit (Signal.error msg); pop_front]) as (r' & out & Hk & Hpop & Hb & Hl).
    { rewrite !elem_of_cons. auto. }
    unfold ret in *. rewrite Hk. exists r'. eexists. split; [reflexivity|]. simpl. done.
  - assert (bool_decide (400 ≤ response_code reply)%Z && bool_decide (response_code reply < 500)%Z
            && bool_decide (response_code reply ≠ 429%Z) = false) as ->.
    { apply not_true_iff_false. rewrite !andb_true_iff, !bool_decide_eq_true. lia. }
    rewrite Herr. simpl. rewrite Hpe. simpl.
    destruct (Hnext rest [pop_front]) as (r' & out & Hk & Hpop & Hb & Hl).
    { rewrite !elem_of_cons. auto. }
    unfold ret in *. rewrite Hk. exists r'. eexists. split; [reflexivity|]. simpl. done.
Qed.

(** C8, as the code has it.  In a run of [k] transient failures the timer
    is started, for the [j]-th of them, with 5s times 1.25 to the [j - 1]
    capped at 30s and rounded down to whole milliseconds: 5000, 6250,
    7812, ... , 30000.  A completion that is not a retry removes the head
    of the queue, resets [retry_backoff_] to the floor of 5s and clears
    [last_transmit_transaction_], which is then empty or acquired afresh
    for the next event. *)
Theorem retry_schedule (k : nat) (reply reply' : Response) (r r' : Room.t) :
  transient reply →
  is_Some (Room.transmitting_ r) →
  Room.pending_events_ r ≠ [] →
  Room.retry_backoff_ r = MINIMUM_BACKOFF →
  completed reply' →
  Room.pending_events_ r' ≠ [] →
  timer_delays (sender_run (transient_failures k reply) r).2 = map retry_delay_msec (seq 1 k)
  ∧ ∃ r'' out,
      Room.transmit_finished reply' r' = (Ok tt, r'', out)
      ∧ pop_front ∈ out
      ∧ Room.retry_backoff_ r'' = MINIMUM_BACKOFF
      ∧ (Room.last_transmit_transaction_ r'' = ""
         ∨ session_get_transaction_id (Room.last_transmit_transaction_ r'') ∈ out).
Proof.
  intros Hreply Ht Hp Hb Hreply' Hp'. split; [|by apply transmit_finished_resets].
  rewrite (transient_failures_delays reply k 0 r) by done.
  rewrite <- (fmap_S_seq 0). rewrite <- list_fmap_compose.
  apply list_fmap_ext. intros i j _. simpl. apply backoff_after_msec.
Qed.
End Backoff.

Section BackoffExamples.
#[local] Existing Instance ascii_externals.

(** Twelve failures in a row of the first message, and what a success does
    to the room in which that message is in flight. *)
Lemma retry_schedule_witness :
  let r := (sender_run [Send "m.room.message" [("body", JString "hi")]]
              (Room.fresh "!lobby:x" own_session)).1 in
  timer_delays (sender_run (transient_failures 12 too_many_requests) r).2
  = [5000; 6250; 7812; 9765; 12207; 15258; 19073; 23841; 29802; 30000; 30000; 30000]%Z
  ∧ ∃ r'' out,
      Room.transmit_finished success r = (Ok tt, r'', out)
      ∧ pop_front ∈ out
      ∧ Room.retry_backoff_ r'' = MINIMUM_BACKOFF
      ∧ (Room.last_transmit_transaction_ r'' = ""
         ∨ session_get_transaction_id (Room.last_transmit_transaction_ r'') ∈ out).
Proof.
  intros r.
  assert (transient too_many_requests) as Htransient.
  { split; [simpl; lia|by eexists]. }
  assert (completed success) as Hcompleted.
  { right. split; [simpl; lia|done]. }
  exact (retry_schedule 12 too_many_requests success r r Htransient
           ltac:(by vm_compute; eexists) ltac:(by vm_compute) ltac:(by vm_compute)
           Hcompleted ltac:(by vm_compute)).
Defined.

(** C8, as the claim has it, fails: the third retry is delayed by 7812
    milliseconds, not by the 7.8125 seconds of the formula. *)
Lemma third_retry_delay_truncated :
  let r := (sender_run [Send "m.room.message" [("body", JString "hi")]]
              (Room.fresh "!lobby:x" own_session)).1 in
  timer_delays (sender_run (transient_failures 3 too_many_requests) r).2 !! 2%nat = Some 7812%Z
  ∧ specified_retry_delay 3 == 78125 # 10000
  ∧ ¬ seconds_of_msec 7812 == specified_retry_delay 3.
Proof.
  split; [by vm_compute|]. split; [by vm_compute|]. by vm_compute.
Qed.
End BackoffExamples.

(** ** Notifications about receipts *)

Section Ephemeral.
Context `{!Externals}.





End Ephemeral.

Section EphemeralExamples.
#[local] Existing Instance ascii_externals.

End EphemeralExamples.

(** * Further properties of the code *)

(** ** Filing and forgetting a display name *)

Lemma filter_ne_absent (vec : list UserID) (id : UserID) :
  id ∉ vec → filter (fun x => x ≠ id) vec = vec.
Proof.
  induction vec as [|y vec IH]; intros Hx; [done|].
  rewrite filter_cons. apply not_elem_of_cons in Hx as [Hy Hx].
  rewrite decide_True by done. by rewrite IH.
Qed.

Lemma forallb_ne_absent (vec : list UserID) (id : UserID) :
  forallb (fun x => bool_decide (x ≠ id)) vec = true ↔ id ∉ vec.
Proof.
  induction vec as [|y vec IH]; simpl.
  - split; [intros _; apply not_elem_of_nil|done].
  - rewrite andb_true_iff, bool_decide_eq_true, IH, not_elem_of_cons. intuition congruence.
Qed.

Lemma set_index_id (s : RoomState.t) :
  RoomState.set_members_by_displayname (RoomState.members_by_displayname_ s) s = s.
Proof. by destruct s. Qed.

Section NameIndex.
Context `{!Externals}.

(** X1. Filing and forgetting are inverse.  On an index without empty
    buckets, [record_displayname] of an id that is not filed under the name
    followed by [forget_displayname] of the same id and name (no callbacks)
    returns normally, emits nothing, and leaves the state exactly as it
    was: the bucket that [operator[]] created is erased again. *)
Theorem record_then_forget_restores (s : RoomState.t) (id : UserID) (name : QString) :
  buckets_tidy s →
  ¬ filed_under s (normalized name) id →
  (RoomState.record_displayname id name None;;
   RoomState.forget_displayname id name None) s = (Ok tt, s, []).
Proof.
  intros Htidy Hfiled.
  unfold RoomState.record_displayname, RoomState.forget_displayname.
  destruct (isEmpty name) eqn:Hname; [done|].
  set (n := normalized name) in *.
  set (idx := RoomState.members_by_displayname_ s).
  assert (id ∉ default [] (idx !! n)) as Hid.
  { destruct (idx !! n) as [vec|] eqn:Hvec; simpl; [|apply not_elem_of_nil].
    intros Hin. apply Hfiled. by exists vec. }
  unfold RoomState.set_by_displayname, RoomState.members_by_displayname_at.
  st_unfold. simpl. fold idx.
  rewrite (proj2 (forallb_ne_absent _ _) Hid). simpl.
  rewrite !lookup_insert_eq. simpl.
  rewrite filter_app, (filter_ne_absent _ _ Hid).
  rewrite filter_cons, decide_False by (intros Hne; by apply Hne).
  rewrite filter_nil, app_nil_r, length_app. simpl.
  rewrite bool_decide_eq_true_2 by lia. simpl.
  rewrite !insert_insert_eq.
  destruct (idx !! n) as [vec|] eqn:Hvec; simpl.
  - destruct (Htidy n vec Hvec) as [Hne _].
    rewrite bool_decide_eq_false_2 by done. simpl.
    rewrite insert_id by done. subst idx. by destruct s.
  - simpl. rewrite delete_insert_eq, delete_id by done. subst idx. by destruct s.
Qed.

End NameIndex.

Section NameIndexErrors.
Context `{!Externals}.


(** X3. Filing an id twice under the same name trips the [assert] of
    [record_displayname], with or without callbacks, before anything is
    emitted, and the index is left as it was. *)
Theorem record_displayname_filed_twice (s : RoomState.t) (id : UserID) (name : QString)
    (room : option RoomPtr) :
  name ≠ "" →
  filed_under s (normalized name) id →
  RoomState.record_displayname id name room s = (Raise assertion_failure, s, []).
Proof.
  intros Hname (vec & Hvec & Hin).
  unfold RoomState.record_displayname. rewrite isEmpty_false by done.
  unfold RoomState.set_by_displayname. st_unfold. rewrite Hvec. simpl.
  destruct (forallb _ vec) eqn:Hall.
  { apply forallb_ne_absent in Hall. done. }
  simpl. rewrite insert_id by done. by destruct s.
Qed.

End NameIndexErrors.

(** ** Methods without effects, methods that only read *)

Lemma silent_ret {S A} (a : A) : silent (S := S) (mret a).
Proof. by intros s. Qed.

Lemma silent_bind {S A B} (m : St S A) (f : A → St S B) :
  silent m → (∀ a, silent (f a)) → silent (m ≫= f).
Proof.
  intros Hm Hf s. unfold mbind, St_bind, bind. specialize (Hm s).
  destruct (m s) as [[[a|e] s1] out1]; [|done].
  specialize (Hf a s1). destruct (f a s1) as [[r s2] out2]. simpl in *.
  by rewrite Hm, Hf.
Qed.

Lemma silent_for_each {S A} (l : list A) (body : A → St S unit) :
  (∀ x, silent (body x)) → silent (for_each l body).
Proof.
  intros Hbody. induction l as [|x l IH]; [by intros s|].
  simpl. by apply (silent_bind (body x) (fun _ => for_each l body)).
Qed.

Lemma silent_ret_bind {S A B} (a : A) (f : A → St S B) :
  silent (f a) → silent (mret a ≫= f).
Proof.
  intros Hf s. specialize (Hf s). unfold mbind, mret, St_bind, St_ret, bind, ret.
  by destruct (f a s) as [[r s2] out2].
Qed.

Ltac silent :=
  repeat first
    [ apply silent_ret
    | apply silent_ret_bind
    | apply silent_bind; [|intros ?]
    | progress unfold when, emit, assert, RoomState.set_by_id, RoomState.set_by_displayname
    | progress change (bool_decide (is_Some (@None RoomPtr))) with false
    | progress cbn iota
    | match goal with
      | |- silent (if ?b then _ else _) => destruct b
      | |- silent (match ?x with _ => _ end) => destruct x
      | |- silent get => intros ?; reflexivity
      | |- silent (modify _) => intros ?; reflexivity
      | |- silent (raise _) => intros ?; reflexivity
      | |- silent (lift _) => intros ?; reflexivity
      | |- silent (ret _) => intros ?; reflexivity
      end ].

Lemma stateless_ret {S A} (a : A) : stateless (S := S) (mret a).
Proof. by intros s. Qed.

Lemma stateless_bind {S A B} (m : St S A) (f : A → St S B) :
  stateless m → (∀ a, stateless (f a)) → stateless (m ≫= f).
Proof.
  intros Hm Hf s. unfold mbind, St_bind, bind. specialize (Hm s).
  destruct (m s) as [[[a|e] s1] out1]; [|done].
  specialize (Hf a s1). destruct (f a s1) as [[r s2] out2]. simpl in *.
  by rewrite Hf, Hm.
Qed.

Ltac stateless :=
  repeat first
    [ apply stateless_ret
    | apply stateless_bind; [|intros ?]
    | progress unfold when, emit, assert
    | match goal with
      | |- stateless (if ?b then _ else _) => destruct b
      | |- stateless (match ?x with _ => _ end) => destruct x
      | |- stateless get => intros ?; reflexivity
      | |- stateless (tell _) => intros ?; reflexivity
      | |- stateless (raise _) => intros ?; reflexivity
      | |- stateless (lift _) => intros ?; reflexivity
      | |- stateless (ret _) => intros ?; reflexivity
      end ].

(** ** Methods that agree on the object *)

Lemma refines_refl {S A} (m : St S A) : refines m m.
Proof. intros s a s' out Hm. by exists out. Qed.

Lemma refines_trans {S A} (m1 m2 m3 : St S A) :
  refines m1 m2 → refines m2 m3 → refines m1 m3.
Proof.
  intros H12 H23 s a s' out Hm.
  destruct (H12 _ _ _ _ Hm) as [out' Hm']. by apply (H23 _ _ _ _ Hm').
Qed.

Lemma refines_bind {S A B} (m1 m2 : St S A) (f1 f2 : A → St S B) :
  refines m1 m2 → (∀ a, refines (f1 a) (f2 a)) → refines (m1 ≫= f1) (m2 ≫= f2).
Proof.
  intros Hm Hf s b s' out. unfold mbind, St_bind, bind.
  destruct (m1 s) as [[[a|e] s1] out1] eqn:H1; [|done].
  destruct (Hm _ _ _ _ H1) as [out1' ->].
  destruct (f1 a s1) as [[r s2] out2] eqn:H2. intros [= -> -> <-].
  destruct (Hf _ _ _ _ _ H2) as [out2' ->]. eauto.
Qed.

(** A step that only reads may be dropped on the left... *)
Lemma refines_stateless_l {S A B} (m1 : St S A) (f : A → St S B) (g : St S B) :
  stateless m1 → (∀ a, refines (f a) g) → refines (m1 ≫= f) g.
Proof.
  intros Hm Hf s b s' out. unfold mbind, St_bind, bind. specialize (Hm s).
  destruct (m1 s) as [[[a|e] s1] out1] eqn:H1; [|done]. simpl in Hm. subst s1.
  destruct (f a s) as [[r s2] out2] eqn:H2. intros [= -> -> <-].
  by apply (Hf _ _ _ _ _ H2).
Qed.

(** ... and a returned value may be added on the right. *)
Lemma refines_ret_r {S A B} (m : St S B) (a : A) (g : A → St S B) :
  refines m (g a) → refines m (mret a ≫= g).
Proof.
  intros Hm s b s' out H. destruct (Hm _ _ _ _ H) as [out' Hg].
  exists out'. unfold mbind, mret, St_bind, St_ret, bind, ret. by rewrite Hg.
Qed.

Lemma refines_stateless_unit {S} (m1 m2 : St S unit) :
  stateless m1 → (∀ s, ∃ out, m2 s = (Ok tt, s, out)) → refines m1 m2.
Proof.
  intros H1 H2 s [] s' out Hm. specialize (H1 s). rewrite Hm in H1. simpl in H1. subst s'.
  apply H2.
Qed.

Section Silent.
Context `{!Externals}.

Lemma other_member_of_stateless b mxid other :
  stateless (RoomState.other_member_of b mxid other).
Proof. unfold RoomState.other_member_of. stateless. Qed.

Lemma other_member_of_silent b mxid other :
  silent (RoomState.other_member_of b mxid other).
Proof. unfold RoomState.other_member_of. silent. Qed.

Lemma forget_displayname_silent id old : silent (RoomState.forget_displayname id old None).
Proof. unfold RoomState.forget_displayname. silent. Qed.

Lemma record_displayname_silent id name : silent (RoomState.record_displayname id name None).
Proof. unfold RoomState.record_displayname. silent. Qed.

Lemma update_membership_silent user content :
  silent (RoomState.update_membership user content None false).
Proof.
  unfold RoomState.update_membership.
  pose proof forget_displayname_silent. pose proof record_displayname_silent.
  silent; done.
Qed.

Lemma dispatch_silent evt : silent (RoomState.dispatch evt None false).
Proof.
  unfold RoomState.dispatch. pose proof update_membership_silent.
  silent; done.
Qed.

Lemma prune_departed_silent : silent (RoomState.prune_departed None).
Proof.
  unfold RoomState.prune_departed. pose proof forget_displayname_silent.
  silent; done.
Qed.

Lemma ingest_silent (events : list proto.Event) : silent (ingest None false events).
Proof.
  unfold ingest. apply silent_for_each. intros evt. unfold ingest_event.
  apply silent_bind; [apply dispatch_silent|]. intros _. apply prune_departed_silent.
Qed.

(** X4. The methods of [RoomState] that are called without a [Room *]
    ([apply], [revert], [ensure_member], [prune_departed()]) never emit a
    signal and never write to the member database. *)
Theorem methods_without_callbacks_silent (evt : proto.Event) :
  silent (RoomState.apply evt)
  ∧ silent (RoomState.revert evt)
  ∧ silent (RoomState.ensure_member evt)
  ∧ silent (RoomState.prune_departed None).
Proof.
  split; [apply dispatch_silent|]. split; [|split; [|apply prune_departed_silent]].
  - unfold RoomState.revert.
    pose proof update_membership_silent. pose proof forget_displayname_silent.
    silent; done.
  - unfold RoomState.ensure_member. pose proof record_displayname_silent.
    silent; done.
Qed.

End Silent.

(** ** The callbacks do not change what happens to the state *)

Lemma effect_only_refines {S} (m1 m2 : St S unit) :
  (∀ s, ∃ out, m1 s = (Ok tt, s, out)) → (∀ s, ∃ out, m2 s = (Ok tt, s, out)) →
  refines m1 m2.
Proof.
  intros H1 H2 s [] s' out Hm. destruct (H1 s) as [out1 Hs]. rewrite Hs in Hm.
  injection Hm as <- <-. apply H2.
Qed.

Lemma when_tell_effect_only {S} (c : bool) (e : Effect) (s : S) :
  ∃ out, when c (tell e) s = (Ok tt, s, out).
Proof. destruct c; by eexists. Qed.

Lemma emit_effect_only {S} (room : option RoomPtr) (sig : Signal.t) (s : S) :
  ∃ out, emit room sig s = (Ok tt, s, out).
Proof. unfold emit. apply when_tell_effect_only. Qed.

Lemma when_emit_effect_only {S} (c : bool) (room : option RoomPtr) (sig : Signal.t) (s : S) :
  ∃ out, when c (emit room sig) s = (Ok tt, s, out).
Proof. destruct c; [apply emit_effect_only|by eexists]. Qed.

Lemma refines_when_tell {S} (c c' : bool) (e e' : Effect) :
  refines (S := S) (when c (tell e)) (when c' (tell e')).
Proof. apply effect_only_refines; intros s; apply when_tell_effect_only. Qed.

Lemma refines_emit {S} (room room' : option RoomPtr) (sig : Signal.t) :
  refines (S := S) (emit room sig) (emit room' sig).
Proof. apply effect_only_refines; intros s; apply emit_effect_only. Qed.

Lemma refines_when_emit {S} (c : bool) (room room' : option RoomPtr) (sig : Signal.t) :
  refines (S := S) (when c (emit room sig)) (when c (emit room' sig)).
Proof. apply effect_only_refines; intros s; apply when_emit_effect_only. Qed.

Ltac refines_step :=
  first
    [ apply refines_refl
    | apply refines_when_tell
    | apply refines_emit
    | apply refines_when_emit
    | apply refines_bind; [|intros ?] ].

Lemma refines_for_each {S A} (l : list A) (body1 body2 : A → St S unit) :
  (∀ x, refines (body1 x) (body2 x)) → refines (for_each l body1) (for_each l body2).
Proof.
  intros Hbody. induction l as [|x l IH]; [apply refines_refl|].
  simpl. by apply (refines_bind (body1 x) (body2 x)).
Qed.

Section Callbacks.
Context `{!Externals}.

Lemma forget_displayname_refines id old room :
  refines (RoomState.forget_displayname id old room) (RoomState.forget_displayname id old None).
Proof.
  unfold RoomState.forget_displayname.
  destruct (isEmpty old); [apply refines_refl|].
  apply refines_bind; [apply refines_refl|]. intros vec.
  apply refines_bind; [apply refines_refl|]. intros s.
  change (bool_decide (is_Some (@None RoomPtr))) with false. cbn iota.
  apply refines_ret_r.
  apply refines_stateless_l.
  { destruct (bool_decide (is_Some room)); [apply other_member_of_stateless|by intros ?]. }
  intros other_member. apply refines_ret_r.
  apply refines_stateless_l.
  { destruct other_member; by intros ?. }
  intros other_disambiguation.
  do 3 (apply refines_bind; [apply refines_refl|]; intros _).
  destruct other_member; [|apply refines_refl].
  apply effect_only_refines; intros s0; by eexists.
Qed.

Lemma record_displayname_refines id name room :
  refines (RoomState.record_displayname id name room)
          (RoomState.record_displayname id name None).
Proof.
  unfold RoomState.record_displayname.
  destruct (isEmpty name); [apply refines_refl|].
  apply refines_bind; [apply refines_refl|]. intros s.
  do 3 (apply refines_bind; [apply refines_refl|]; intros _).
  change (bool_decide (is_Some (@None RoomPtr))) with false. cbn iota.
  destruct (bool_decide (is_Some room)); [|apply refines_refl].
  apply refines_stateless_unit; [|intros s0; by eexists].
  pose proof other_member_of_stateless. stateless; done.
Qed.

Lemma update_membership_refines user content room member_db member_db' :
  refines (RoomState.update_membership user content room member_db)
          (RoomState.update_membership user content None member_db').
Proof.
  unfold RoomState.update_membership.
  pose proof forget_displayname_refines. pose proof record_displayname_refines.
  destruct (if Json.empty content then _ else _) as [membership|]; [|apply refines_refl].
  destruct membership.
  1,2: apply refines_bind; [apply refines_refl|]; intros s;
       cbn zeta;
       do 3 (apply refines_bind; [apply refines_refl|]; intros ?);
       apply refines_bind;
       [case_bool_decide; [|apply refines_refl];
        apply refines_bind; [done|]; intros ?;
        apply refines_bind; [done|]; intros ?;
        apply refines_when_tell|];
       intros ?; repeat refines_step.
  all: apply refines_bind;
       [apply effect_only_refines; intros s0; destruct room; simpl;
        try case_bool_decide; by eexists|];
       intros ?;
       apply refines_bind; [apply refines_refl|]; intros s;
       apply refines_bind;
       [destruct (RoomState.members_by_id_ s !! user); [|apply refines_refl];
        cbn zeta;
        apply refines_bind; [apply refines_refl|]; intros ?;
        apply refines_bind;
        [case_bool_decide; [|apply refines_refl];
         apply refines_bind; [done|]; intros ?; done|];
        intros ?; repeat refines_step|];
       intros ?; repeat refines_step.
Qed.

Lemma dispatch_refines evt room member_db member_db' :
  refines (RoomState.dispatch evt room member_db) (RoomState.dispatch evt None member_db').
Proof.
  unfold RoomState.dispatch.
  repeat (case_bool_decide;
          [first [apply update_membership_refines|by repeat refines_step]|]).
  apply refines_refl.
Qed.

Lemma prune_departed_refines room :
  refines (RoomState.prune_departed room) (RoomState.prune_departed None).
Proof.
  unfold RoomState.prune_departed.
  apply refines_bind; [apply refines_refl|]. intros s.
  destruct (negb _); [|apply refines_refl].
  apply refines_bind; [apply refines_refl|]. intros m.
  apply refines_bind; [apply forget_displayname_refines|]. intros _. apply refines_refl.
Qed.

Lemma ingest_event_refines room member_db member_db' evt :
  refines (ingest_event room member_db evt) (ingest_event None member_db' evt).
Proof.
  unfold ingest_event. apply refines_bind; [apply dispatch_refines|].
  intros _. apply prune_departed_refines.
Qed.

(** Whatever the callbacks and the database, a run of the ingestion loop
    that returns leaves the state that the run without them leaves. *)
Lemma ingest_quietly (room : option RoomPtr) (member_db : bool) (events : list proto.Event)
    (s s' : RoomState.t) (out : list Effect) :
  ingest room member_db events s = (Ok tt, s', out) →
  ingest None false events s = (Ok tt, s', []).
Proof.
  intros Hrun.
  destruct (refines_for_each events _ _ (ingest_event_refines room member_db false)
              _ _ _ _ Hrun) as [out' Hquiet].
  unfold ingest. rewrite Hquiet. f_equal.
  pose proof (ingest_silent events s) as Hsilent.
  unfold ingest in Hsilent. by rewrite Hquiet in Hsilent.
Qed.

(** X5. The callbacks and the member database do not change what
    [dispatch] does to the state: whenever [dispatch] with a [Room *] and a
    database returns, [apply] (no callbacks, no database) on the same state
    returns the same result and leaves the same state. *)
Theorem dispatch_state_independent_of_callbacks (evt : proto.Event)
    (room : option RoomPtr) (member_db : bool) (s s' : RoomState.t) (b : bool)
    (out : list Effect) :
  RoomState.dispatch evt room member_db s = (Ok b, s', out) →
  RoomState.apply evt s = (Ok b, s', []).
Proof.
  intros Hrun.
  destruct (dispatch_refines evt room member_db false _ _ _ _ Hrun) as [out' Hquiet].
  unfold RoomState.apply. rewrite Hquiet. f_equal.
  pose proof (dispatch_silent evt s) as Hsilent. by rewrite Hquiet in Hsilent.
Qed.

End Callbacks.

(** ** Parts of the object that a method leaves alone *)

Lemma keeps_ret {S T A} (proj : S → T) (a : A) : keeps proj (mret a).
Proof. by intros s. Qed.

Lemma keeps_bind {S T A B} (proj : S → T) (m : St S A) (f : A → St S B) :
  keeps proj m → (∀ a, keeps proj (f a)) → keeps proj (m ≫= f).
Proof.
  intros Hm Hf s. unfold mbind, St_bind, bind. specialize (Hm s).
  destruct (m s) as [[[a|e] s1] out1]; [|done].
  specialize (Hf a s1). destruct (f a s1) as [[r s2] out2]. simpl in *.
  by rewrite Hf, Hm.
Qed.

Lemma keeps_for_each {S T A} (proj : S → T) (l : list A) (body : A → St S unit) :
  (∀ x, keeps proj (body x)) → keeps proj (for_each l body).
Proof.
  intros Hbody. induction l as [|x l IH]; [by intros s|].
  simpl. by apply (keeps_bind proj (body x) (fun _ => for_each l body)).
Qed.

Ltac keeps :=
  repeat first
    [ apply keeps_ret
    | apply keeps_bind; [|intros ?]
    | progress unfold when, emit, assert, RoomState.set_by_id, RoomState.set_by_displayname
    | match goal with
      | |- keeps _ (if ?b then _ else _) => destruct b
      | |- keeps _ (match ?x with _ => _ end) => destruct x
      | |- keeps _ get => intros ?; reflexivity
      | |- keeps _ (tell _) => intros ?; reflexivity
      | |- keeps _ (raise _) => intros ?; reflexivity
      | |- keeps _ (lift _) => intros ?; reflexivity
      | |- keeps _ (ret _) => intros ?; reflexivity
      | |- keeps _ (modify _) => intros ?; reflexivity
      end ].

Lemma bind_Ok_inv {S A B} (m : St S A) (f : A → St S B) (s s' : S) (b : B) (out : list Effect) :
  (m ≫= f) s = (Ok b, s', out) →
  ∃ a s1 out1 out2, m s = (Ok a, s1, out1) ∧ f a s1 = (Ok b, s', out2) ∧ out = out1 ++ out2.
Proof.
  unfold mbind, St_bind, bind. destruct (m s) as [[[a|e] s1] out1]; [|done].
  destruct (f a s1) as [[r s2] out2] eqn:Hf. intros [= -> -> <-]. by exists a, s1, out1, out2.
Qed.

Section Frames.
Context `{!Externals}.

Lemma other_member_of_keeps {T} (proj : RoomState.t → T) b mxid other :
  keeps proj (RoomState.other_member_of b mxid other).
Proof. unfold RoomState.other_member_of. keeps. Qed.

Lemma forget_displayname_keeps {T} (proj : RoomState.t → T) id old room :
  (∀ idx s, proj (RoomState.set_members_by_displayname idx s) = proj s) →
  keeps proj (RoomState.forget_displayname id old room).
Proof.
  intros Hproj. unfold RoomState.forget_displayname.
  pose proof (other_member_of_keeps proj). keeps; try done.
  all: intros ?; apply Hproj.
Qed.

Lemma record_displayname_keeps {T} (proj : RoomState.t → T) id name room :
  (∀ idx s, proj (RoomState.set_members_by_displayname idx s) = proj s) →
  keeps proj (RoomState.record_displayname id name room).
Proof.
  intros Hproj. unfold RoomState.record_displayname.
  pose proof (other_member_of_keeps proj). keeps; try done.
  all: intros ?; apply Hproj.
Qed.

Lemma update_membership_keeps {T} (proj : RoomState.t → T) user content room member_db :
  (∀ idx s, proj (RoomState.set_members_by_displayname idx s) = proj s) →
  (∀ ms s, proj (RoomState.set_members_by_id ms s) = proj s) →
  (∀ d s, proj (RoomState.set_departed d s) = proj s) →
  keeps proj (RoomState.update_membership user content room member_db).
Proof.
  intros Hidx Hms Hd. unfold RoomState.update_membership.
  pose proof (forget_displayname_keeps proj) as Hf.
  pose proof (record_displayname_keeps proj) as Hr.
  keeps; try (by apply Hf); try (by apply Hr).
  all: intros ?; first [apply Hms|apply Hd].
Qed.

Lemma prune_departed_keeps {T} (proj : RoomState.t → T) room :
  (∀ idx s, proj (RoomState.set_members_by_displayname idx s) = proj s) →
  (∀ ms s, proj (RoomState.set_members_by_id ms s) = proj s) →
  (∀ d s, proj (RoomState.set_departed d s) = proj s) →
  keeps proj (RoomState.prune_departed room).
Proof.
  intros Hidx Hms Hd. unfold RoomState.prune_departed.
  pose proof (forget_displayname_keeps proj) as Hf.
  keeps; try (by apply Hf).
  all: intros ?; first [apply Hms|apply Hd].
Qed.

End Frames.

(** ** Leaving a room *)

Tactic Notation "inv_bind" hyp(H) "as" ident(a) ident(s1) ident(H1) :=
  let o1 := fresh "out" in let o2 := fresh "out" in let Ho := fresh "Hout" in
  apply bind_Ok_inv in H as (a & s1 & o1 & o2 & H1 & H & Ho).

Section Leave.
Context `{!Externals}.

Lemma update_membership_id (m : Member.t) (content : QJsonObject) :
  Member.id (Member.update_membership m content) = Member.id m.
Proof. done. Qed.



(** X6. A leave or a ban of a user that is not a member creates no
    member: [update_membership] returns [true] and leaves the state as it
    was; it still emits [left] when the subject is the id of the room
    behind the callbacks and still deletes the key from the member
    database. *)
Theorem leave_of_stranger (user : UserID) (content : QJsonObject) (room : option RoomPtr)
    (member_db : bool) (s : RoomState.t) (membership : Membership) :
  membership_of content = Some membership →
  membership = LEAVE ∨ membership = BAN →
  RoomState.members_by_id_ s !! user = None →
  RoomState.update_membership user content room member_db s
  = (Ok true, s,
     (if match room with Some r => bool_decide (user = room_id r) | None => false end
      then [Emit (Signal.left membership)] else [])
     ++ (if member_db then [dbi_del user] else [])).
Proof.
  intros Hmembership Hleave Hnone.
  unfold RoomState.update_membership. fold (membership_of content). rewrite Hmembership.
  destruct Hleave as [-> | ->].
  all: rewrite when_tell_bind; erewrite bind_quiet by reflexivity; rewrite Hnone;
    erewrite bind_quiet by reflexivity; by destruct member_db.
Qed.


Lemma dispatch_member (evt : proto.Event) (room : option RoomPtr) (member_db : bool) :
  proto.type evt = "m.room.member" →
  RoomState.dispatch evt room member_db
  = RoomState.update_membership (proto.state_key evt) (proto.content evt) room member_db.
Proof. intros Htype. unfold RoomState.dispatch. by rewrite Htype. Qed.


End Leave.

(** ** Moving backwards *)

Section Revert.
Context `{!Externals}.

(** X8. [revert] undoes [dispatch] on the metadata: for an event of type
    canonical alias, name, topic or avatar whose previous content records
    the value that the state holds, [dispatch] followed by [revert] returns
    the state exactly as it was. *)
Theorem revert_undoes_dispatch (evt : proto.Event) (room : option RoomPtr)
    (member_db : bool) (s : RoomState.t) :
  metadata_type (proto.type evt) →
  records_state s evt →
  ∃ out, (RoomState.dispatch evt room member_db;; RoomState.revert evt) s = (Ok tt, s, out).
Proof.
  intros Htype (Halias & Hname & Htopic & Havatar).
  unfold RoomState.dispatch, RoomState.revert.
  destruct Htype as [Ht|[Ht|[Ht|Ht]]]; rewrite Ht; simpl;
    [rewrite (Halias Ht)|rewrite (Hname Ht)|rewrite (Htopic Ht)|rewrite (Havatar Ht)];
    st_unfold; destruct room; simpl; repeat case_bool_decide; simpl;
    eexists; by destruct s.
Qed.

(** X9. [revert] never changes the alias list, however it ends: it has no
    branch for [m.room.aliases], so the aliases that [dispatch] merged in
    stay. *)
Theorem revert_keeps_aliases (evt : proto.Event) (s : RoomState.t) :
  RoomState.aliases_ (RoomState.revert evt s).1.2 = RoomState.aliases_ s.
Proof.
  revert s. change (keeps RoomState.aliases_ (RoomState.revert evt)).
  unfold RoomState.revert.
  pose proof (update_membership_keeps RoomState.aliases_) as Hu.
  pose proof (prune_departed_keeps RoomState.aliases_) as Hp.
  pose proof (forget_displayname_keeps RoomState.aliases_) as Hf.
  keeps; first [by apply Hu|by apply Hp|by apply Hf].
Qed.

End Revert.

Section RevertJoin.
Context `{!Externals}.

Lemma forget_record_index (s : RoomState.t) (n : QString) (id : UserID) :
  buckets_tidy s →
  ¬ filed_under s n id →
  forget_index (RoomState.set_members_by_displayname (record_index s n id) s) n
    (default [] (RoomState.members_by_displayname_ s !! n) ++ [id]) id
  = RoomState.members_by_displayname_ s.
Proof.
  intros Htidy Hfiled. unfold forget_index, record_index. simpl.
  assert (id ∉ default [] (RoomState.members_by_displayname_ s !! n)) as Hid.
  { destruct (RoomState.members_by_displayname_ s !! n) as [vec|] eqn:Hvec; simpl;
      [|apply not_elem_of_nil].
    intros Hin. apply Hfiled. by exists vec. }
  rewrite filter_app, (filter_ne_absent _ _ Hid).
  rewrite filter_cons, decide_False by (intros Hne; by apply Hne).
  rewrite filter_nil, app_nil_r.
  destruct (RoomState.members_by_displayname_ s !! n) as [vec|] eqn:Hvec; simpl.
  - destruct (Htidy n vec Hvec) as [Hne _].
    rewrite bool_decide_eq_false_2 by done.
    by rewrite insert_insert_eq, insert_id.
  - by rewrite delete_insert_eq, delete_id.
Qed.

(** The join of a user that is not a member, without callbacks. *)
Lemma join_of_stranger_quiet (user : UserID) (content : QJsonObject) (s : RoomState.t) :
  sound s → joining content →
  RoomState.members_by_id_ s !! user = None →
  let m' := Member.update_membership (Member.of_id user) content in
  let sA := RoomState.set_members_by_id (<[user := m']> (RoomState.members_by_id_ s)) s in
  RoomState.update_membership user content None false s
  = (Ok true,
     if isEmpty (Member.display_name m') then sA
     else RoomState.set_members_by_displayname
            (record_index sA (normalized (Member.display_name m')) user) sA,
     []).
Proof.
  intros (Hids & [Hc Htidy] & Hdep) Hjoin Hnone m' sA.
  unfold RoomState.update_membership. fold (membership_of content).
  assert (∃ membership, membership_of content = Some membership
                        ∧ (membership = JOIN ∨ membership = INVITE)) as (membership & -> & Hm).
  { destruct Hjoin as [->| ->]; eauto. }
  assert (RoomState.set_members_by_id
            (<[user := m']> (RoomState.members_by_id_
               (RoomState.set_members_by_id
                  (<[user := Member.of_id user]> (RoomState.members_by_id_ s)) s)))
            (RoomState.set_members_by_id
               (<[user := Member.of_id user]> (RoomState.members_by_id_ s)) s) = sA) as HsA.
  { subst sA. unfold RoomState.set_members_by_id. simpl. by rewrite insert_insert_eq. }
  assert (∀ (b : bool) sig,
    (if bool_decide (Member.display_name m' ≠ "") then
       RoomState.forget_displayname (Member.id m') "" None;;
       RoomState.record_displayname (Member.id m') (Member.display_name m') None;;
       when (bool_decide (is_Some (@None RoomPtr)) && b) (tell (Emit sig))
     else mret tt) sA
    = (Ok tt,
       if isEmpty (Member.display_name m') then sA
       else RoomState.set_members_by_displayname
              (record_index sA (normalized (Member.display_name m')) user) sA, [])) as Hblock.
  { intros b sig. unfold isEmpty. case_bool_decide as Hname.
    - rewrite (bool_decide_eq_false_2 (Member.display_name m' = "")) by done.
      change (RoomState.forget_displayname (Member.id m') "" None)
        with (@mret (St RoomState.t) _ _ tt).
      erewrite bind_quiet by reflexivity.
      erewrite bind_quiet; [reflexivity|].
      apply record_displayname_quiet; [done|].
      intros Hfiled. change (filed_under sA ?n ?u) with (filed_under s n u) in Hfiled.
      apply Hc in Hfiled as (m & Hm' & _). simpl in Hm'. congruence.
    - by rewrite bool_decide_eq_true_2. }
  destruct (member_name_defined
              (RoomState.set_members_by_id
                 (<[user := Member.of_id user]> (RoomState.members_by_id_ s)) s)
              (Member.of_id user)) as [d Hd]; [done|].
  destruct Hm as [-> | ->].
  all: erewrite bind_quiet by reflexivity; rewrite Hnone; simpl default;
    erewrite bind_quiet by reflexivity;
    erewrite bind_quiet by (unfold lift; rewrite Hd; reflexivity);
    erewrite bind_quiet by reflexivity;
    fold m'; rewrite HsA;
    erewrite bind_quiet by apply Hblock;
    reflexivity.
Qed.

Lemma revert_member (evt : proto.Event) :
  proto.type evt = "m.room.member" →
  RoomState.revert evt
  = (RoomState.update_membership (proto.state_key evt)
       (default [] (proto.unsigned_prev_content evt)) None false;;
     RoomState.prune_departed None).
Proof. intros Htype. unfold RoomState.revert. by rewrite Htype. Qed.

(** The leave that [revert] makes of the join of a new member, followed by
    its [prune_departed]. *)
Lemma leave_after_join_quiet (user : UserID) (content : QJsonObject) (s : RoomState.t) :
  sound s → user ≠ "" →
  RoomState.members_by_id_ s !! user = None →
  let m' := Member.update_membership (Member.of_id user) content in
  let sA := RoomState.set_members_by_id (<[user := m']> (RoomState.members_by_id_ s)) s in
  (RoomState.update_membership user [] None false;; RoomState.prune_departed None)
    (if isEmpty (Member.display_name m') then sA
     else RoomState.set_members_by_displayname
            (record_index sA (normalized (Member.display_name m')) user) sA)
  = (Ok tt, s, []).
Proof.
  intros (Hids & [Hc Htidy] & Hdep) Huser Hnone m' sA.
  assert (¬ filed_under s (normalized (Member.display_name m')) user) as Hfiled.
  { intros (m & Hm & _)%Hc. congruence. }
  set (m'' := Member.update_membership m' []).
  assert (Member.display_name m'' = "") as Hname'' by done.
  assert (Member.id m'' = user) as Hid'' by done.
  unfold RoomState.update_membership. cbn [Json.empty].
  destruct (isEmpty (Member.display_name m')) eqn:Hempty.
  - apply isEmpty_true_iff in Hempty.
    erewrite bind_Ok.
    2:{ erewrite bind_quiet by reflexivity.
        erewrite bind_quiet by reflexivity.
        replace (RoomState.members_by_id_ sA !! user) with (Some m')
          by (subst sA; simpl; by rewrite lookup_insert_eq).
        cbn zeta. fold m''.
        erewrite bind_quiet.
        2:{ erewrite bind_quiet by reflexivity.
            rewrite Hname'', Hempty. rewrite bool_decide_eq_false_2 by (intros Hne; by apply Hne).
            erewrite bind_quiet by reflexivity.
            erewrite bind_quiet by reflexivity.
            erewrite bind_quiet by reflexivity.
            erewrite bind_quiet by (simpl; rewrite Hdep; reflexivity).
            reflexivity. }
        erewrite bind_quiet by reflexivity. reflexivity. }
    simpl. unfold RoomState.prune_departed.
    erewrite bind_quiet by reflexivity. simpl. rewrite isEmpty_false by done. simpl.
    erewrite bind_quiet
      by (unfold lift, RoomState.members_by_id_at; simpl; rewrite lookup_insert_eq; reflexivity).
    rewrite Hname''.
    change (RoomState.forget_displayname user "" None) with (@mret (St RoomState.t) _ _ tt).
    erewrite bind_quiet by reflexivity.
    erewrite bind_quiet by reflexivity.
    unfold modify. simpl. rewrite delete_insert_eq, delete_insert_eq, delete_id by done.
    destruct s; simpl in *. by subst.
  - apply bool_decide_eq_false in Hempty.
    set (n := normalized (Member.display_name m')) in *.
    set (vec := default [] (RoomState.members_by_displayname_ s !! n) ++ [user]).
    set (s1 := RoomState.set_members_by_displayname (record_index sA n user) sA).
    set (s2 := RoomState.set_members_by_id (<[user := m'']> (RoomState.members_by_id_ s1)) s1).
    assert (RoomState.forget_displayname user (Member.display_name m') None s2
            = (Ok tt, RoomState.set_members_by_displayname (RoomState.members_by_displayname_ s) s2,
               [])) as Hforget.
    { pose proof (forget_record_index s n user Htidy Hfiled) as Hindex.
      rewrite (forget_displayname_quiet s2 user (Member.display_name m') vec); [|done| | |].
      - by rewrite <- Hindex.
      - subst s2 s1 sA. simpl. unfold record_index. simpl. by rewrite lookup_insert_eq.
      - destruct (record_index_tidy s n user Hfiled Htidy n vec) as [_ Hnd]; [|done].
        simpl. unfold record_index. by rewrite lookup_insert_eq.
      - subst vec. apply elem_of_app. right. by apply list_elem_of_singleton. }
    erewrite bind_Ok.
    2:{ erewrite bind_quiet by reflexivity.
        erewrite bind_quiet by reflexivity.
        replace (RoomState.members_by_id_ s1 !! user) with (Some m')
          by (subst s1 sA; simpl; by rewrite lookup_insert_eq).
        cbn zeta. fold m''.
        erewrite bind_quiet.
        2:{ erewrite bind_quiet by reflexivity. fold s2.
            rewrite Hname'', Hid''.
            rewrite bool_decide_eq_true_2 by (intros Heq; by apply Hempty).
            erewrite bind_quiet.
            2:{ erewrite bind_quiet by exact Hforget.
                change (RoomState.record_displayname user "" None)
                  with (@mret (St RoomState.t) _ _ tt).
                reflexivity. }
            erewrite bind_quiet by reflexivity.
            erewrite bind_quiet by reflexivity.
            erewrite bind_quiet by (simpl; rewrite Hdep; reflexivity).
            reflexivity. }
        erewrite bind_quiet by reflexivity. reflexivity. }
    simpl. unfold RoomState.prune_departed.
    erewrite bind_quiet by reflexivity. simpl. rewrite isEmpty_false by done. simpl.
    erewrite bind_quiet
      by (unfold lift, RoomState.members_by_id_at; simpl; rewrite lookup_insert_eq; reflexivity).
    rewrite Hname''.
    change (RoomState.forget_displayname user "" None) with (@mret (St RoomState.t) _ _ tt).
    erewrite bind_quiet by reflexivity.
    erewrite bind_quiet by reflexivity.
    unfold modify. simpl. rewrite delete_insert_eq, delete_insert_eq, delete_id by done.
    destruct s; simpl in *. by subst.
Qed.

(** X10. [revert] undoes the join of a new member.  On a sound state, when
    a join or an invitation of a user who is not a member (an event without
    previous content) went through the ingestion loop, [revert] of that
    event returns, emits nothing, and gives back the state before the
    event, index included. *)
Theorem revert_undoes_join (evt : proto.Event) (room : option RoomPtr) (member_db : bool)
    (s s' : RoomState.t) (out : list Effect) :
  sound s →
  proto.type evt = "m.room.member" →
  proto.state_key evt ≠ "" →
  proto.unsigned_prev_content evt = None →
  joining (proto.content evt) →
  RoomState.members_by_id_ s !! proto.state_key evt = None →
  ingest_event room member_db evt s = (Ok tt, s', out) →
  RoomState.revert evt s' = (Ok tt, s, []).
Proof.
  intros Hs Htype Hkey Hprev Hjoin Hnone Hrun.
  destruct (ingest_event_refines room member_db false evt _ _ _ _ Hrun) as [out' Hquiet].
  unfold ingest_event in Hquiet. rewrite dispatch_member in Hquiet by done.
  rewrite (bind_quiet _ _ _ _ _ (join_of_stranger_quiet _ _ s Hs Hjoin Hnone)) in Hquiet.
  rewrite revert_member, Hprev by done. simpl default.
  match type of Hquiet with RoomState.prune_departed None ?st = _ =>
    assert (RoomState.prune_departed None st = (Ok tt, st, [])) as Hprune
  end.
  { unfold RoomState.prune_departed. erewrite bind_quiet by reflexivity.
    destruct Hs as (_ & _ & Hdep). by destruct (isEmpty _); simpl; rewrite Hdep. }
  rewrite Hprune in Hquiet. injection Hquiet as <- _.
  by apply leave_after_join_quiet.
Qed.

End RevertJoin.

(** ** Members that left before the window *)

Section EnsureMember.
Context `{!Externals}.

Lemma record_displayname_members id name room s :
  RoomState.members_by_id_ (RoomState.record_displayname id name room s).1.2
  = RoomState.members_by_id_ s.
Proof. by apply (record_displayname_keeps RoomState.members_by_id_). Qed.

Lemma ensure_member_present (e : proto.Event) (s : RoomState.t) :
  is_Some (RoomState.members_by_id_ s !! proto.state_key e) →
  RoomState.ensure_member e s = (Ok tt, s, []).
Proof.
  intros [m Hm]. unfold RoomState.ensure_member.
  case_bool_decide; [done|].
  destruct (parse_membership _) as [[| | |]|]; try done.
  all: erewrite bind_quiet by reflexivity; by rewrite Hm.
Qed.

Lemma ensure_member_stores (e : proto.Event) (s s' : RoomState.t) (out : list Effect) :
  RoomState.ensure_member e s = (Ok tt, s', out) →
  (s' = s ∧ out = []) ∨ is_Some (RoomState.members_by_id_ s' !! proto.state_key e).
Proof.
  unfold RoomState.ensure_member.
  case_bool_decide; [intros [= <- <-]; by left|].
  destruct (parse_membership _) as [[| | |]|]; try (intros [= <- <-]; by left).
  all: erewrite bind_quiet by reflexivity;
    destruct (RoomState.members_by_id_ s !! proto.state_key e) as [m|];
    [intros [= <- <-]; by left|];
    erewrite bind_quiet by reflexivity;
    erewrite bind_quiet by reflexivity;
    intros Hrecord; right;
    match type of Hrecord with RoomState.record_displayname ?i ?n ?r ?st = _ =>
      pose proof (record_displayname_members i n r st) as Hms
    end;
    rewrite Hrecord in Hms; simpl in Hms; rewrite Hms, lookup_insert_eq; by eexists.
Qed.

(** X11. [ensure_member] is idempotent: running it twice on the same event
    ends as running it once does, with the same state and the same
    effects. *)
Theorem ensure_member_idempotent (e : proto.Event) (s : RoomState.t) :
  (RoomState.ensure_member e;; RoomState.ensure_member e) s = RoomState.ensure_member e s.
Proof.
  unfold mbind, St_bind, bind.
  destruct (RoomState.ensure_member e s) as [[[[]|exn] s1] out1] eqn:Hfirst; [|done].
  destruct (ensure_member_stores _ _ _ _ Hfirst) as [[-> ->]|Hpresent].
  - by rewrite Hfirst.
  - rewrite (ensure_member_present _ _ Hpresent). by rewrite app_nil_r.
Qed.

Lemma departed_member_id (e : proto.Event) :
  Member.id (departed_member e) = proto.state_key e.
Proof. unfold departed_member. by destruct (proto.unsigned_prev_content e). Qed.

(** X12. On a sound state [ensure_member] always returns, without effects,
    and leaves a sound state with the same metadata; it changes no existing
    member, and adds at most the subject of the event, with the record read
    from the previous content and the content. *)
Theorem ensure_member_sound (e : proto.Event) (s : RoomState.t) :
  sound s →
  ∃ s', RoomState.ensure_member e s = (Ok tt, s', [])
        ∧ sound s'
        ∧ same_metadata s s'
        ∧ (RoomState.members_by_id_ s' = RoomState.members_by_id_ s
           ∨ (RoomState.members_by_id_ s !! proto.state_key e = None
              ∧ RoomState.members_by_id_ s'
                = <[proto.state_key e := departed_member e]> (RoomState.members_by_id_ s))).
Proof.
  intros Hs.
  assert (∃ s', (Ok tt, s, @nil Effect) = (Ok tt, s', [])
        ∧ sound s'
        ∧ same_metadata s s'
        ∧ (RoomState.members_by_id_ s' = RoomState.members_by_id_ s
           ∨ (RoomState.members_by_id_ s !! proto.state_key e = None
              ∧ RoomState.members_by_id_ s'
                = <[proto.state_key e := departed_member e]> (RoomState.members_by_id_ s))))
    as Hnoop.
  { exists s. split; [done|]. split; [done|]. split; [done|]. by left. }
  unfold RoomState.ensure_member.
  case_bool_decide; [done|].
  destruct (parse_membership _) as [[| | |]|]; try done.
  all: erewrite bind_quiet by reflexivity;
    destruct (RoomState.members_by_id_ s !! proto.state_key e) as [m|] eqn:Hnone; [done|].
  all: clear Hnoop; destruct Hs as (Hids & Hc & Hdep);
    erewrite bind_quiet by reflexivity;
    erewrite bind_quiet by reflexivity;
    fold (departed_member e);
    pose proof (complete_tracks s (proto.state_key e) (departed_member e) Hc) as Htracks;
    rewrite Hnone in Htracks; simpl in Htracks;
    destruct (rename_quiet _ _ _ (Member.display_name (departed_member e)) Htracks)
      as (idx & Hr & Ht);
    change (RoomState.forget_displayname (proto.state_key e) "" None)
      with (@mret (St RoomState.t) _ _ tt) in Hr;
    erewrite bind_quiet in Hr by reflexivity;
    rewrite departed_member_id;
    eexists; (split; [simpl; rewrite insert_insert_eq; exact Hr|]);
    (split; [|split; [done|right; by split]]);
    (split; [|split; [|done]]);
    [intros u m0; simpl;
     intros [[<- <-]|[Hne Hm0]]%lookup_insert_Some; [apply departed_member_id|by apply Hids]
    |eapply tracks_complete; [|exact Ht]; simpl; by rewrite lookup_insert_eq].
Qed.

End EnsureMember.

(** ** The name of a room *)

Lemma ltb_irrefl (a : string) : String.ltb a a = false.
Proof.
  unfold String.ltb. pose proof (String.compare_antisym a a) as Hanti.
  destruct (String.compare a a); simpl in Hanti; congruence.
Qed.

Lemma ltb_trans (a b c : string) :
  String.ltb a b = true → String.ltb b c = true → String.ltb a c = true.
Proof.
  unfold String.ltb. intros Hab Hbc.
  assert (OrderedTypeEx.String_as_OT.lt a c) as Hac.
  { apply (OrderedTypeEx.String_as_OT.lt_trans a b c);
      apply OrderedTypeEx.String_as_OT.cmp_lt;
      unfold OrderedTypeEx.String_as_OT.cmp.
    - by destruct (String.compare a b).
    - by destruct (String.compare b c). }
  apply OrderedTypeEx.String_as_OT.cmp_lt in Hac.
  unfold OrderedTypeEx.String_as_OT.cmp in Hac. by rewrite Hac.
Qed.

Lemma ltb_total (a b : string) :
  String.ltb a b = false → String.ltb b a = false → a = b.
Proof.
  unfold String.ltb. intros Hab Hba. apply String.compare_eq_iff.
  rewrite (String.compare_antisym b a) in Hba.
  destruct (String.compare a b); simpl in *; congruence.
Qed.

Lemma extract_min_spec (ms : list Member.t) (a m : Member.t) (rest : list Member.t) :
  RoomState.extract_min a ms = (m, rest) →
  a :: ms ≡ₚ m :: rest ∧ least_id m (a :: ms).
Proof.
  revert a m rest. induction ms as [|b ms IH]; intros a m rest; simpl.
  { intros [= <- <-]. split; [done|]. split; [by left|].
    intros x ->%list_elem_of_singleton. apply ltb_irrefl. }
  destruct (RoomState.id_lt b a) eqn:Hba.
  - destruct (RoomState.extract_min b ms) as [m0 rest0] eqn:Hrec. intros [= <- <-].
    destruct (IH _ _ _ Hrec) as (Hperm & Hin & Hleast).
    split; [by rewrite Hperm, Permutation_swap|].
    split; [by right|].
    intros x [->|Hx]%elem_of_cons; [|by apply Hleast].
    destruct (RoomState.id_lt a m0) eqn:Ham; [|done].
    rewrite <- (Hleast b ltac:(by left)). symmetry.
    by apply (ltb_trans _ (Member.id a)).
  - destruct (RoomState.extract_min a ms) as [m0 rest0] eqn:Hrec. intros [= <- <-].
    destruct (IH _ _ _ Hrec) as (Hperm & Hin & Hleast).
    split.
    { rewrite (Permutation_swap b a ms), Hperm. apply Permutation_swap. }
    split.
    { apply elem_of_cons in Hin as [->|Hin]; [by left|]. right. by right. }
    intros x [->|[->|Hx]%elem_of_cons]%elem_of_cons.
    + by apply Hleast; left.
    + destruct (RoomState.id_lt b m0) eqn:Hbm; [|done].
      pose proof (Hleast a ltac:(by left)) as Ham.
      destruct (RoomState.id_lt a b) eqn:Hab.
      * rewrite <- Ham. symmetry. by apply (ltb_trans _ (Member.id b)).
      * unfold RoomState.id_lt in *. rewrite (ltb_total _ _ Hab Hba) in Ham. congruence.
    + apply Hleast. by right.
Qed.

Lemma least_id_unique (ms : list Member.t) (m m' : Member.t) :
  NoDup (Member.id <$> ms) → least_id m ms → least_id m' ms → m = m'.
Proof.
  intros Hnd [Hin Hleast] [Hin' Hleast'].
  pose proof (ltb_total _ _ (Hleast' m Hin) (Hleast m' Hin')) as Hid.
  apply list_elem_of_lookup in Hin as [i Hi]. apply list_elem_of_lookup in Hin' as [j Hj].
  assert (i = j) as ->; [|congruence].
  eapply NoDup_lookup; [done| |]; rewrite list_lookup_fmap.
  - by rewrite Hi.
  - rewrite Hj. simpl. by rewrite Hid.
Qed.

Lemma least_id_perm (ms ms' : list Member.t) (m : Member.t) :
  ms ≡ₚ ms' → least_id m ms → least_id m ms'.
Proof.
  intros Hperm [Hin Hleast]. split; [by rewrite <- Hperm|].
  intros x Hx. apply Hleast. by rewrite Hperm.
Qed.

(** What [std::partial_sort] guarantees about the first two places. *)
Lemma partial_sort_2_spec (ms : list Member.t) :
  (2 ≤ length ms)%nat →
  ∃ m0 m1 rest, RoomState.partial_sort_2 ms = m0 :: m1 :: rest
                ∧ ms ≡ₚ m0 :: m1 :: rest
                ∧ least_id m0 ms ∧ least_id m1 (m1 :: rest).
Proof.
  destruct ms as [|a ms]; simpl; [lia|]. intros Hlen.
  destruct (RoomState.extract_min a ms) as [m0 rest0] eqn:Hmin0.
  destruct (extract_min_spec _ _ _ _ Hmin0) as [Hperm0 Hleast0].
  destruct rest0 as [|b rest0].
  { apply Permutation_length in Hperm0. simpl in *. lia. }
  destruct (RoomState.extract_min b rest0) as [m1 rest1] eqn:Hmin1.
  destruct (extract_min_spec _ _ _ _ Hmin1) as [Hperm1 Hleast1].
  exists m0, m1, rest1. split; [done|]. split; [by rewrite Hperm0, Hperm1|].
  split; [done|]. by apply (least_id_perm _ _ _ Hperm1).
Qed.

Lemma partial_sort_2_perm (ms ms' : list Member.t) :
  NoDup (Member.id <$> ms) → ms ≡ₚ ms' → (2 ≤ length ms)%nat →
  ∃ m0 m1 rest rest',
    RoomState.partial_sort_2 ms = m0 :: m1 :: rest
    ∧ RoomState.partial_sort_2 ms' = m0 :: m1 :: rest'
    ∧ length rest = length rest'.
Proof.
  intros Hnd Hperm Hlen.
  destruct (partial_sort_2_spec ms Hlen) as (m0 & m1 & rest & Hsort & Hp & Hl0 & Hl1).
  destruct (partial_sort_2_spec ms') as (m0' & m1' & rest' & Hsort' & Hp' & Hl0' & Hl1').
  { by rewrite <- Hperm. }
  assert (m0' = m0) as ->.
  { apply (least_id_unique ms); [done| |done]. by apply (least_id_perm ms'). }
  assert (m1 :: rest ≡ₚ m1' :: rest') as Hrest.
  { apply (Permutation_cons_inv (a := m0)). by rewrite <- Hp, <- Hp', Hperm. }
  assert (m1' = m1) as ->.
  { apply (least_id_unique (m1 :: rest)); [| |done].
    - rewrite Hp in Hnd. rewrite fmap_cons in Hnd. by apply NoDup_cons in Hnd as [_ ?].
    - by apply (least_id_perm (m1' :: rest')). }
  exists m0, m1, rest, rest'. split; [done|]. split; [done|].
  apply Permutation_length in Hrest. simpl in Hrest. lia.
Qed.

Section PrettyName.
Context `{!Externals} `{!Translations}.

Lemma pretty_name_of_members_perm (s : RoomState.t) (own : UserID) (ms ms' : list Member.t) :
  NoDup (Member.id <$> ms) → ms ≡ₚ ms' →
  RoomState.pretty_name_of_members s own ms = RoomState.pretty_name_of_members s own ms'.
Proof.
  intros Hnd Hperm. unfold RoomState.pretty_name_of_members.
  set (P := fun m => Member.id m ≠ own).
  assert (filter P ms ≡ₚ filter P ms') as Hf by by rewrite Hperm.
  assert (NoDup (Member.id <$> filter P ms)) as Hndf.
  { eapply sublist_NoDup; [done|]. apply fmap_sublist, sublist_filter. }
  pose proof (Permutation_length Hf) as Hlen.
  destruct (decide (2 ≤ length (filter P ms))%nat) as [Hge|Hlt].
  - rewrite !bool_decide_eq_true_2 by lia.
    destruct (partial_sort_2_perm _ _ Hndf Hf Hge) as (m0 & m1 & rest & rest' & -> & -> & Hl).
    destruct rest, rest'; simpl in Hl; try lia; [done|]. simpl. by rewrite Hl.
  - rewrite !bool_decide_eq_false_2 by lia.
    destruct (filter P ms) as [|a [|b l]] eqn:Hl; simpl in *; [| |lia].
    + apply Permutation_nil_l in Hf. by rewrite <- Hf.
    + apply Permutation_singleton_l in Hf. by rewrite <- Hf.
Qed.

Lemma members_ids (s : RoomState.t) :
  ids_match s → Member.id <$> RoomState.members s = (map_to_list (RoomState.members_by_id_ s)).*1.
Proof.
  intros Hids. unfold RoomState.members. rewrite <- list_fmap_compose.
  apply list_fmap_ext. intros i [u m] Hi. simpl.
  apply Hids. apply elem_of_map_to_list. by eapply list_elem_of_lookup_2.
Qed.

(** X13. [pretty_name] does not depend on the iteration order of the member
    map: from any enumeration of the stored members the name built from the
    members is the same, because only the two smallest ids and the number
    of members are read after the partial sort. *)
Theorem pretty_name_order_independent (s : RoomState.t) (own : UserID) (ms : list Member.t) :
  ids_match s →
  ms ≡ₚ RoomState.members s →
  RoomState.pretty_name_of_members s own ms
  = RoomState.pretty_name_of_members s own (RoomState.members s).
Proof.
  intros Hids Hperm. symmetry. apply pretty_name_of_members_perm; [|done].
  rewrite members_ids by done. apply NoDup_fst_map_to_list.
Qed.

Lemma member_name_of_member (s : RoomState.t) (m : Member.t) :
  ids_match s → name_index_complete s → m ∈ RoomState.members s →
  ∃ d, RoomState.member_name s m = Ok d.
Proof.
  intros Hids [Hc _] Hin. apply member_name_defined. intros Hname.
  unfold RoomState.members in Hin.
  apply list_elem_of_fmap in Hin as ([u m0] & -> & Hin). simpl in *.
  apply elem_of_map_to_list in Hin.
  destruct (proj2 (Hc (normalized (Member.display_name m0)) u)) as (vec & Hvec & _).
  - by exists m0.
  - by exists vec.
Qed.

Lemma state_pretty_name_defined (s : RoomState.t) (own : UserID) :
  ids_match s → name_index_complete s →
  ∃ n, RoomState.pretty_name s own = Ok n.
Proof.
  intros Hids Hc. unfold RoomState.pretty_name.
  destruct (negb (isEmpty (RoomState.name_ s))); [by eexists|].
  destruct (negb (isEmpty (RoomState.canonical_alias_ s))); [by eexists|].
  destruct (RoomState.aliases_ s); [|by eexists].
  unfold RoomState.pretty_name_of_members.
  set (ms := filter (fun m => Member.id m ≠ own) (RoomState.members s)).
  assert (∀ m, m ∈ ms → ∃ d, RoomState.member_name s m = Ok d) as Hnames.
  { intros m [_ Hm]%list_elem_of_filter. by apply member_name_of_member. }
  assert (∃ ms', (if bool_decide (1 < length ms)%nat then RoomState.partial_sort_2 ms else ms)
                 = ms' ∧ ms ≡ₚ ms') as (ms' & -> & Hperm).
  { case_bool_decide as Hlen; [|by exists ms].
    destruct (partial_sort_2_spec ms) as (m0 & m1 & rest & -> & Hp & _); [lia|].
    by eexists. }
  assert (∀ m, m ∈ ms' → ∃ d, RoomState.member_name s m = Ok d) as Hnames'.
  { intros m Hm. apply Hnames. by rewrite Hperm. }
  destruct ms' as [|m0 [|m1 [|m2 rest]]]; [by eexists..| |].
  - destruct (Hnames' m0) as [d0 ->]; [by left|].
    destruct (Hnames' m1) as [d1 ->]; [by right; left|]. by eexists.
  - destruct (Hnames' m0) as [d0 ->]; [by left|]. by eexists.
Qed.

(** X14. When every member is stored under its own id and the index files
    every member that has a display name, [Room::pretty_name] returns a
    name: the checked lookup behind [member_name] cannot raise. *)
Theorem pretty_name_defined (r : Room.t) :
  ids_match (Room.state_ r) → name_index_complete (Room.state_ r) →
  ∃ n, Room.pretty_name r = Ok n.
Proof. apply state_pretty_name_defined. Qed.

End PrettyName.

(** ** The receipt index *)

Lemma elem_of_filter_ne (vec : list UserID) (user u : UserID) :
  u ∈ filter (fun p => p ≠ user) vec ↔ u ≠ user ∧ u ∈ vec.
Proof. by rewrite list_elem_of_filter. Qed.

Lemma update_receipt_consistent (user : UserID) (event : EventID) (ts : Z) (r : Room.t) :
  receipts_consistent r → receipts_consistent (Room.update_receipt user event ts r).
Proof.
  intros [Hc Hnd].
  unfold Room.receipts_for, Room.receipt_from in Hc.
  set (bu := Room.receipts_by_user_ r) in *. set (be := Room.receipts_by_event_ r) in *.
  (* the index after the old entry of the user is removed *)
  set (be1 := match bu !! user with
              | Some old =>
                  match be !! receipt_event old with
                  | Some vec => <[receipt_event old := filter (fun p => p ≠ user) vec]> be
                  | None => be
                  end
              | None => be
              end).
  assert (∀ e u, u ∈ default [] (be1 !! e) ↔ u ≠ user ∧ u ∈ default [] (be !! e)) as H1.
  { intros e u. subst be1. destruct (bu !! user) as [old|] eqn:Hold.
    - destruct (be !! receipt_event old) as [vec|] eqn:Hvec.
      + destruct (decide (e = receipt_event old)) as [->|Hne].
        * rewrite lookup_insert_eq, Hvec. simpl. apply elem_of_filter_ne.
        * rewrite lookup_insert_ne by done. split; [|by intros [_ ?]].
          intros Hu. split; [|done]. intros ->.
          apply Hc in Hu as (rc & Hrc & He). congruence.
      + split; [|by intros [_ ?]]. intros Hu. split; [|done]. intros ->.
        pose proof Hu as (rc & Hrc & <-)%Hc. rewrite Hold in Hrc. injection Hrc as <-.
        rewrite Hvec in Hu. by apply elem_of_nil in Hu.
    - split; [|by intros [_ ?]]. intros Hu. split; [|done]. intros ->.
      apply Hc in Hu as (rc & Hrc & _). congruence. }
  assert (∀ e vec, be1 !! e = Some vec → NoDup vec) as Hnd1.
  { intros e vec. subst be1. destruct (bu !! user) as [old|]; [|apply Hnd].
    destruct (be !! receipt_event old) as [vec0|] eqn:Hvec; [|apply Hnd].
    intros [[<- <-]|[_ Hv]]%lookup_insert_Some; [|by eapply Hnd].
    apply NoDup_filter. by eapply Hnd. }
  assert (Room.receipts_by_event_ (Room.update_receipt user event ts r)
          = <[event := default [] (be1 !! event) ++ [user]]> be1) as Hbe.
  { unfold Room.update_receipt. subst be1. fold bu be.
    destruct (bu !! user) as [old|]; [|done].
    by destruct (be !! receipt_event old). }
  assert (Room.receipts_by_user_ (Room.update_receipt user event ts r)
          = <[user := {| receipt_event := event; receipt_ts := ts |}]> bu) as Hbu.
  { unfold Room.update_receipt. fold bu be.
    destruct (bu !! user) as [old|]; [|done].
    by destruct (be !! receipt_event old). }
  split.
  - intros u e. unfold Room.receipts_for, Room.receipt_from. rewrite Hbe, Hbu.
    destruct (decide (e = event)) as [->|He].
    + rewrite lookup_insert_eq. simpl. rewrite elem_of_app, list_elem_of_singleton, H1.
      destruct (decide (u = user)) as [->|Hu].
      * rewrite lookup_insert_eq. split; [|by right]. intros _. by eexists.
      * rewrite lookup_insert_ne by done. rewrite Hc. tauto.
    + rewrite lookup_insert_ne by done. rewrite H1.
      destruct (decide (u = user)) as [->|Hu].
      * rewrite lookup_insert_eq. split; [by intros [? _]|].
        intros (rc & [= <-] & Hev). done.
      * rewrite lookup_insert_ne by done. rewrite Hc. tauto.
  - intros e vec. rewrite Hbe.
    intros [[<- <-]|[_ Hv]]%lookup_insert_Some; [|by eapply Hnd1].
    apply NoDup_app. split_and!.
    + destruct (be1 !! event) as [v|] eqn:Hv; simpl; [by eapply Hnd1|apply NoDup_nil_2].
    + intros x Hx ->%list_elem_of_singleton. by apply H1 in Hx as [? _].
    + apply NoDup_singleton.
Qed.

(** X15. [update_receipt] moves a receipt.  On consistent receipt maps it
    leaves consistent maps in which the user's receipt is the new one, the
    user is listed under the new event and under no other, and the receipt
    and the listings of every other user are unchanged. *)
Theorem update_receipt_moves (user : UserID) (event : EventID) (ts : Z) (r : Room.t) :
  receipts_consistent r →
  let r' := Room.update_receipt user event ts r in
  receipts_consistent r'
  ∧ Room.receipt_from r' user = Some {| receipt_event := event; receipt_ts := ts |}
  ∧ (∀ e, user ∈ Room.receipts_for r' e ↔ e = event)
  ∧ (∀ u, u ≠ user →
          Room.receipt_from r' u = Room.receipt_from r u
          ∧ ∀ e, u ∈ Room.receipts_for r' e ↔ u ∈ Room.receipts_for r e).
Proof.
  intros Hr r'.
  pose proof (update_receipt_consistent user event ts r Hr) as Hr'. fold r' in Hr'.
  assert (∀ u, Room.receipt_from r' u
               = <[user := {| receipt_event := event; receipt_ts := ts |}]>
                   (Room.receipts_by_user_ r) !! u) as Hfrom.
  { intros u. unfold Room.receipt_from. subst r'. by rewrite update_receipt_by_user. }
  split; [done|]. split; [by rewrite Hfrom, lookup_insert_eq|]. split.
  - intros e. rewrite (proj1 Hr'), Hfrom, lookup_insert_eq. split.
    + by intros (rc & [= <-] & <-).
    + intros ->. by eexists.
  - intros u Hu. rewrite Hfrom, lookup_insert_ne by done. split; [done|].
    intros e. rewrite (proj1 Hr'), (proj1 Hr), Hfrom. by rewrite lookup_insert_ne.
Qed.

(** ** Properties of a room that its methods keep *)

Lemma preserves_ret {S A} (P : S → Prop) (a : A) : preserves P (mret a).
Proof. by intros s. Qed.

Lemma preserves_bind {S A B} (P : S → Prop) (m : St S A) (f : A → St S B) :
  preserves P m → (∀ a, preserves P (f a)) → preserves P (m ≫= f).
Proof.
  intros Hm Hf s HP. unfold mbind, St_bind, bind. specialize (Hm s HP).
  destruct (m s) as [[[a|e] s1] out1]; [|done].
  specialize (Hf a s1 Hm). by destruct (f a s1) as [[r s2] out2].
Qed.

Lemma preserves_for_each {S A} (P : S → Prop) (l : list A) (body : A → St S unit) :
  (∀ x, preserves P (body x)) → preserves P (for_each l body).
Proof.
  intros Hbody. induction l as [|x l IH]; [by intros s|].
  simpl. by apply (preserves_bind P (body x) (fun _ => for_each l body)).
Qed.

Lemma preserves_on_field {S T A} (P : S → Prop) (proj : S → T) (upd : T → S → S)
    (m : St T A) :
  (∀ t s, P s → P (upd t s)) → preserves P (on_field proj upd m).
Proof.
  intros Hupd s HP. unfold on_field. destruct (m (proj s)) as [[r t'] out]. by apply Hupd.
Qed.

Ltac preserves :=
  repeat first
    [ apply preserves_ret
    | apply preserves_bind; [|intros ?]
    | apply preserves_for_each; intros ?
    | apply preserves_on_field; intros ? ? ?; assumption
    | progress unfold when, emit, assert, Room.on_state, Room.on_initial_state
    | match goal with
      | |- preserves _ (if ?b then _ else _) => destruct b
      | |- preserves _ (match ?x with _ => _ end) => destruct x
      | |- preserves _ get => intros ? ?; assumption
      | |- preserves _ (tell _) => intros ? ?; assumption
      | |- preserves _ (raise _) => intros ? ?; assumption
      | |- preserves _ (lift _) => intros ? ?; assumption
      | |- preserves _ (ret _) => intros ? ?; assumption
      | |- preserves _ (modify _) => intros ? ?; assumption
      end ].

Lemma receipts_consistent_fresh (id : QString) (session : Session.t) :
  receipts_consistent (Room.fresh id session).
Proof.
  split.
  - intros u e. unfold Room.receipts_for, Room.receipt_from. simpl.
    rewrite !lookup_empty. simpl. split; [by intros ?%elem_of_nil|by intros (? & ? & _)].
  - intros e vec. simpl. by rewrite lookup_empty.
Qed.

Section ReceiptIndex.
Context `{!Externals}.

Lemma update_receipt_m_consistent user event ts :
  preserves receipts_consistent (Room.update_receipt_m user event ts).
Proof.
  unfold Room.update_receipt_m. apply preserves_bind; [by intros ? ?|].
  intros _ r Hr. by apply update_receipt_consistent.
Qed.

Lemma dispatch_timeline_events_consistent events touched :
  preserves receipts_consistent (Room.dispatch_timeline_events events touched).
Proof.
  revert touched. induction events as [|evt events IH]; intros touched; simpl.
  { by intros ? ?. }
  apply preserves_bind; [|intros ?; apply IH].
  unfold Room.dispatch_timeline_event. preserves.
Qed.

Lemma evict_consistent turns : preserves receipts_consistent (Room.evict turns).
Proof.
  induction turns as [|turns IH]; simpl; [by intros ? ?|].
  apply preserves_bind; [by intros ? ?|]. intros r.
  destruct (Room.buffer_ r); [by intros ? ?|].
  case_bool_decide; [|by intros ? ?].
  apply preserves_bind; [|intros _; apply IH].
  unfold Room.evict_front. preserves.
Qed.

Lemma dispatch_ephemeral_event_consistent evt :
  preserves receipts_consistent (Room.dispatch_ephemeral_event evt).
Proof.
  unfold Room.dispatch_ephemeral_event.
  preserves. intros r Hr. by apply update_receipt_consistent.
Qed.

(** X16. [Room::dispatch] keeps the two receipt maps consistent, however
    it ends. *)
Theorem dispatch_keeps_receipts_consistent (joined : proto.JoinedRoom) (r : Room.t) :
  receipts_consistent r → receipts_consistent (Room.dispatch joined r).1.2.
Proof.
  revert r. change (preserves receipts_consistent (Room.dispatch joined)).
  unfold Room.dispatch.
  pose proof dispatch_timeline_events_consistent.
  pose proof evict_consistent.
  pose proof dispatch_ephemeral_event_consistent.
  preserves; done.
Qed.

(** X17. The constructor of [Room] leaves consistent receipt maps,
    whatever the persisted object holds and however it ends. *)
Theorem of_json_receipts_consistent (id : QString) (session : Session.t)
    (initial : QJsonObject) (member_db : list (UserID * QJsonObject)) :
  receipts_consistent (Room.of_json id session initial member_db).1.2.
Proof.
  unfold Room.of_json.
  pose proof (receipts_consistent_fresh id session) as Hfresh.
  revert Hfresh. generalize (Room.fresh id session).
  change (preserves receipts_consistent (Room.load initial member_db)).
  unfold Room.load, Room.load_event, Room.load_receipt.
  preserves.
  - unfold Room.assign_initial_state. intros r Hr.
    by destruct (RoomState.of_json _ _) as [[[[]|e] st] out].
  - intros r Hr. by apply update_receipt_consistent.
Qed.

End ReceiptIndex.

(** ** The timeline buffer *)

Lemma for_each_app {S A} (l1 l2 : list A) (body : A → St S unit) (s : S) :
  for_each (l1 ++ l2) body s = (for_each l1 body;; for_each l2 body) s.
Proof.
  revert s. induction l1 as [|x l1 IH]; intros s; simpl.
  - unfold mbind, St_bind, bind, ret. by destruct (for_each l2 body s) as [[? ?] ?].
  - unfold mbind, St_bind, bind in *.
    destruct (body x s) as [[[[]|e] s1] out1]; [|done].
    rewrite IH. destruct (for_each l1 body s1) as [[[[]|e] s2] out2]; [|done].
    destruct (for_each l2 body s2) as [[r3 s3] out3]. by rewrite app_assoc.
Qed.

Lemma on_back_app (f : TimelineBatch → TimelineBatch) (buffer : list TimelineBatch)
    (batch : TimelineBatch) :
  Room.on_back f (buffer ++ [batch]) = buffer ++ [f batch].
Proof.
  unfold Room.on_back. rewrite length_app. simpl.
  replace (pred (length buffer + 1)) with (length buffer + 0)%nat by lia.
  by rewrite alter_app_r.
Qed.

Lemma on_back_nil (f : TimelineBatch → TimelineBatch) : Room.on_back f [] = [].
Proof. done. Qed.

Lemma on_back_snoc (f : TimelineBatch → TimelineBatch) (buffer : list TimelineBatch) :
  buffer ≠ [] →
  ∃ front back, buffer = front ++ [back] ∧ Room.on_back f buffer = front ++ [f back].
Proof.
  induction buffer as [|back front _] using rev_ind; [done|]. intros _.
  exists front, back. split; [done|]. apply on_back_app.
Qed.

Lemma buffer_size_of_buffered (buffer : list TimelineBatch) :
  Room.buffer_size_of buffer = length (buffered buffer).
Proof.
  unfold Room.buffer_size_of, buffered.
  enough (∀ n, foldl (fun r x => (r + length (batch_events x))%nat) n buffer
               = (n + length (concat (map batch_events buffer)))%nat) as -> by done.
  induction buffer as [|b buffer IH]; intros n; simpl; [lia|].
  rewrite IH, length_app. lia.
Qed.

Lemma push_events_nil (batch : TimelineBatch) : push_events [] batch = batch.
Proof. destruct batch. unfold push_events. simpl. by rewrite app_nil_r. Qed.

Lemma push_events_push (l1 l2 : list proto.Event) (batch : TimelineBatch) :
  push_events l2 (push_events l1 batch) = push_events (l1 ++ l2) batch.
Proof. unfold push_events. simpl. by rewrite app_assoc. Qed.

Lemma on_back_ext (f g : TimelineBatch → TimelineBatch) (buffer : list TimelineBatch) :
  (∀ batch, f batch = g batch) → Room.on_back f buffer = Room.on_back g buffer.
Proof. intros Hfg. unfold Room.on_back. by apply list_alter_ext. Qed.

Lemma on_back_id (buffer : list TimelineBatch) : Room.on_back (push_events []) buffer = buffer.
Proof.
  unfold Room.on_back. apply list_alter_id. apply push_events_nil.
Qed.

Lemma on_back_on_back (f g : TimelineBatch → TimelineBatch) (buffer : list TimelineBatch) :
  Room.on_back f (Room.on_back g buffer) = Room.on_back (f ∘ g) buffer.
Proof. unfold Room.on_back. by rewrite length_alter, list_alter_alter_eq. Qed.

Lemma buffered_app (b1 b2 : list TimelineBatch) :
  buffered (b1 ++ b2) = buffered b1 ++ buffered b2.
Proof. unfold buffered. by rewrite map_app, concat_app. Qed.

Lemma events_on_back (f : TimelineBatch → TimelineBatch) (buffer : list TimelineBatch) :
  (∀ batch, batch_events (f batch) = batch_events batch) →
  map batch_events (Room.on_back f buffer) = map batch_events buffer.
Proof.
  intros Hf. destruct (decide (buffer = [])) as [->|Hne]; [done|].
  destruct (on_back_snoc f buffer Hne) as (front & back & -> & ->).
  rewrite !map_app. simpl. by rewrite Hf.
Qed.

Lemma later_batches_nonempty_events (b1 b2 : list TimelineBatch) :
  map batch_events b1 = map batch_events b2 →
  later_batches_nonempty b1 → later_batches_nonempty b2.
Proof.
  unfold later_batches_nonempty. intros Hmap Hb1.
  assert (map batch_events (tail b1) = map batch_events (tail b2)) as Htail.
  { destruct b1, b2; simpl in *; congruence. }
  clear Hmap. revert Htail Hb1. generalize (tail b1) (tail b2). clear.
  induction l as [|x l IH]; intros [|y l'] Hmap; simpl in *; try done.
  injection Hmap as Hx Hl. intros [Hne Hall]%Forall_cons. constructor; [congruence|eauto].
Qed.

Lemma later_batches_nonempty_drop (k : nat) (buffer : list TimelineBatch) :
  later_batches_nonempty buffer → later_batches_nonempty (drop k buffer).
Proof.
  unfold later_batches_nonempty. intros Hb.
  assert (∀ l : list TimelineBatch, tail l = drop 1 l) as Htail by (by intros []).
  rewrite !Htail in *. rewrite drop_drop. replace (k + 1)%nat with (1 + k)%nat by lia.
  rewrite <- drop_drop. by apply Forall_drop.
Qed.

Section Timeline.
Context `{!Externals}.

Lemma dispatch_returns_touches (evt : proto.Event) (room : option RoomPtr) (member_db : bool) :
  returns (RoomState.dispatch evt room member_db) (fun b => b = touches_state evt).
Proof.
  intros s b s' out Hrun.
  destruct (touches_state evt) eqn:Ht.
  2:{ rewrite dispatch_untouched in Hrun by done. by injection Hrun as <- _. }
  revert Ht Hrun. unfold touches_state, RoomState.dispatch.
  case_bool_decide; [done|].
  repeat (case_bool_decide;
          [intros _ Hrun;
           repeat (apply bind_Ok_inv in Hrun as (? & ? & ? & ? & _ & Hrun & _));
           by injection Hrun as <- _|]).
  case_bool_decide; [done|]. case_bool_decide; [|done]. intros Ht Hrun.
  destruct (if Json.empty (proto.content evt) then Some LEAVE
            else parse_membership (Json.toString (Json.value (proto.content evt) "membership")))
    as [membership|] eqn:Hm.
  - by eapply update_membership_returns_true.
  - destruct (Json.empty _); [done|]. rewrite Hm in Ht. by simpl in Ht.
Qed.

(** A timeline event that goes through: the state takes a step of the
    ingestion loop and the event joins the last batch. *)
Lemma dispatch_timeline_event_Ok (evt : proto.Event) (r r' : Room.t) (b : bool)
    (out : list Effect) :
  Room.dispatch_timeline_event evt r = (Ok b, r', out) →
  ∃ s1 s2 out1 out2,
    RoomState.dispatch evt (Room.this r) true (Room.state_ r) = (Ok b, s1, out1)
    ∧ RoomState.prune_departed (Room.this r) s1 = (Ok tt, s2, out2)
    ∧ r' = Room.set_state s2
             (Room.set_buffer (Room.on_back (push_events [evt]) (Room.buffer_ r)) r).
Proof.
  unfold Room.dispatch_timeline_event, Room.on_state. st_unfold.
  destruct (RoomState.dispatch evt (Room.this r) true (Room.state_ r))
    as [[[b1|e] s1] out1] eqn:Hd; [|done].
  simpl.
  destruct (RoomState.prune_departed (Room.this r) s1) as [[[[]|e] s2] out2] eqn:Hp; [|done].
  intros [= <- <- <-]. by exists s1, s2, out1, out2.
Qed.

Lemma dispatch_timeline_events_Ok (events : list proto.Event) (touched : bool)
    (r r' : Room.t) (b : bool) (out : list Effect) :
  Room.dispatch_timeline_events events touched r = (Ok b, r', out) →
  ∃ s' out',
    ingest (Room.this r) true events (Room.state_ r) = (Ok tt, s', out')
    ∧ r' = Room.set_state s'
             (Room.set_buffer (Room.on_back (push_events events) (Room.buffer_ r)) r)
    ∧ b = touched || existsb touches_state events.
Proof.
  revert touched r out. induction events as [|evt events IH]; intros touched r out; simpl.
  { intros [= <- <- <-]. exists (Room.state_ r), []. split; [done|].
    rewrite on_back_id, orb_false_r. split; [by destruct r|done]. }
  intros Hrun. apply bind_Ok_inv in Hrun as (t1 & r1 & o1 & o2 & Hevt & Hrest & _).
  destruct (dispatch_timeline_event_Ok _ _ _ _ _ Hevt) as (s1 & s2 & out1 & out2 & Hd & Hp & ->).
  apply IH in Hrest as (s' & out' & Hingest & -> & ->).
  pose proof (dispatch_returns_touches _ _ _ _ _ _ _ Hd) as ->.
  exists s'. eexists. split; [|split].
  - unfold ingest in *. simpl. unfold mbind, St_bind, bind. unfold ingest_event at 1.
    rewrite (bind_Ok _ _ _ _ _ _ Hd), Hp. simpl in Hingest.
    change (Room.this (Room.set_state _ _)) with (Room.this r) in Hingest.
    rewrite Hingest. reflexivity.
  - simpl. rewrite on_back_on_back.
    rewrite (on_back_ext _ (push_events (evt :: events))); [done|].
    intros batch. apply push_events_push.
  - by rewrite orb_assoc.
Qed.

(** The events of an evicted batch go to the initial state. *)
Lemma evict_events_Ok (events : list proto.Event) (r r' : Room.t) (out : list Effect) :
  for_each events
    (fun evt =>
       Room.on_initial_state (RoomState.apply evt);;
       Room.on_initial_state (RoomState.prune_departed None)) r = (Ok tt, r', out) →
  ∃ s', ingest None false events (Room.initial_state_ r) = (Ok tt, s', out)
        ∧ r' = Room.set_initial_state s' r.
Proof.
  revert r out. induction events as [|evt events IH]; intros r out; simpl.
  { intros [= <- <-]. exists (Room.initial_state_ r). split; [done|]. by destruct r. }
  intros Hrun. apply bind_Ok_inv in Hrun as ([] & r1 & o1 & o2 & Hevt & Hrest & ->).
  unfold Room.on_initial_state in Hevt. st_unfold.
  unfold RoomState.apply in Hevt.
  destruct (RoomState.dispatch evt None false (Room.initial_state_ r))
    as [[[b|e] s1] out1] eqn:Hd; [|done].
  simpl in Hevt.
  destruct (RoomState.prune_departed None s1) as [[[[]|e] s2] out2] eqn:Hp; [|done].
  injection Hevt as <- <-.
  apply IH in Hrest as (s' & Hingest & ->). simpl in Hingest.
  exists s'. split; [|done].
  unfold ingest in *. simpl. unfold ingest_event at 1. unfold bind.
  unfold mbind, St_bind, bind. rewrite Hd, Hp. by rewrite Hingest.
Qed.

Lemma evict_Ok (turns : nat) (r r' : Room.t) (out : list Effect) :
  Room.evict turns r = (Ok tt, r', out) →
  (length (Room.buffer_ r) ≤ turns)%nat →
  ∃ k s',
    ingest None false (buffered (take k (Room.buffer_ r))) (Room.initial_state_ r)
    = (Ok tt, s', out)
    ∧ r' = Room.set_initial_state s' (Room.set_buffer (drop k (Room.buffer_ r)) r)
    ∧ window_bound r'
    ∧ (k = 0%nat ∨ ¬ window_bound r).
Proof.
  revert r out. induction turns as [|turns IH]; intros r out; simpl.
  { intros [= <- <-] Hlen. exists 0%nat, (Room.initial_state_ r).
    destruct (Room.buffer_ r) as [|? ?] eqn:Hbuf; simpl in Hlen; [|lia].
    split; [done|]. split; [destruct r; simpl in *; by subst|].
    split; [|by left]. unfold window_bound. by rewrite Hbuf. }
  intros Hrun Hlen. apply bind_Ok_inv in Hrun as (r0 & r0' & o1 & o2 & Hget & Hrun & ->).
  injection Hget as <- <- <-.
  destruct (Room.buffer_ r) as [|front rest] eqn:Hbuf.
  { injection Hrun as <- <-. exists 0%nat, (Room.initial_state_ r).
    split; [done|]. split; [destruct r; simpl in *; by subst|].
    split; [|by left]. unfold window_bound. by rewrite Hbuf. }
  case_bool_decide as Hcond.
  2:{ injection Hrun as <- <-. exists 0%nat, (Room.initial_state_ r).
      split; [done|]. split; [destruct r; simpl in *; by subst|].
      split; [|by left]. unfold window_bound. rewrite Hbuf. lia. }
  apply bind_Ok_inv in Hrun as ([] & r1 & o3 & o4 & Hfront & Hrest & ->).
  unfold Room.evict_front in Hfront.
  apply bind_Ok_inv in Hfront as ([] & ra & o5 & o6 & Hevents & Hpop & ->).
  apply evict_events_Ok in Hevents as (s1 & Hingest1 & ->).
  injection Hpop as <- <-. simpl in Hrest. rewrite Hbuf in Hrest. simpl in Hrest.
  apply IH in Hrest as (k & s' & Hingest & -> & Hbound & _); [|simpl in *; lia].
  simpl in Hingest.
  exists (S k), s'. split; [|split; [done|split; [done|]]].
  2:{ right. unfold window_bound. rewrite Hbuf. lia. }
  simpl. unfold buffered. simpl. fold (buffered (take k rest)).
  unfold ingest in *. rewrite for_each_app.
  unfold mbind, St_bind, bind. rewrite Hingest1, Hingest. by rewrite app_nil_r.
Qed.

Lemma update_receipt_other {T} (proj : Room.t → T) user event ts (r : Room.t) :
  (∀ v r, proj (Room.set_receipts_by_user v r) = proj r) →
  (∀ v r, proj (Room.set_receipts_by_event v r) = proj r) →
  proj (Room.update_receipt user event ts r) = proj r.
Proof.
  intros Hu He. unfold Room.update_receipt.
  destruct (Room.receipts_by_user_ r !! user) as [old|].
  - destruct (Room.receipts_by_event_ r !! receipt_event old); by rewrite He, Hu, ?He.
  - by rewrite He, Hu.
Qed.

Lemma dispatch_ephemeral_keeps {T} (proj : Room.t → T) (events : list proto.Event) :
  (∀ v r, proj (Room.set_receipts_by_user v r) = proj r) →
  (∀ v r, proj (Room.set_receipts_by_event v r) = proj r) →
  (∀ v r, proj (Room.set_typing v r) = proj r) →
  keeps proj (Room.dispatch_ephemeral events).
Proof.
  intros Hu He Ht. unfold Room.dispatch_ephemeral. apply keeps_for_each. intros evt.
  unfold Room.dispatch_ephemeral_event.
  case_bool_decide.
  - apply keeps_bind; [|by intros _ ?]. apply keeps_for_each. intros read_evt.
    apply keeps_for_each. intros user. unfold Room.update_receipt_m.
    apply keeps_bind; [by intros ?|]. intros _ r. by apply update_receipt_other.
  - case_bool_decide; [|by intros ?].
    apply keeps_bind; [|by intros _ ?]. intros r. apply Ht.
Qed.

(** What [file_timeline] does when it returns. *)
Lemma file_timeline_Ok (timeline : proto.Timeline) (r r' : Room.t) (b : bool)
    (out : list Effect) :
  file_timeline timeline r r = (Ok b, r', out) →
  (proto.events timeline = [] ∧ Room.buffer_ r ≠ [] ∧ b = false
   ∧ r' = Room.set_buffer
            (Room.on_back (fun batch => {| batch_prev_batch := proto.prev_batch timeline;
                                           batch_events := batch_events batch |})
                          (Room.buffer_ r)) r)
  ∨ (¬ (proto.events timeline = [] ∧ Room.buffer_ r ≠ [])
     ∧ b = existsb touches_state (proto.events timeline)
     ∧ window_bound r'
     ∧ ∃ s' si k out1 out2,
         (k = 0%nat
          ∨ ¬ window_bound (Room.set_buffer (Room.buffer_ r ++ [batch_of timeline]) r)) ∧
         ingest (Room.this r) true (proto.events timeline) (Room.state_ r) = (Ok tt, s', out1)
         ∧ ingest None false (buffered (take k (Room.buffer_ r ++ [batch_of timeline])))
             (Room.initial_state_ r) = (Ok tt, si, out2)
         ∧ r' = Room.set_initial_state si
                  (Room.set_state s'
                     (Room.set_buffer (drop k (Room.buffer_ r ++ [batch_of timeline])) r))).
Proof.
  unfold file_timeline.
  destruct (bool_decide (proto.events timeline = []) && negb (bool_decide (Room.buffer_ r = [])))
    eqn:Hbranch.
  - apply andb_true_iff in Hbranch as [He%bool_decide_eq_true Hb%negb_true_iff].
    apply bool_decide_eq_false in Hb.
    intros [= <- <- <-]. by left.
  - intros Hrun. right. split.
    { intros [He Hb]. rewrite bool_decide_eq_true_2 in Hbranch by done.
      by rewrite bool_decide_eq_false_2 in Hbranch. }
    apply bind_Ok_inv in Hrun as ([] & r1 & o1 & o2 & Hpush & Hrun & ->).
    injection Hpush as <- <-.
    apply bind_Ok_inv in Hrun as (touched & r2 & o3 & o4 & Hevents & Hrun & ->).
    apply dispatch_timeline_events_Ok in Hevents as (s' & out1 & Hingest & -> & ->).
    apply bind_Ok_inv in Hrun as (r3 & r3' & o5 & o6 & Hget & Hrun & ->).
    injection Hget as <- <- <-.
    apply bind_Ok_inv in Hrun as ([] & r4 & o7 & o8 & Hevict & Hret & ->).
    injection Hret as <- <- <-.
    apply evict_Ok in Hevict as (k & si & Hinit & -> & Hbound & Hk); [|done].
    simpl in *. rewrite on_back_app in *. unfold push_events in *. simpl in *.
    fold (batch_of timeline) in *.
    split; [done|]. split; [done|].
    exists s', si, k, out1, o7. by split_and!.
Qed.

Lemma when_modify_tell_Ok {S} (c : bool) (f : S → S) (e : Effect) (s s' : S) (u : unit)
    (out : list Effect) :
  when c (modify f;; tell e) s = (Ok u, s', out) → s' = if c then f s else s.
Proof. destruct c; st_unfold; simpl; by intros [= _ <- _]. Qed.

Lemma when_tell_Ok {S} (c : bool) (e : Effect) (s s' : S) (u : unit) (out : list Effect) :
  when c (tell e) s = (Ok u, s', out) → s' = s.
Proof. destruct c; st_unfold; simpl; by intros [= _ <- _]. Qed.

(** [Room::dispatch] that returns: its head leaves the window alone but
    for a limited timeline, which clears the buffer; then the timeline is
    filed; the ephemeral events leave the window alone. *)
Lemma dispatch_Ok (joined : proto.JoinedRoom) (r r' : Room.t) (b : bool) (out : list Effect) :
  Room.dispatch joined r = (Ok b, r', out) →
  ∃ r0 r1 out1,
    same_window (Room.set_buffer (buffer_kept (proto.timeline joined) r) r) r0
    ∧ file_timeline (proto.timeline joined) r0 r0 = (Ok b, r1, out1)
    ∧ same_window r1 r'.
Proof.
  unfold Room.dispatch. fold (file_timeline (proto.timeline joined)). intros Hrun.
  apply bind_Ok_inv in Hrun as (ra & ra' & o1 & o2 & Hget & Hrun & _).
  injection Hget as <- <- _.
  apply bind_Ok_inv in Hrun as ([] & r2 & o3 & o4 & Hhl & Hrun & _).
  assert (same_window r r2) as Hw2.
  { apply when_modify_tell_Ok in Hhl as ->. match goal with |- context [if ?c then _ else _] => destruct c end;
    unfold same_window; simpl; done. }
  apply bind_Ok_inv in Hrun as ([] & r3 & o5 & o6 & Hnc & Hrun & _).
  assert (same_window r r3) as Hw3.
  { apply when_modify_tell_Ok in Hnc as ->. destruct Hw2 as (? & ? & ? & ? & ?).
    match goal with |- context [if ?c then _ else _] => destruct c end;
    unfold same_window; simpl; done. }
  apply bind_Ok_inv in Hrun as ([] & r4 & o7 & o8 & Hlim & Hrun & _).
  assert (same_window (Room.set_buffer (buffer_kept (proto.timeline joined) r) r) r4) as Hw4.
  { unfold buffer_kept. destruct Hw3 as (? & ? & ? & ? & ?).
    apply when_modify_tell_Ok in Hlim as ->.
    destruct (proto.limited (proto.timeline joined)); unfold same_window; simpl; done. }
  apply bind_Ok_inv in Hrun as ([] & r5 & o9 & o10 & Hpb & Hrun & _).
  assert (r5 = r4) as -> by (unfold tell in Hpb; by injection Hpb as <- _).
  apply bind_Ok_inv in Hrun as (rb & rb' & o11 & o12 & Hget & Hrun & _).
  injection Hget as <- <- _.
  apply bind_Ok_inv in Hrun as (touched & r6 & o13 & o14 & Hfile & Hrun & _).
  apply bind_Ok_inv in Hrun as ([] & r7 & o15 & o16 & Heph & Hrun & _).
  apply bind_Ok_inv in Hrun as ([] & r8 & o17 & o18 & Hsc & Hrun & _).
  assert (touched = b ∧ r8 = r') as [-> ->] by (by injection Hrun as <- <- _).
  apply when_tell_Ok in Hsc as ->.
  exists r4, r6, o13. split; [done|]. split; [done|].
  pose proof (dispatch_ephemeral_keeps Room.buffer_ (proto.ephemeral_events (proto.ephemeral joined))
                ltac:(done) ltac:(done) ltac:(done) r6) as Hb.
  pose proof (dispatch_ephemeral_keeps Room.state_ (proto.ephemeral_events (proto.ephemeral joined))
                ltac:(done) ltac:(done) ltac:(done) r6) as Hs.
  pose proof (dispatch_ephemeral_keeps Room.initial_state_
                (proto.ephemeral_events (proto.ephemeral joined))
                ltac:(done) ltac:(done) ltac:(done) r6) as Hi.
  pose proof (dispatch_ephemeral_keeps Room.session_
                (proto.ephemeral_events (proto.ephemeral joined))
                ltac:(done) ltac:(done) ltac:(done) r6) as Hse.
  pose proof (dispatch_ephemeral_keeps Room.id_ (proto.ephemeral_events (proto.ephemeral joined))
                ltac:(done) ltac:(done) ltac:(done) r6) as Hid.
  rewrite Heph in Hb, Hs, Hi, Hse, Hid. unfold same_window. done.
Qed.

(** X18. Only the first batch of the buffer can be empty: when it holds
    before a delta and [Room::dispatch] returns, it holds afterwards. *)
Theorem dispatch_keeps_later_batches_nonempty (joined : proto.JoinedRoom) (r r' : Room.t)
    (b : bool) (out : list Effect) :
  later_batches_nonempty (Room.buffer_ r) →
  Room.dispatch joined r = (Ok b, r', out) →
  later_batches_nonempty (Room.buffer_ r').
Proof.
  intros Hshape Hrun.
  destruct (dispatch_Ok _ _ _ _ _ Hrun) as (r0 & r1 & out1 & Hw0 & Hfile & Hw1).
  destruct Hw0 as (Hbuf0 & _), Hw1 as (-> & _). simpl in Hbuf0.
  assert (later_batches_nonempty (Room.buffer_ r0)) as Hshape0.
  { rewrite Hbuf0. unfold buffer_kept. by destruct (proto.limited _); [constructor|]. }
  destruct (file_timeline_Ok _ _ _ _ _ Hfile)
    as [(_ & _ & _ & ->)|(Hbranch & _ & _ & s' & si & k & o1 & o2 & _ & _ & _ & ->)].
  - simpl. eapply later_batches_nonempty_events; [|exact Hshape0].
    symmetry. by apply events_on_back.
  - simpl. apply later_batches_nonempty_drop.
    unfold later_batches_nonempty in *.
    destruct (Room.buffer_ r0) as [|front rest]; simpl; [constructor|].
    apply Forall_app. split; [done|]. apply Forall_singleton. simpl.
    intros Hempty. apply Hbranch. by split.
Qed.

(** X19. The bound on the window.  When [Room::dispatch] returns, the
    batches after the first hold fewer events than [Session::buffer_size],
    provided this held before or the delta brings timeline events: the
    eviction loop runs until it does, and dies out with the buffer. *)
Theorem dispatch_window_bound (joined : proto.JoinedRoom) (r r' : Room.t)
    (b : bool) (out : list Effect) :
  window_bound r ∨ proto.events (proto.timeline joined) ≠ [] →
  Room.dispatch joined r = (Ok b, r', out) →
  window_bound r'.
Proof.
  intros Hbound Hrun.
  destruct (dispatch_Ok _ _ _ _ _ Hrun) as (r0 & r1 & out1 & Hw0 & Hfile & Hw1).
  destruct Hw0 as (Hbuf0 & _ & _ & Hs0 & _), Hw1 as (Hbuf1 & _ & _ & Hs1 & _).
  simpl in Hbuf0, Hs0.
  assert (window_bound r1 → window_bound r') as Hfinal.
  { unfold window_bound, Room.buffer_size. by rewrite Hbuf1, Hs1. }
  apply Hfinal.
  destruct (file_timeline_Ok _ _ _ _ _ Hfile)
    as [(Hevents & Hne & _ & ->)|(_ & _ & ? & _)]; [|done].
  destruct Hbound as [Hbound|?]; [|done].
  assert (Room.buffer_ r0 = Room.buffer_ r) as Hsame.
  { rewrite Hbuf0. unfold buffer_kept in *. rewrite Hbuf0 in Hne.
    by destruct (proto.limited _). }
  unfold window_bound, Room.buffer_size in *. simpl. rewrite Hs0.
  rewrite Hsame in *.
  destruct (on_back_snoc (fun batch => {| batch_prev_batch := proto.prev_batch (proto.timeline joined);
                                          batch_events := batch_events batch |})
              (Room.buffer_ r) Hne) as (front & back & Hbuf & Hback).
  rewrite Hback. rewrite Hbuf in Hbound.
  rewrite !buffer_size_of_buffered, !buffered_app in *.
  by destruct front.
Qed.

(** X20. For a delta that is not limited, [Room::dispatch] keeps the
    current state equal to the initial state followed by the buffered
    events: the events of an evicted batch go to the initial state in
    order, and the callbacks make no difference to the state. *)
Theorem dispatch_keeps_coherent (joined : proto.JoinedRoom) (r r' : Room.t)
    (b : bool) (out : list Effect) :
  coherent r →
  proto.limited (proto.timeline joined) = false →
  Room.dispatch joined r = (Ok b, r', out) →
  coherent r'.
Proof.
  intros Hcoherent Hlimited Hrun.
  destruct (dispatch_Ok _ _ _ _ _ Hrun) as (r0 & r1 & out1 & Hw0 & Hfile & Hw1).
  destruct Hw0 as (Hbuf0 & Hst0 & Hin0 & _ & Hid0), Hw1 as (Hbuf1 & Hst1 & Hin1 & _).
  unfold buffer_kept in Hbuf0. rewrite Hlimited in Hbuf0. simpl in *.
  unfold coherent in *. rewrite Hbuf1, Hst1, Hin1.
  destruct (file_timeline_Ok _ _ _ _ _ Hfile)
    as [(_ & _ & _ & ->)|(_ & _ & _ & s' & si & k & o1 & o2 & _ & Hstate & Hinit & ->)].
  - simpl. rewrite Hbuf0, Hst0, Hin0. unfold buffered.
    by rewrite events_on_back.
  - simpl. rewrite Hbuf0, Hst0 in *. rewrite Hin0 in Hinit.
    apply ingest_quietly in Hstate.
    pose proof (ingest_silent (buffered (take k (Room.buffer_ r ++ [batch_of (proto.timeline joined)])))
                  (Room.initial_state_ r)) as Hsilent.
    rewrite Hinit in Hsilent. simpl in Hsilent. subst o2.
    assert (ingest None false (buffered (Room.buffer_ r ++ [batch_of (proto.timeline joined)]))
              (Room.initial_state_ r) = (Ok tt, s', [])) as Hall.
    { rewrite buffered_app. unfold ingest in *. rewrite for_each_app.
      rewrite (bind_quiet _ _ _ _ _ Hcoherent).
      unfold buffered. simpl. by rewrite app_nil_r. }
    rewrite <- (take_drop k (Room.buffer_ r ++ [batch_of (proto.timeline joined)])) in Hall at 1.
    rewrite buffered_app in Hall. unfold ingest in *. rewrite for_each_app in Hall.
    by rewrite (bind_quiet _ _ _ _ _ Hinit) in Hall.
Qed.

(** X21. A limited delta restarts the window.  When the session buffers at
    least one event and [Room::dispatch] returns, the buffer holds the batch
    of the delta alone, and the initial state is what it was: the events of
    the batches that were dropped are not applied to it. *)
Theorem dispatch_limited (joined : proto.JoinedRoom) (r r' : Room.t)
    (b : bool) (out : list Effect) :
  proto.limited (proto.timeline joined) = true →
  (0 < Session.buffer_size (Room.session_ r))%nat →
  Room.dispatch joined r = (Ok b, r', out) →
  Room.buffer_ r' = [batch_of (proto.timeline joined)]
  ∧ Room.initial_state_ r' = Room.initial_state_ r.
Proof.
  intros Hlimited Hsize Hrun.
  destruct (dispatch_Ok _ _ _ _ _ Hrun) as (r0 & r1 & out1 & Hw0 & Hfile & Hw1).
  destruct Hw0 as (Hbuf0 & _ & Hin0 & Hs0 & _), Hw1 as (Hbuf1 & _ & Hin1 & _).
  unfold buffer_kept in Hbuf0. rewrite Hlimited in Hbuf0. simpl in *.
  rewrite Hbuf1, Hin1.
  destruct (file_timeline_Ok _ _ _ _ _ Hfile)
    as [(_ & Hne & _)|(_ & _ & _ & s' & si & k & o1 & o2 & Hk & _ & Hinit & ->)];
    [by rewrite Hbuf0 in Hne|].
  rewrite Hbuf0 in *. simpl in *.
  destruct Hk as [->|Hk].
  - simpl in *. injection Hinit as <- _. by rewrite Hin0.
  - exfalso. apply Hk. unfold window_bound, Room.buffer_size. simpl. rewrite Hs0.
    unfold Room.buffer_size_of. simpl. lia.
Qed.

(** X22. [Room::dispatch] returns [true] exactly when one of the timeline
    events of the delta is of a kind that [RoomState::dispatch] applies to
    the snapshot. *)
Theorem dispatch_result_touched (joined : proto.JoinedRoom) (r r' : Room.t)
    (b : bool) (out : list Effect) :
  Room.dispatch joined r = (Ok b, r', out) →
  b = existsb touches_state (proto.events (proto.timeline joined)).
Proof.
  intros Hrun.
  destruct (dispatch_Ok _ _ _ _ _ Hrun) as (r0 & r1 & out1 & _ & Hfile & _).
  destruct (file_timeline_Ok _ _ _ _ _ Hfile) as [(-> & _ & -> & _)|(_ & -> & _)]; done.
Qed.

End Timeline.

(** ** The state events of a delta *)

Section LoadState.
Context `{!Externals}.

Lemma load_state_event_Ok (evt : proto.Event) (r r' : Room.t) (out : list Effect) :
  (Room.on_initial_state (RoomState.apply evt);;
   Room.on_initial_state (RoomState.prune_departed None);;
   r0 ← get;
   Room.on_state (RoomState.dispatch evt (Room.this r0) true);;
   Room.on_state (RoomState.prune_departed None)) r = (Ok tt, r', out) →
  ∃ si ss outi outs,
    ingest_event None false evt (Room.initial_state_ r) = (Ok tt, si, outi)
    ∧ ingest_event None false evt (Room.state_ r) = (Ok tt, ss, outs)
    ∧ r' = Room.set_state ss (Room.set_initial_state si r).
Proof.
  unfold Room.on_initial_state, Room.on_state, RoomState.apply, ingest_event. st_unfold.
  destruct (RoomState.dispatch evt None false (Room.initial_state_ r))
    as [[[bi|e] i1] oi1] eqn:Hdi; [|done]. simpl.
  destruct (RoomState.prune_departed None i1) as [[[[]|e] i2] oi2] eqn:Hpi; [|done]. simpl.
  destruct (RoomState.dispatch evt (Room.this _) true (Room.state_ r))
    as [[[bs|e] s1] os1] eqn:Hds; [|done]. simpl.
  destruct (RoomState.prune_departed None s1) as [[[[]|e] s2] os2] eqn:Hps; [|done].
  intros [= <- <-].
  destruct (dispatch_refines _ _ _ false _ _ _ _ Hds) as [os1' Hds'].
  exists i2, s2, (oi1 ++ oi2), (os1' ++ os2). by rewrite Hds', Hps.
Qed.

(** X23. [Room::load_state] on a room with an empty buffer keeps the
    current state equal to the initial state: whenever it returns, both
    snapshots took the same steps and the buffer is still empty. *)
Theorem load_state_keeps_coherent (events : list proto.Event) (r r' : Room.t)
    (out : list Effect) :
  Room.buffer_ r = [] →
  coherent r →
  Room.load_state events r = (Ok tt, r', out) →
  Room.buffer_ r' = [] ∧ coherent r'.
Proof.
  unfold coherent. revert r out. induction events as [|evt events IH]; intros r out Hbuf Hc.
  { by intros [= <- <-]. }
  rewrite Hbuf in Hc. injection Hc as Hc.
  unfold Room.load_state. simpl. fold (Room.load_state events).
  intros Hrun. apply bind_Ok_inv in Hrun as ([] & r1 & o1 & o2 & Hevt & Hrest & _).
  apply load_state_event_Ok in Hevt as (si & ss & outi & outs & Hi & Hs & ->).
  rewrite <- Hc, Hi in Hs. injection Hs as <- _.
  apply IH in Hrest; [done|done|].
  simpl. by rewrite Hbuf.
Qed.

End LoadState.

(** ** Reading the newest event *)

(** X24. Reading the newest event clears the unread flag: after
    [update_receipt] of the own user for the last event of the last batch,
    [has_unread] is false. *)
Theorem has_unread_after_reading_newest (r : Room.t) (back : TimelineBatch)
    (newest : proto.Event) (ts : Z) :
  last (Room.buffer_ r) = Some back →
  last (batch_events back) = Some newest →
  Room.has_unread
    (Room.update_receipt (Session.user_id (Room.session_ r)) (proto.event_id newest) ts r)
  = false.
Proof.
  intros Hback Hnewest. unfold Room.has_unread.
  set (r' := Room.update_receipt _ _ _ r).
  assert (Room.buffer_ r' = Room.buffer_ r) as ->
    by (by apply (update_receipt_other Room.buffer_)).
  assert (Room.session_ r' = Room.session_ r) as ->
    by (by apply (update_receipt_other Room.session_)).
  rewrite Hback.
  unfold Room.receipt_from. subst r'. rewrite update_receipt_by_user, lookup_insert_eq.
  destruct (batch_events back) as [|e events] eqn:Hevents; [done|].
  rewrite bool_decide_eq_false_2 by done.
  apply last_Some in Hback as [front ->]. rewrite rev_app_distr. simpl.
  rewrite Hevents.
  apply last_Some in Hnewest as [older ->]. rewrite rev_app_distr. simpl.
  by rewrite bool_decide_eq_true_2.
Qed.

(** ** The sender *)



Lemma preserves_get_bind {S B} (P : S → Prop) (f : S → St S B) :
  (∀ s, P s → preserves P (f s)) → preserves P (get ≫= f).
Proof.
  intros Hf s HP. specialize (Hf s HP s HP). unfold mbind, St_bind, bind, get.
  by destruct (f s s) as [[r s2] out2].
Qed.

Section SenderInvariants.
Context `{!Externals}.

Lemma sender_run_preserves (P : Room.t → Prop) (inputs : list SenderInput) (r : Room.t) :
  (∀ i, preserves P (sender_step i)) → P r → P (sender_run inputs r).1.
Proof.
  intros Hstep. revert r. induction inputs as [|i inputs IH]; intros r HP; simpl; [done|].
  destruct (sender_enabled i r); [|by apply IH].
  specialize (Hstep i r HP).
  destruct (sender_step i r) as [[[[]|e] r1] out1]; simpl in *; [|done].
  specialize (IH r1 Hstep). by destruct (sender_run inputs r1).
Qed.

(** *** The back-off stays in range *)

Lemma transmit_event_backoff : preserves backoff_in_range Room.transmit_event.
Proof. unfold Room.transmit_event. preserves. Qed.

Lemma next_backoff_in_range (b : Z) :
  (MINIMUM_BACKOFF ≤ b)%Z → (MINIMUM_BACKOFF ≤ next_backoff b ≤ MAXIMUM_BACKOFF)%Z.
Proof.
  unfold next_backoff, MINIMUM_BACKOFF, MAXIMUM_BACKOFF. intros Hb.
  assert (b ≤ 5 * b / 4)%Z by (apply Z.div_le_lower_bound; lia).
  split; lia.
Qed.

Lemma sender_step_backoff (i : SenderInput) : preserves backoff_in_range (sender_step i).
Proof.
  pose proof transmit_event_backoff.
  destruct i as [type content|reply|]; simpl.
  - unfold Room.send. preserves; done.
  - unfold Room.transmit_finished, Room.pending_pop_front.
    do 3 (apply preserves_bind; [preserves; done|]; intros ?).
    apply preserves_get_bind. intros r [Hlo _].
    preserves; try done.
    intros r0 _. apply (next_backoff_in_range _ Hlo).
  - unfold Room.retry_timeout. preserves; done.
Qed.

(** X25. Along every run of the sender the back-off stays between
    [MINIMUM_BACKOFF] and 30 seconds. *)
Theorem sender_run_backoff_in_range (inputs : list SenderInput) (r : Room.t) :
  backoff_in_range r → backoff_in_range (sender_run inputs r).1.
Proof. apply sender_run_preserves, sender_step_backoff. Qed.

(** *** The request in flight *)





(** *** The retry timer and a drained queue *)

Lemma send_idle (type : QString) (content : QJsonObject) (r : Room.t) :
  Room.transmitting_ r = None →
  ∃ r' out,
    Room.send type content r = (Ok tt, r', out)
    ∧ Room.pending_events_ r'
      = Room.pending_events_ r ++ [{| pending_type := type; pending_content := content |}]
    ∧ is_Some (Room.transmitting_ r')
    ∧ Room.transmit_retry_timer_ r' = Room.transmit_retry_timer_ r.
Proof.
  intros Ht. unfold Room.send, Room.transmit_event. st_unfold. simpl. rewrite Ht. simpl.
  destruct (Room.pending_events_ r ++ _) as [|event rest] eqn:Hp.
  { by apply app_eq_nil in Hp as [_ ?]. }
  simpl. destruct (isEmpty (Room.last_transmit_transaction_ r)); simpl;
    do 2 eexists; (split; [reflexivity|]); simpl; rewrite ?Hp; by split_and!.
Qed.

Lemma transmit_finished_success (r : Room.t) (event : PendingEvent) (rest : list PendingEvent) :
  Room.pending_events_ r = event :: rest →
  ∃ r' out,
    Room.transmit_finished success r = (Ok tt, r', out)
    ∧ Room.pending_events_ r' = rest
    ∧ Room.transmit_retry_timer_ r' = Room.transmit_retry_timer_ r
    ∧ (rest = [] → Room.transmitting_ r' = None)
    ∧ (rest ≠ [] → is_Some (Room.transmitting_ r')).
Proof.
  intros Hp. unfold Room.transmit_finished, Room.pending_pop_front, Room.transmit_event.
  st_unfold. simpl. rewrite Hp. simpl.
  destruct rest as [|next rest]; simpl.
  - do 2 eexists. split; [reflexivity|]. by split_and!.
  - do 2 eexists. split; [reflexivity|]. simpl. by split_and!.
Qed.

Lemma retry_timeout_drained (r : Room.t) :
  Room.transmitting_ r = None →
  Room.pending_events_ r = [] →
  Room.retry_timeout r = (Raise undefined_behaviour, Room.set_transmit_retry_timer None r, []).
Proof.
  intros Ht Hp. unfold Room.retry_timeout, Room.transmit_event. st_unfold. simpl.
  by rewrite Ht, Hp.
Qed.

(** X27. The retry timer is never stopped.  From a state in which one
    event failed and awaits its retry, a send retransmits it at once; when
    that request and the next succeed before the timer fires, the timer
    calls [transmit_event] on an idle sender with an empty queue, which
    reads [front()] of an empty deque. *)
Theorem timer_fires_on_drained_queue (r : Room.t) (failed : PendingEvent)
    (type : QString) (content : QJsonObject) :
  Room.transmitting_ r = None →
  Room.pending_events_ r = [failed] →
  is_Some (Room.transmit_retry_timer_ r) →
  sender_outcome [Send type content; Finished success; Finished success; Timeout] r
  = Some undefined_behaviour.
Proof.
  intros Ht Hp Htimer.
  destruct (send_idle type content r Ht) as (r1 & o1 & Hsend & Hp1 & Ht1 & Htimer1).
  rewrite Hp in Hp1. simpl in Hp1.
  destruct (transmit_finished_success r1 _ _ Hp1) as (r2 & o2 & Hf2 & Hp2 & Htimer2 & _ & Ht2).
  destruct (transmit_finished_success r2 _ _ Hp2) as (r3 & o3 & Hf3 & Hp3 & Htimer3 & Ht3 & _).
  cbn [sender_outcome sender_enabled sender_step].
  rewrite Hsend.
  rewrite (bool_decide_eq_true_2 _ Ht1), Hf2.
  assert (is_Some (Room.transmitting_ r2)) as Ht2' by (by apply Ht2).
  rewrite (bool_decide_eq_true_2 _ Ht2'), Hf3.
  rewrite bool_decide_eq_true_2 by (by rewrite Htimer3, Htimer2, Htimer1).
  by rewrite retry_timeout_drained by auto.
Qed.

End SenderInvariants.

Section DrainedQueueExamples.
#[local] Existing Instance ascii_externals.

(** A fresh room reaches the state of the premises by one send that is
    throttled; the four steps then end in the read of an empty deque. *)
Lemma timer_fires_on_drained_queue_witness :
  let r := (sender_run [Send "m.room.message" [("body", JString "hi")];
                        Finished too_many_requests]
              (Room.fresh "!lobby:x" own_session)).1 in
  Room.pending_events_ r
  = [{| pending_type := "m.room.message"; pending_content := [("body", JString "hi")] |}]
  ∧ sender_outcome [Send "m.room.message" [("body", JString "yo")];
                    Finished success; Finished success; Timeout] r
    = Some undefined_behaviour.
Proof.
  intros r. split; [by vm_compute|].
  apply (timer_fires_on_drained_queue r
           {| pending_type := "m.room.message"; pending_content := [("body", JString "hi")] |}).
  - by vm_compute.
  - by vm_compute.
  - vm_compute. by eexists.
Defined.
End DrainedQueueExamples.

(** ** The states of a room stay sound *)

Section SoundRoom.
Context `{!Externals}.

Lemma sound_empty : sound RoomState.empty.
Proof.
  split; [|split; [|done]].
  - intros u m. simpl. by rewrite lookup_empty.
  - split; [|intros n v; simpl; by rewrite lookup_empty].
    intros n u. unfold filed_under, named. simpl. setoid_rewrite lookup_empty.
    split; [by intros (? & ? & _)|by intros (? & ? & _)].
Qed.

Lemma ingest_Ok_sound (room : option RoomPtr) (member_db : bool) (events : list proto.Event)
    (s s' : RoomState.t) (out : list Effect) :
  sound s → ingest room member_db events s = (Ok tt, s', out) → sound s'.
Proof.
  intros Hs Hrun. apply ingest_quietly in Hrun.
  destruct (ingest_quiet false events s Hs) as (s0 & out0 & Hquiet & Hs0).
  rewrite Hquiet in Hrun. by injection Hrun as <- _.
Qed.


(** The loop of the constructor over the persisted events. *)
Lemma load_events_returns (es : list QJsonValue) (r : Room.t) :
  sound (Room.state_ r) →
  ∃ r' out, for_each es Room.load_event r = (Ok tt, r', out)
            ∧ sound (Room.state_ r')
            ∧ Room.initial_state_ r' = Room.initial_state_ r.
Proof.
  revert r. induction es as [|e es IH]; intros r Hs; simpl.
  { by exists r, []. }
  destruct (ingest_event_quiet false (parse_event e) (Room.state_ r) Hs)
    as (s1 & out1 & Hrun & Hs1).
  unfold ingest_event in Hrun.
  assert (∃ r1 o1, Room.load_event e r = (Ok tt, r1, o1)
                   ∧ Room.state_ r1 = s1
                   ∧ Room.initial_state_ r1 = Room.initial_state_ r) as (r1 & o1 & Hevt & Hst & Hin).
  { unfold Room.load_event, Room.on_state, RoomState.apply. st_unfold. simpl.
    destruct (RoomState.dispatch (parse_event e) None false (Room.state_ r))
      as [[[b|exn] sa] oa]; [|done]. simpl.
    destruct (RoomState.prune_departed None sa) as [[[[]|exn] sb] ob]; [|done].
    injection Hrun as <- <-. by do 2 eexists. }
  destruct (IH r1) as (r' & out & Hrest & Hs' & Hin'); [by rewrite Hst|].
  exists r', (o1 ++ out). unfold bind. rewrite Hevt, Hrest. split; [done|]. split; [done|].
  by rewrite Hin'.
Qed.

Lemma load_receipts_returns (l : list (QString * QJsonValue)) (r : Room.t) :
  ∃ r' out, for_each l Room.load_receipt r = (Ok tt, r', out)
            ∧ Room.state_ r' = Room.state_ r
            ∧ Room.initial_state_ r' = Room.initial_state_ r.
Proof.
  revert r. induction l as [|it l IH]; intros r; simpl.
  { by exists r, []. }
  unfold Room.load_receipt at 1. unfold Room.update_receipt_m. st_unfold. simpl.
  match goal with |- context [for_each l Room.load_receipt ?r1] =>
    destruct (IH r1) as (r' & out & -> & Hst & Hin)
  end.
  do 2 eexists. split; [reflexivity|]. rewrite Hst, Hin.
  split; by apply update_receipt_other.
Qed.

(** X29. The constructor of [Room] returns on every persisted object,
    provided the keys of the member database are distinct, and leaves both
    states sound. *)
Theorem constructor_returns (id : QString) (session : Session.t) (initial : QJsonObject)
    (member_db : list (UserID * QJsonObject)) :
  NoDup member_db.*1 →
  ∃ r' out, Room.of_json id session initial member_db = (Ok tt, r', out) ∧ sound_room r'.
Proof.
  intros Hnd. unfold Room.of_json, Room.load.
  pose proof sound_empty as Hempty.
  destruct (Json.empty initial).
  { do 2 eexists. by split. }
  destruct (RoomState_of_json_quiet (Json.toObject (Json.value initial "initial_state"))
              member_db Hnd) as (init & Hinit & Hsound & _).
  erewrite bind_quiet by (unfold Room.assign_initial_state; rewrite Hinit; reflexivity).
  erewrite bind_quiet by reflexivity.
  set (r0 := Room.set_state _ _).
  assert (∃ r1 o1,
    when (negb (Json.empty (Json.toObject (Json.value initial "buffer"))))
      (modify (fun r => Room.set_buffer
                 (Room.buffer_ r
                  ++ [{| batch_prev_batch :=
                           Json.toString
                             (Json.value (Json.toObject (Json.value initial "buffer"))
                                "prev_batch");
                         batch_events := [] |}]) r);;
       for_each (Json.toArray (Json.value (Json.toObject (Json.value initial "buffer")) "events"))
         Room.load_event) r0 = (Ok tt, r1, o1)
    ∧ sound (Room.state_ r1) ∧ Room.initial_state_ r1 = init) as (r1 & o1 & Hbuf & Hs1 & Hi1).
  { unfold when. destruct (negb _); [|by exists r0, []].
    erewrite bind_quiet by reflexivity.
    match goal with |- context [for_each ?es Room.load_event ?ra] =>
      destruct (load_events_returns es ra) as (r1 & o1 & Hloop & Hs1 & Hi1); [done|]
    end.
    by exists r1, o1. }
  cbn zeta. erewrite bind_Ok by exact Hbuf.
  erewrite bind_quiet by reflexivity. erewrite bind_quiet by reflexivity.
  match goal with |- context [for_each ?l Room.load_receipt ?ra] =>
    destruct (load_receipts_returns l ra) as (r2 & o2 & -> & Hs2 & Hi2)
  end.
  do 2 eexists. split; [reflexivity|]. unfold sound_room. rewrite Hs2, Hi2. simpl.
  by rewrite Hi1.
Qed.

End SoundRoom.

(** ** Typing notifications *)

Section Typing.
Context `{!Externals}.

Lemma receipt_loops_return (content : QJsonObject) (r : Room.t) :
  ∃ r' out,
    for_each content
      (fun read_evt =>
         let obj := Json.toObject (Json.value (Json.toObject read_evt.2) "m.read") in
         for_each obj
           (fun user =>
              Room.update_receipt_m user.1 read_evt.1
                (Json.toDouble (Json.value (Json.toObject user.2) "ts") 0))) r
    = (Ok tt, r', out)
    ∧ Room.typing_ r' = Room.typing_ r.
Proof.
  revert r. induction content as [|read_evt content IH]; intros r; simpl.
  { by exists r, []. }
  assert (∀ obj r0, ∃ r1 o1,
    for_each obj
      (fun user : QString * QJsonValue =>
         Room.update_receipt_m user.1 read_evt.1
           (Json.toDouble (Json.value (Json.toObject user.2) "ts") 0)) r0 = (Ok tt, r1, o1)
    ∧ Room.typing_ r1 = Room.typing_ r0) as Hinner.
  { induction obj as [|user obj IHobj]; intros r0; simpl; [by exists r0, []|].
    unfold Room.update_receipt_m at 1. st_unfold. simpl.
    match goal with |- context [for_each obj _ ?ra] =>
      destruct (IHobj ra) as (r1 & o1 & -> & Ht)
    end.
    do 2 eexists. split; [reflexivity|]. rewrite Ht. by apply update_receipt_other. }
  destruct (Hinner (Json.toObject (Json.value (Json.toObject read_evt.2) "m.read")) r)
    as (r1 & o1 & Hrun1 & Ht1).
  destruct (IH r1) as (r' & out & Hrun & Ht).
  exists r', (o1 ++ out). unfold bind. cbn zeta. rewrite Hrun1.
  cbn zeta in Hrun. rewrite Hrun. split; [done|]. by rewrite Ht.
Qed.

(** X30. The ephemeral events of a delta never stop abnormally, and the
    typing list afterwards is that of the last [m.typing] event of the
    delta, or the list before when there is none; receipts do not touch
    it. *)
Theorem dispatch_ephemeral_typing (events : list proto.Event) (r : Room.t) :
  ∃ r' out,
    Room.dispatch_ephemeral events r = (Ok tt, r', out)
    ∧ Room.typing_ r'
      = match last (List.filter is_typing_event events) with
        | Some e => typing_users e
        | None => Room.typing_ r
        end.
Proof.
  unfold Room.dispatch_ephemeral. revert r.
  induction events as [|evt events IH]; intros r; simpl.
  { by exists r, []. }
  assert (∃ r1 o1, Room.dispatch_ephemeral_event evt r = (Ok tt, r1, o1)
                   ∧ Room.typing_ r1
                     = if is_typing_event evt
                       then typing_users evt else Room.typing_ r) as (r1 & o1 & Hevt & Ht1).
  { unfold Room.dispatch_ephemeral_event, is_typing_event.
    case_bool_decide as Hreceipt; simpl.
    - rewrite bool_decide_eq_false_2 by (by rewrite Hreceipt).
      destruct (receipt_loops_return (proto.content evt) r) as (r1 & o1 & Hloop & Ht).
      exists r1. eexists. split; [|done].
      by rewrite (bind_Ok _ _ _ _ _ _ Hloop).
    - case_bool_decide; simpl; by do 2 eexists. }
  destruct (IH r1) as (r' & out & Hrest & Ht').
  exists r', (o1 ++ out). unfold bind. rewrite Hevt, Hrest. split; [done|].
  rewrite Ht', Ht1.
  destruct (is_typing_event evt); [|reflexivity].
  destruct (List.filter is_typing_event events) as [|x l]; [reflexivity|].
  change (last (evt :: x :: l)) with (last (x :: l)).
  destruct (last (x :: l)) eqn:Hl; [done|]. by apply last_None in Hl.
Qed.

End Typing.

(** ** Examples of the further properties *)

Section FurtherExamples.
#[local] Existing Instance ascii_externals.
#[local] Existing Instance ascii_translations.

(** The state after events that went through is sound. *)
Lemma sound_state_after (events : list proto.Event) :
  (ingest (Some lobby) true events RoomState.empty).1.1 = Ok tt →
  sound (state_after events).
Proof.
  unfold state_after. intros Hrun.
  destruct (ingest (Some lobby) true events RoomState.empty) as [[res s] out] eqn:Hingest.
  simpl in *. subst res. by apply (ingest_Ok_sound _ _ _ _ _ _ sound_empty Hingest).
Qed.

Example pretty_name_of_three :
  RoomState.pretty_name (state_after three_members) "@me:x" = Ok "Sam (@a:x) and 2 others"
  ∧ RoomState.pretty_name (state_after three_members) "@a:x" = Ok "Kim and Sam (@c:x)".
Proof. split; by vm_compute. Qed.

(** A second user is filed under the name of the only member and forgotten
    again. *)
Lemma record_then_forget_restores_witness :
  let s := state_after [join_event "@a:x" "Sam"] in
  (RoomState.record_displayname "@b:x" "Sam" None;;
   RoomState.forget_displayname "@b:x" "Sam" None) s = (Ok tt, s, []).
Proof.
  intros s. apply record_then_forget_restores.
  - by apply sound_state_after.
  - intros (vec & Hvec & Hin). vm_compute in Hvec. injection Hvec as <-.
    apply list_elem_of_singleton in Hin. discriminate.
Defined.


(** The only member is filed a second time under its name. *)
Lemma record_displayname_filed_twice_witness :
  let s := state_after [join_event "@a:x" "Sam"] in
  RoomState.record_displayname "@a:x" "Sam" (Some lobby) s = (Raise assertion_failure, s, []).
Proof.
  intros s. apply record_displayname_filed_twice; [discriminate|].
  exists ["@a:x"]. split; [by vm_compute|by left].
Defined.

(** A join on the empty state, with callbacks and a database and without. *)
Lemma dispatch_state_independent_of_callbacks_witness :
  RoomState.apply (join_event "@a:x" "Sam") RoomState.empty
  = (Ok true, (RoomState.dispatch (join_event "@a:x" "Sam") (Some lobby) true
                 RoomState.empty).1.2, []).
Proof.
  eapply (dispatch_state_independent_of_callbacks _ (Some lobby) true).
  vm_compute. reflexivity.
Defined.

(** A ban whose subject is the id of the room, on the empty state. *)
Lemma leave_of_stranger_witness :
  RoomState.update_membership "!lobby:x" [("membership", JString "ban")] (Some lobby) true
    RoomState.empty
  = (Ok true, RoomState.empty, [Emit (Signal.left BAN); dbi_del "!lobby:x"]).
Proof.
  by rewrite (leave_of_stranger _ _ _ _ _ BAN); [|by vm_compute|by right|by vm_compute].
Defined.


(** A change of topic from the topic that the state holds. *)
Lemma revert_undoes_dispatch_witness :
  let evt := proto.mkEvent "m.room.topic" "$t" "@a:x" "" [("topic", JString "New")]
               (Some [("topic", JString "Old")]) in
  let s := RoomState.set_topic "Old" RoomState.empty in
  (RoomState.dispatch evt (Some lobby) true;; RoomState.revert evt) s
  = (Ok tt, s, [Emit (Signal.topic_changed "Old")]).
Proof.
  intros evt s.
  destruct (revert_undoes_dispatch evt (Some lobby) true s) as [out Hout].
  - right. right. by left.
  - split_and!; intros Htype; by vm_compute.
  - rewrite Hout. f_equal. vm_compute in Hout. by injection Hout.
Defined.

(** A join on the empty state is reverted. *)
Lemma revert_undoes_join_witness :
  let evt := join_event "@a:x" "Sam" in
  RoomState.revert evt (ingest_event (Some lobby) true evt RoomState.empty).1.2
  = (Ok tt, RoomState.empty, []).
Proof.
  intros evt.
  eapply (revert_undoes_join evt (Some lobby) true RoomState.empty);
    [apply sound_empty|done|discriminate|done|by left|by vm_compute|].
  vm_compute. reflexivity.
Defined.

(** The subject of a leave is stored in the empty state as departed. *)
Lemma ensure_member_sound_witness :
  ∃ s', RoomState.ensure_member (leave_event "@a:x") RoomState.empty = (Ok tt, s', [])
        ∧ sound s'
        ∧ RoomState.members_by_id_ s' !! "@a:x" = Some (Member.mk "@a:x" "" "" LEAVE).
Proof.
  destruct (ensure_member_sound (leave_event "@a:x") RoomState.empty sound_empty)
    as (s' & Hrun & Hs' & _ & Hms).
  exists s'. split; [done|]. split; [done|].
  vm_compute in Hrun. by injection Hrun as <-.
Defined.

(** The members of a room of three in the reverse order. *)
Lemma pretty_name_order_independent_witness :
  let s := state_after three_members in
  RoomState.pretty_name_of_members s "@me:x" (rev (RoomState.members s))
  = Ok "Sam (@a:x) and 2 others".
Proof.
  intros s. rewrite (pretty_name_order_independent s "@me:x").
  - by vm_compute.
  - by apply sound_state_after.
  - symmetry. apply Permutation_rev.
Defined.

(** A room of three members has a name. *)
Lemma pretty_name_defined_witness :
  ∃ n, Room.pretty_name (room_after [delta three_members]) = Ok n.
Proof.
  assert (Room.state_ (room_after [delta three_members]) = state_after three_members) as Hstate
    by (by vm_compute).
  assert (sound (state_after three_members)) as (Hids & Hc & _)
    by (by apply sound_state_after).
  apply pretty_name_defined; by rewrite Hstate.
Defined.

(** A user's receipt moves from one event to the next. *)
Lemma update_receipt_moves_witness :
  let r := Room.update_receipt "@a:x" "$1" 10 (Room.fresh "!lobby:x" own_session) in
  let r' := Room.update_receipt "@a:x" "$2" 20 r in
  receipts_consistent r'
  ∧ Room.receipt_from r' "@a:x" = Some {| receipt_event := "$2"; receipt_ts := 20 |}
  ∧ (∀ e, "@a:x" ∈ Room.receipts_for r' e ↔ e = "$2")
  ∧ (∀ u, u ≠ "@a:x" →
          Room.receipt_from r' u = Room.receipt_from r u
          ∧ ∀ e, u ∈ Room.receipts_for r' e ↔ u ∈ Room.receipts_for r e).
Proof.
  intros r. apply (update_receipt_moves "@a:x" "$2" 20 r).
  apply update_receipt_consistent, receipts_consistent_fresh.
Defined.

(** A delta with one receipt on a fresh room. *)
Lemma dispatch_keeps_receipts_consistent_witness :
  let joined :=
    {| proto.unread_notifications :=
         {| proto.highlight_count := 0; proto.notification_count := 0 |};
       proto.timeline := {| proto.limited := false; proto.prev_batch := "p";
                            proto.events := [] |};
       proto.ephemeral :=
         {| proto.ephemeral_events := [receipt_event_of [read_by "$1" "@a:x" 10]] |} |} in
  receipts_consistent (Room.dispatch joined (Room.fresh "!lobby:x" own_session)).1.2.
Proof.
  intros joined. apply dispatch_keeps_receipts_consistent, receipts_consistent_fresh.
Defined.

(** Two deltas of one message each. *)
Lemma dispatch_keeps_later_batches_nonempty_witness :
  later_batches_nonempty
    (Room.buffer_ (Room.dispatch (delta [message_event "$2" "@a:x"])
                     (room_after [delta [message_event "$1" "@a:x"]])).1.2).
Proof.
  eapply (dispatch_keeps_later_batches_nonempty (delta [message_event "$2" "@a:x"])
            (room_after [delta [message_event "$1" "@a:x"]])).
  - unfold later_batches_nonempty. vm_compute. constructor.
  - vm_compute. reflexivity.
Defined.

(** A delta of one message on a fresh room. *)
Lemma dispatch_window_bound_witness :
  window_bound (Room.dispatch (delta [message_event "$1" "@a:x"])
                  (Room.fresh "!lobby:x" own_session)).1.2.
Proof.
  eapply (dispatch_window_bound (delta [message_event "$1" "@a:x"])
            (Room.fresh "!lobby:x" own_session)).
  - by left.
  - vm_compute. reflexivity.
Defined.

(** A join and a change of name in one delta on a fresh room. *)
Lemma dispatch_keeps_coherent_witness :
  coherent (Room.dispatch (delta [join_event "@a:x" "Sam"; name_event "Lobby"])
              (Room.fresh "!lobby:x" own_session)).1.2.
Proof.
  eapply (dispatch_keeps_coherent (delta [join_event "@a:x" "Sam"; name_event "Lobby"])
            (Room.fresh "!lobby:x" own_session)).
  - by vm_compute.
  - done.
  - vm_compute. reflexivity.
Defined.

(** A limited delta after a change of name: the state keeps the name, the
    buffer holds the new batch alone, and the initial state has no name. *)
Lemma dispatch_limited_witness :
  let gap :=
    {| proto.unread_notifications :=
         {| proto.highlight_count := 0; proto.notification_count := 0 |};
       proto.timeline := {| proto.limited := true; proto.prev_batch := "q";
                            proto.events := [message_event "$9" "@a:x"] |};
       proto.ephemeral := {| proto.ephemeral_events := [] |} |} in
  let r := room_after [delta [name_event "Lobby"]] in
  let r' := (Room.dispatch gap r).1.2 in
  RoomState.name_ (Room.state_ r') = "Lobby"
  ∧ Room.buffer_ r' = [batch_of (proto.timeline gap)]
  ∧ RoomState.name_ (Room.initial_state_ r') = "".
Proof.
  intros gap r r'. split; [by vm_compute|].
  edestruct (dispatch_limited gap r r') as [Hbuf Hinit].
  - done.
  - vm_compute. lia.
  - vm_compute. reflexivity.
  - split; [done|]. rewrite Hinit. by vm_compute.
Defined.

(** The restriction to deltas that are not limited cannot be dropped:
    after the limited delta above the current state holds the name that the
    dropped batch gave the room, and the initial state followed by the
    buffer does not. *)
Example limited_delta_breaks_coherence :
  let gap :=
    {| proto.unread_notifications :=
         {| proto.highlight_count := 0; proto.notification_count := 0 |};
       proto.timeline := {| proto.limited := true; proto.prev_batch := "q";
                            proto.events := [message_event "$9" "@a:x"] |};
       proto.ephemeral := {| proto.ephemeral_events := [] |} |} in
  let r := room_after [delta [name_event "Lobby"]] in
  coherent r ∧ ¬ coherent (Room.dispatch gap r).1.2.
Proof.
  intros gap r. split; [by vm_compute|].
  unfold coherent. intros H.
  apply (f_equal (fun x => RoomState.name_ x.1.2)) in H.
  vm_compute in H. discriminate H.
Qed.

(** A message and a change of name: the state was touched. *)
Lemma dispatch_result_touched_witness :
  (Room.dispatch (delta [message_event "$1" "@a:x"; name_event "Lobby"])
     (Room.fresh "!lobby:x" own_session)).1.1 = Ok true.
Proof.
  destruct (Room.dispatch _ _) as [[[b|e] r'] out] eqn:Hrun; [|by vm_compute in Hrun].
  by rewrite (dispatch_result_touched _ _ _ _ _ Hrun).
Defined.

(** A join and a change of name loaded into a fresh room. *)
Lemma load_state_keeps_coherent_witness :
  let r' := (Room.load_state [join_event "@a:x" "Sam"; name_event "Lobby"]
               (Room.fresh "!lobby:x" own_session)).1.2 in
  Room.buffer_ r' = [] ∧ coherent r'.
Proof.
  intros r'.
  eapply (load_state_keeps_coherent [join_event "@a:x" "Sam"; name_event "Lobby"]
            (Room.fresh "!lobby:x" own_session)).
  - done.
  - by vm_compute.
  - vm_compute. reflexivity.
Defined.

(** Two messages of others are unread until the own receipt names the
    second. *)
Lemma has_unread_after_reading_newest_witness :
  let r := room_after [delta [message_event "$1" "@a:x"; message_event "$2" "@b:x"]] in
  Room.has_unread r = true
  ∧ Room.has_unread (Room.update_receipt "@me:x" "$2" 7 r) = false.
Proof.
  intros r. split; [by vm_compute|].
  apply (has_unread_after_reading_newest r
           {| batch_prev_batch := "p";
              batch_events := [message_event "$1" "@a:x"; message_event "$2" "@b:x"] |}
           (message_event "$2" "@b:x") 7); by vm_compute.
Defined.

(** A message that is throttled twice. *)
Lemma sender_run_backoff_in_range_witness :
  backoff_in_range
    (sender_run [Send "m.room.message" [("body", JString "hi")];
                 Finished too_many_requests; Timeout; Finished too_many_requests]
       (Room.fresh "!lobby:x" own_session)).1.
Proof.
  apply sender_run_backoff_in_range.
  split; by vm_compute.
Defined.



(** The room is rebuilt from what it persisted and the record of its member. *)
Lemma constructor_returns_witness :
  let r := room_after [delta [join_event "@a:x" "Sam"; message_event "$1" "@a:x"]] in
  ∃ r' out,
    Room.of_json "!lobby:x" own_session (Room.to_json r)
      [("@a:x", Member.to_json (Member.mk "@a:x" "Sam" "" JOIN))] = (Ok tt, r', out)
    ∧ sound_room r'.
Proof. intros r. apply constructor_returns. apply NoDup_singleton. Defined.

End FurtherExamples.
